(** * Proximity voice chat: client arbiter, world shard and relay configuration

    A shallow embedding of
    - [client/voiceChat/peerManager.ts] (module [PeerManager]),
    - [src/worldShard.ts] (module [WorldShard]),
    - [src/config.ts], [src/turn.ts] and the admission handler of
      [src/index.ts] (module [Relay]),
    - the connection class of [client/voiceChat/client.ts] (module [Client]),
    followed by the properties of the specification that concern them and by
    further properties of the same code.

    Conventions.  A finite JavaScript number is the rational ([Q]) it
    stands for.  The arithmetic of distances is exact; the arithmetic of the
    relay module rounds to the nearest double and overflows as binary64
    does.  [Date.now()] is an integer number of milliseconds handed to
    every operation.  A string is held in UTF-8.  A JavaScript [Set] or
    [Map] whose iteration order is observable is a list in insertion order;
    a [Map] that is only read and written by key is a [gmap]. *)

From Stdlib Require Import QArith Qabs Qminmax Qround Qpower ZArith Lqa.
From stdpp Require Import gmap strings list fin_maps sorting.

#[local] Open Scope Z_scope.
#[local] Set Warnings "-register-all".

(** ** JavaScript values shared by the three modules *)

Module Js.

(** A value produced by [JSON.parse]. [undefined] is [None] in [option json]. *)
Inductive json :=
| JNull
| JBool (b : bool)
| JNum (q : Q)
| JStr (s : string)
| JArr (items : list json)
| JObj (fields : list (string * json)).

(** [o[key]] on an object literal: the last binding of a key wins, as in
    [JSON.parse]. *)
Fixpoint assoc {A} (key : string) (fields : list (string * A)) : option A :=
  match fields with
  | [] => None
  | (k, v) :: rest =>
      match assoc key rest with
      | Some w => Some w
      | None => if String.eqb k key then Some v else None
      end
  end.

(** Property read [v.key]: [undefined] on anything that is not an object
    holding the key. *)
Definition prop (v : option json) (key : string) : option json :=
  match v with
  | Some (JObj fields) => assoc key fields
  | _ => None
  end.

(** [typeof v === "string"] *)
Definition as_string (v : option json) : option string :=
  match v with
  | Some (JStr s) => Some s
  | _ => None
  end.

(** [v != null && typeof v === "object"]: an array or an object. *)
Definition is_object (v : option json) : bool :=
  match v with
  | Some (JArr _) | Some (JObj _) => true
  | _ => false
  end.

Definition Qnonzero (q : Q) : bool := negb (Qeq_bool q 0).

(** [a < b] *)
Definition Qlt_bool (a b : Q) : bool := negb (Qle_bool b a).

(** *** Binary64

    The binade of a rational that is not zero: the [b] with
    [2 ^ b <= |q| < 2 ^ (b + 1)]. *)
Definition binade (q : Q) : Z :=
  let k := Z.log2 (Z.abs (Qnum q)) - Z.log2 (Z.pos (Qden q)) in
  if Qle_bool (2 ^ k) (Qabs q) then k else k - 1.

(** The nearest integer, a tie going to the even one. *)
Definition round_half_even (q : Q) : Z :=
  let f := Qfloor q in
  match (q - inject_Z f ?= 1 # 2)%Q with
  | Lt => f
  | Gt => f + 1
  | Eq => if Z.even f then f else f + 1
  end.

(** The spacing of the doubles around [q]: 52 binary digits below the
    binade, and [2 ^ -1074] throughout the subnormal range. *)
Definition ulp (q : Q) : Q := (2 ^ (Z.max (binade q) (-1022) - 52))%Q.

(** The multiple of [ulp q] nearest to [q], a tie going to the even one:
    the double an exact result is rounded to, as long as it does not
    overflow. *)
Definition nearest (q : Q) : Q :=
  (inject_Z (round_half_even (q / ulp q)) * ulp q)%Q.

(** The outcome of an arithmetic operation whose exact result is [q]:
    [None] stands for [Infinity] or [-Infinity], which it is when the
    rounded magnitude reaches [2 ^ 1024]. *)
Definition to_double (q : Q) : option Q :=
  let d := nearest q in
  if Qle_bool (2 ^ 1024) (Qabs d) then None else Some d.

(** The operators [*] and [-] on numbers, where [None] is a number that is
    not finite ([NaN], [Infinity] or [-Infinity]): with such an operand the
    result is not finite either. *)
Definition multiply (a b : option Q) : option Q :=
  match a, b with
  | Some x, Some y => to_double (x * y)
  | _, _ => None
  end.

Definition subtract (a b : option Q) : option Q :=
  match a, b with
  | Some x, Some y => to_double (x - y)
  | _, _ => None
  end.

(** Truthiness of a JSON value ([if (v)]). *)
Definition truthy (v : option json) : bool :=
  match v with
  | None | Some JNull => false
  | Some (JBool b) => b
  | Some (JNum q) => Qnonzero q
  | Some (JStr s) => negb (String.eqb s "")
  | Some (JArr _) | Some (JObj _) => true
  end.

(** What the platform supplies: [Math.sqrt], and the numeric coercion
    applied by an arithmetic operator to an arbitrary value, where [None] is
    [NaN]. *)
Class Platform := {
  Math_sqrt : Q → Q;
  ToNumber : option json → option Q;
}.

(** A [Set<string>] in insertion order. *)
Module JsSet.
Definition has (x : string) (s : list string) : bool := bool_decide (x ∈ s).
Definition add (x : string) (s : list string) : list string :=
  if has x s then s else s ++ [x].
Definition delete (x : string) (s : list string) : list string :=
  filter (λ y, y ≠ x) s.
End JsSet.

(** A [Map<string, V>] in insertion order. [set] on a present key keeps the
    key's place. *)
Module JsMap.
Fixpoint get {V} (k : string) (m : list (string * V)) : option V :=
  match m with
  | [] => None
  | (k', v) :: rest => if String.eqb k' k then Some v else get k rest
  end.
Fixpoint set {V} (k : string) (v : V) (m : list (string * V)) : list (string * V) :=
  match m with
  | [] => [(k, v)]
  | (k', v') :: rest =>
      if String.eqb k' k then (k, v) :: rest else (k', v') :: set k v rest
  end.
Fixpoint delete {V} (k : string) (m : list (string * V)) : list (string * V) :=
  match m with
  | [] => []
  | (k', v') :: rest =>
      if String.eqb k' k then rest else (k', v') :: delete k rest
  end.
Definition keys {V} (m : list (string * V)) : list string := m.*1.
Definition values {V} (m : list (string * V)) : list V := m.*2.
End JsMap.

(** [o[k] = v] on an object that starts as [{}], kept in assignment order.
    The key [__proto__] names the prototype: assigning to it adds no
    property of the object's own, so [Object.entries], [Object.keys] and
    [JSON.stringify] do not see it. *)
Definition assign {V} (k : string) (v : V) (o : list (string * V))
    : list (string * V) :=
  if String.eqb k "__proto__" then o else JsMap.set k v o.

End Js.

(** ** The client-side proximity arbiter ([peerManager.ts]) *)

Module PeerManager.
Import Js.

Record Vector3 := { x : Q; y : Q; z : Q }.

(** A distance: a finite number or [Number.POSITIVE_INFINITY]. *)
Inductive number :=
| Finite (q : Q)
| PositiveInfinity.

(** [a <= b] *)
Definition number_le (a b : number) : bool :=
  match a, b with
  | Finite p, Finite q => Qle_bool p q
  | Finite _, PositiveInfinity => true
  | PositiveInfinity, Finite _ => false
  | PositiveInfinity, PositiveInfinity => true
  end.

(** [a > b] *)
Definition number_gt (a b : number) : bool := negb (number_le a b).

Record VoicePeerManagerOptions := {
  opt_connectRadius : Q;
  opt_disconnectRadiusMultiplier : option Q;
  opt_maxPeers : option Q;
  opt_evaluationDebounceMs : option Z;
}.

(** [Required<VoicePeerManagerOptions>]: finite numbers. [maxPeers - size]
    is exact, the size of a set being a small whole number. *)
Record Options := {
  connectRadius : Q;
  disconnectRadiusMultiplier : Q;
  maxPeers : Q;
  evaluationDebounceMs : Z;
}.

Record PeerState := {
  id : string;
  distance : number;
  lastUpdated : Z;
  hasExplicitDistance : bool;
}.

Record PeerDiffMessage := {
  added : option (list string);
  removed : option (list string);
  peers : option (list string);
  distances : option (list (string * option number));
  positions : option (list (string * Vector3));
}.

Definition DEFAULT_OPTIONS : Options :=
  {| connectRadius := 30;
     disconnectRadiusMultiplier := 3 # 2;
     maxPeers := 8;
     evaluationDebounceMs := 250 |}.

(** What a subscribed listener observes: the calls of [emitConnect] and
    [emitDisconnect]. *)
Inductive Event :=
| Connect (peerId : string)
| Disconnect (peerId : string).

Record VoicePeerManager := {
  options : Options;
  candidateIds : list string;
  peerStates : gmap string PeerState;
  connectedPeers : list string;
  localPosition : option Vector3;
  peerPositions : gmap string Vector3;
  evaluateTimer : bool;
  disposed : bool;
}.

Definition distanceBetween `{Platform} (a b : Vector3) : Q :=
  let dx := (x a - x b)%Q in
  let dy := (y a - y b)%Q in
  let dz := (z a - z b)%Q in
  Math_sqrt (dx * dx + dy * dy + dz * dz)%Q.

(** [constructor]: [{ ...DEFAULT_OPTIONS, ...options }] *)
Definition new (o : VoicePeerManagerOptions) : VoicePeerManager :=
  {| options :=
       {| connectRadius := opt_connectRadius o;
          disconnectRadiusMultiplier :=
            default (disconnectRadiusMultiplier DEFAULT_OPTIONS)
                    (opt_disconnectRadiusMultiplier o);
          maxPeers := default (maxPeers DEFAULT_OPTIONS) (opt_maxPeers o);
          evaluationDebounceMs :=
            default (evaluationDebounceMs DEFAULT_OPTIONS)
                    (opt_evaluationDebounceMs o) |};
     candidateIds := [];
     peerStates := ∅;
     connectedPeers := [];
     localPosition := None;
     peerPositions := ∅;
     evaluateTimer := false;
     disposed := false |}.

Definition set_candidateIds (c : list string) (m : VoicePeerManager) :=
  {| options := options m; candidateIds := c; peerStates := peerStates m;
     connectedPeers := connectedPeers m; localPosition := localPosition m;
     peerPositions := peerPositions m; evaluateTimer := evaluateTimer m;
     disposed := disposed m |}.

Definition set_peerStates (s : gmap string PeerState) (m : VoicePeerManager) :=
  {| options := options m; candidateIds := candidateIds m; peerStates := s;
     connectedPeers := connectedPeers m; localPosition := localPosition m;
     peerPositions := peerPositions m; evaluateTimer := evaluateTimer m;
     disposed := disposed m |}.

Definition set_connectedPeers (c : list string) (m : VoicePeerManager) :=
  {| options := options m; candidateIds := candidateIds m;
     peerStates := peerStates m; connectedPeers := c;
     localPosition := localPosition m; peerPositions := peerPositions m;
     evaluateTimer := evaluateTimer m; disposed := disposed m |}.

Definition set_localPosition (p : option Vector3) (m : VoicePeerManager) :=
  {| options := options m; candidateIds := candidateIds m;
     peerStates := peerStates m; connectedPeers := connectedPeers m;
     localPosition := p; peerPositions := peerPositions m;
     evaluateTimer := evaluateTimer m; disposed := disposed m |}.

Definition set_peerPositions (p : gmap string Vector3) (m : VoicePeerManager) :=
  {| options := options m; candidateIds := candidateIds m;
     peerStates := peerStates m; connectedPeers := connectedPeers m;
     localPosition := localPosition m; peerPositions := p;
     evaluateTimer := evaluateTimer m; disposed := disposed m |}.

Definition set_evaluateTimer (t : bool) (m : VoicePeerManager) :=
  {| options := options m; candidateIds := candidateIds m;
     peerStates := peerStates m; connectedPeers := connectedPeers m;
     localPosition := localPosition m; peerPositions := peerPositions m;
     evaluateTimer := t; disposed := disposed m |}.

(** [dispose]: the timer is cleared; the listener sets are cleared too, so
    nothing emitted afterwards is observed. *)
Definition dispose (m : VoicePeerManager) : VoicePeerManager :=
  {| options := options m; candidateIds := candidateIds m;
     peerStates := peerStates m; connectedPeers := connectedPeers m;
     localPosition := localPosition m; peerPositions := peerPositions m;
     evaluateTimer := false; disposed := true |}.

Definition getActivePeers (m : VoicePeerManager) : list string := connectedPeers m.

Definition hasPeer (peerId : string) (m : VoicePeerManager) : bool :=
  JsSet.has peerId (connectedPeers m).

Definition getPeerDistance (peerId : string) (m : VoicePeerManager) : option number :=
  distance <$> peerStates m !! peerId.

Definition getPeerPosition (peerId : string) (m : VoicePeerManager)
    : option Vector3 :=
  peerPositions m !! peerId.

Definition setDistance (now : Z) (peerId : string) (d : number) (explicit : bool)
    (m : VoicePeerManager) : VoicePeerManager :=
  set_peerStates
    (<[peerId := {| id := match peerStates m !! peerId with
                          | Some existing => id existing
                          | None => peerId
                          end;
                    distance := d;
                    lastUpdated := now;
                    hasExplicitDistance := explicit |}]> (peerStates m)) m.

Definition scheduleEvaluate (m : VoicePeerManager) : VoicePeerManager :=
  if disposed m then m
  else if evaluateTimer m then m
  else set_evaluateTimer true m.

Definition updateLocalPosition `{Platform} (now : Z) (position : Vector3)
    (m : VoicePeerManager) : VoicePeerManager :=
  let m1 := set_localPosition (Some position) m in
  let m2 :=
    map_fold (λ peerId remotePosition acc,
                setDistance now peerId
                  (Finite (distanceBetween position remotePosition)) false acc)
             m1 (peerPositions m1) in
  scheduleEvaluate m2.

Definition updatePeerPosition `{Platform} (now : Z) (peerId : string)
    (position : option Vector3) (m : VoicePeerManager) : VoicePeerManager :=
  match position with
  | None =>
      let m1 := set_peerPositions (delete peerId (peerPositions m)) m in
      let m2 :=
        match peerStates m1 !! peerId with
        | Some _ => setDistance now peerId PositiveInfinity false m1
        | None => m1
        end in
      scheduleEvaluate m2
  | Some p =>
      let m1 := set_peerPositions (<[peerId := p]> (peerPositions m)) m in
      let m2 :=
        match localPosition m1 with
        | Some l => setDistance now peerId (Finite (distanceBetween l p)) false m1
        | None => setDistance now peerId PositiveInfinity false m1
        end in
      scheduleEvaluate m2
  end.

Definition updatePeerDistance (now : Z) (peerId : string) (d : option number)
    (m : VoicePeerManager) : VoicePeerManager :=
  let normalized := default PositiveInfinity d in
  scheduleEvaluate (setDistance now peerId normalized true m).

Definition applyPeerDiff `{Platform} (now : Z) (diff : PeerDiffMessage)
    (m : VoicePeerManager) : VoicePeerManager :=
  let m1 :=
    match peers diff with
    | Some ps =>
        let kept := filter (λ peerId, peerId ∈ ps) (candidateIds m) in
        set_candidateIds (fold_left (λ acc peerId, JsSet.add peerId acc) ps kept) m
    | None =>
        let c1 := fold_left (λ acc peerId, JsSet.add peerId acc)
                            (default [] (added diff)) (candidateIds m) in
        let c2 := fold_left (λ acc peerId, JsSet.delete peerId acc)
                            (default [] (removed diff)) c1 in
        set_candidateIds c2 m
    end in
  let m2 := fold_left (λ acc '(peerId, d), updatePeerDistance now peerId d acc)
                      (default [] (distances diff)) m1 in
  let m3 := fold_left (λ acc '(peerId, p), updatePeerPosition now peerId (Some p) acc)
                      (default [] (positions diff)) m2 in
  let m4 := fold_left (λ acc peerId, updatePeerPosition now peerId None acc)
                      (default [] (removed diff)) m3 in
  scheduleEvaluate m4.

Definition removePeer (peerId : string) (m : VoicePeerManager)
    : VoicePeerManager * list Event :=
  let m1 :=
    {| options := options m;
       candidateIds := JsSet.delete peerId (candidateIds m);
       peerStates := delete peerId (peerStates m);
       connectedPeers := connectedPeers m;
       localPosition := localPosition m;
       peerPositions := delete peerId (peerPositions m);
       evaluateTimer := evaluateTimer m;
       disposed := disposed m |} in
  if JsSet.has peerId (connectedPeers m1)
  then (set_connectedPeers (JsSet.delete peerId (connectedPeers m1)) m1,
        [Disconnect peerId])
  else (m1, []).

(** [candidates.sort((a, b) => a.distance - b.distance)]: the sort is stable,
    so an element goes behind those that are not farther. *)
Fixpoint sort_insert (s : PeerState) (sorted : list PeerState) : list PeerState :=
  match sorted with
  | [] => [s]
  | t :: rest =>
      if number_le (distance t) (distance s)
      then t :: sort_insert s rest
      else s :: t :: rest
  end.

Definition sort_by_distance (l : list PeerState) : list PeerState :=
  fold_left (λ acc s, sort_insert s acc) l [].

(** The first loop of [evaluate]: who stays and who goes. *)
Definition classify (m : VoicePeerManager) (disconnectThreshold : Q)
    : list string * list string :=
  fold_left
    (λ '(keepConnected, toDisconnect) peerId,
       if negb (JsSet.has peerId (candidateIds m))
       then (keepConnected, toDisconnect ++ [peerId])
       else
         let d := default PositiveInfinity (distance <$> peerStates m !! peerId) in
         if number_le d (Finite disconnectThreshold)
         then (JsSet.add peerId keepConnected, toDisconnect)
         else (keepConnected, toDisconnect ++ [peerId]))
    (connectedPeers m) ([], []).

(** The second loop: drop and announce. *)
Definition drop_all (toDisconnect : list string) (connected : list string)
    : list string * list Event :=
  fold_left
    (λ '(connected, events) peerId,
       if JsSet.has peerId connected
       then (JsSet.delete peerId connected, events ++ [Disconnect peerId])
       else (connected, events))
    toDisconnect (connected, []).

(** The third loop: the admissible candidates, in candidate order. *)
Definition collect (m : VoicePeerManager) (connectThreshold : Q)
    (keepConnected connected : list string) : list PeerState :=
  fold_left
    (λ candidates peerId,
       if JsSet.has peerId keepConnected || JsSet.has peerId connected
       then candidates
       else match peerStates m !! peerId with
            | None => candidates
            | Some state =>
                if number_gt (distance state) (Finite connectThreshold)
                then candidates
                else candidates ++ [state]
            end)
    (candidateIds m) [].

(** The indices the fourth loop visits, [for (let i = 0; i < bound; i += 1)],
    and the [candidates[i]] it finds there; [bound] is at most the number of
    candidates. *)
Fixpoint below {A} (bound : Q) (i : nat) (candidates : list A) : list A :=
  match candidates with
  | [] => []
  | s :: rest =>
      if Qlt_bool (inject_Z (Z.of_nat i)) bound
      then s :: below bound (S i) rest
      else []
  end.

(** The body of the fourth loop: connect and announce. *)
Definition connect_chosen (chosen : list PeerState) (connected : list string)
    : list string * list Event :=
  fold_left
    (λ '(connected, events) state,
       (JsSet.add (id state) connected, events ++ [Connect (id state)]))
    chosen (connected, []).

Definition stale (now : Z) (m : VoicePeerManager) (peerId : string) : bool :=
  match peerStates m !! peerId with
  | Some state =>
      bool_decide (60000 < now - lastUpdated state)
      && negb (JsSet.has peerId (candidateIds m))
  | None => false
  end.

Definition evaluate (now : Z) (m : VoicePeerManager)
    : VoicePeerManager * list Event :=
  if disposed m then (m, [])
  else
    let connectThreshold := connectRadius (options m) in
    let disconnectThreshold :=
      (connectThreshold * disconnectRadiusMultiplier (options m))%Q in
    let '(keepConnected, toDisconnect) := classify m disconnectThreshold in
    let '(connected1, events1) := drop_all toDisconnect (connectedPeers m) in
    let remainingSlots :=
      Qmax (maxPeers (options m) - inject_Z (Z.of_nat (length keepConnected))) 0 in
    if Qeq_bool remainingSlots 0
    then (set_connectedPeers connected1 m, events1)
    else
      let candidates :=
        sort_by_distance (collect m connectThreshold keepConnected connected1) in
      let chosen :=
        below (Qmin remainingSlots (inject_Z (Z.of_nat (length candidates))))
              0 candidates in
      let '(connected2, events2) := connect_chosen chosen connected1 in
      let m1 := set_connectedPeers connected2 m in
      let m2 :=
        {| options := options m1; candidateIds := candidateIds m1;
           peerStates := filter (λ kv, ¬ stale now m1 kv.1) (peerStates m1);
           connectedPeers := connectedPeers m1;
           localPosition := localPosition m1;
           peerPositions := filter (λ kv, ¬ stale now m1 kv.1) (peerPositions m1);
           evaluateTimer := evaluateTimer m1; disposed := disposed m1 |} in
      (m2, events1 ++ events2).

(** The public operations and the firing of the debounce timer. *)
Inductive Op :=
| UpdateLocalPosition (position : Vector3)
| UpdatePeerPosition (peerId : string) (position : option Vector3)
| UpdatePeerDistance (peerId : string) (d : option number)
| ApplyPeerDiff (diff : PeerDiffMessage)
| RemovePeer (peerId : string)
| TimerFires.

(** The timer's callback clears the handle and evaluates; it only exists
    while the timer is armed. *)
Definition timerFires (now : Z) (m : VoicePeerManager)
    : VoicePeerManager * list Event :=
  if evaluateTimer m then evaluate now (set_evaluateTimer false m) else (m, []).

Definition step `{Platform} (now : Z) (op : Op) (m : VoicePeerManager)
    : VoicePeerManager * list Event :=
  match op with
  | UpdateLocalPosition p => (updateLocalPosition now p m, [])
  | UpdatePeerPosition peerId p => (updatePeerPosition now peerId p m, [])
  | UpdatePeerDistance peerId d => (updatePeerDistance now peerId d m, [])
  | ApplyPeerDiff diff => (applyPeerDiff now diff m, [])
  | RemovePeer peerId => removePeer peerId m
  | TimerFires => timerFires now m
  end.

Fixpoint run `{Platform} (ops : list (Z * Op)) (m : VoicePeerManager)
    : VoicePeerManager * list Event :=
  match ops with
  | [] => (m, [])
  | (now, op) :: rest =>
      let '(m1, e1) := step now op m in
      let '(m2, e2) := run rest m1 in
      (m2, e1 ++ e2)
  end.

End PeerManager.

(** ** The shard actor ([worldShard.ts]) *)

Module WorldShard.
Import Js.

Record PendingSession := {
  ps_playerId : string;
  ps_sessionToken : string;
  createdAt : Z;
}.

(** A socket is named by the connection id under which [handleSocket]
    created it. *)
Record PlayerConnection := {
  id : string;
  playerId : string;
  sessionToken : string;
  socket : string;
  lastSeen : Z;
  lastPositionAt : option Z;
  position : option json;
}.

Record AnonymousConnection := {
  anon_id : string;
  anon_socket : string;
  anon_lastSeen : Z;
}.

Definition SESSION_TTL_MS : Z := 60000.
Definition HEARTBEAT_TIMEOUT_MS : Z := 30000.
Definition POSITION_UPDATE_MIN_INTERVAL_MS : Z := 100.
Definition PROXIMITY_RADIUS_METERS : Q := 45.
Definition PROXIMITY_DEBOUNCE_MS : Z := 50.
Definition DISTANCE_CHANGE_EPSILON : Q := 1 # 2.

(** A frame written to a socket, before [JSON.stringify]. *)
Inductive Frame :=
| ErrorFrame (message : string)
| RegisteredFrame (playerId : string)
| SignalDeliveryFailedFrame (targetId : option json)
| SignalFrame (from : string) (payload : option json)
| PeersFrame (peers : list string) (added removed : option (list string))
    (distances : option (list (string * Q)))
    (positions : option (list (string * json))) (totalPlayers : nat).

(** What the shard does to the outside. *)
Inductive Output :=
| Send (socket : string) (frame : Frame)
| Close (socket : string) (code : Z) (reason : string)
| Response (status : Z).

Record State := {
  pendingSessionsByToken : gmap string PendingSession;
  pendingSessionsByPlayer : gmap string string;
  connectionsByPlayer : list (string * PlayerConnection);
  anonymousConnections : gmap string AnonymousConnection;
  peerViewByPlayer : gmap string (list string);
  peerDistancesByPlayer : gmap string (gmap string Q);
  proximityTimer : bool;
  cleanupTimer : bool;
}.

Definition initial : State :=
  {| pendingSessionsByToken := ∅; pendingSessionsByPlayer := ∅;
     connectionsByPlayer := []; anonymousConnections := ∅;
     peerViewByPlayer := ∅; peerDistancesByPlayer := ∅;
     proximityTimer := false; cleanupTimer := false |}.

Definition set_pending (byToken : gmap string PendingSession)
    (byPlayer : gmap string string) (s : State) : State :=
  {| pendingSessionsByToken := byToken; pendingSessionsByPlayer := byPlayer;
     connectionsByPlayer := connectionsByPlayer s;
     anonymousConnections := anonymousConnections s;
     peerViewByPlayer := peerViewByPlayer s;
     peerDistancesByPlayer := peerDistancesByPlayer s;
     proximityTimer := proximityTimer s; cleanupTimer := cleanupTimer s |}.

Definition set_connectionsByPlayer (c : list (string * PlayerConnection))
    (s : State) : State :=
  {| pendingSessionsByToken := pendingSessionsByToken s;
     pendingSessionsByPlayer := pendingSessionsByPlayer s;
     connectionsByPlayer := c;
     anonymousConnections := anonymousConnections s;
     peerViewByPlayer := peerViewByPlayer s;
     peerDistancesByPlayer := peerDistancesByPlayer s;
     proximityTimer := proximityTimer s; cleanupTimer := cleanupTimer s |}.

Definition set_anonymousConnections (a : gmap string AnonymousConnection)
    (s : State) : State :=
  {| pendingSessionsByToken := pendingSessionsByToken s;
     pendingSessionsByPlayer := pendingSessionsByPlayer s;
     connectionsByPlayer := connectionsByPlayer s;
     anonymousConnections := a;
     peerViewByPlayer := peerViewByPlayer s;
     peerDistancesByPlayer := peerDistancesByPlayer s;
     proximityTimer := proximityTimer s; cleanupTimer := cleanupTimer s |}.

Definition set_views (v : gmap string (list string))
    (d : gmap string (gmap string Q)) (s : State) : State :=
  {| pendingSessionsByToken := pendingSessionsByToken s;
     pendingSessionsByPlayer := pendingSessionsByPlayer s;
     connectionsByPlayer := connectionsByPlayer s;
     anonymousConnections := anonymousConnections s;
     peerViewByPlayer := v;
     peerDistancesByPlayer := d;
     proximityTimer := proximityTimer s; cleanupTimer := cleanupTimer s |}.

Definition set_proximityTimer (t : bool) (s : State) : State :=
  {| pendingSessionsByToken := pendingSessionsByToken s;
     pendingSessionsByPlayer := pendingSessionsByPlayer s;
     connectionsByPlayer := connectionsByPlayer s;
     anonymousConnections := anonymousConnections s;
     peerViewByPlayer := peerViewByPlayer s;
     peerDistancesByPlayer := peerDistancesByPlayer s;
     proximityTimer := t; cleanupTimer := cleanupTimer s |}.

Definition set_cleanupTimer (t : bool) (s : State) : State :=
  {| pendingSessionsByToken := pendingSessionsByToken s;
     pendingSessionsByPlayer := pendingSessionsByPlayer s;
     connectionsByPlayer := connectionsByPlayer s;
     anonymousConnections := anonymousConnections s;
     peerViewByPlayer := peerViewByPlayer s;
     peerDistancesByPlayer := peerDistancesByPlayer s;
     proximityTimer := proximityTimer s; cleanupTimer := t |}.

(** [a.x - b.x] and the like, on whatever the two values are. *)
Definition coordinate_difference `{Platform} (a b : json) (axis : string)
    : option Q :=
  match ToNumber (prop (Some a) axis), ToNumber (prop (Some b) axis) with
  | Some p, Some q => Some (p - q)%Q
  | _, _ => None
  end.

(** [None] is [NaN]. *)
Definition distanceBetween `{Platform} (a b : json) : option Q :=
  match coordinate_difference a b "x", coordinate_difference a b "y",
        coordinate_difference a b "z" with
  | Some dx, Some dy, Some dz => Some (Math_sqrt (dx * dx + dy * dy + dz * dz)%Q)
  | _, _, _ => None
  end.

(** [decodeSocketMessage], applied to the outcome of [JSON.parse(raw)]
    ([None] when it throws). The result is the parsed object itself: the
    cast to [IncomingSocketMessage] checks nothing. *)
Definition decodeSocketMessage (parsed : option json) : option json :=
  match parsed with
  | None => None
  | Some v =>
      if negb (is_object parsed) then None
      else match as_string (prop parsed "type") with
           | None => None
           | Some _ => Some v
           end
  end.

Definition lookupConnection (connectionId : string) (s : State)
    : option PlayerConnection :=
  List.find (λ c, String.eqb (id c) connectionId)
            (JsMap.values (connectionsByPlayer s)).

(** An assignment to a field of the object [lookupConnection] returns. *)
Fixpoint mutate (connectionId : string) (f : PlayerConnection → PlayerConnection)
    (m : list (string * PlayerConnection)) : list (string * PlayerConnection) :=
  match m with
  | [] => []
  | (k, c) :: rest =>
      if String.eqb (id c) connectionId then (k, f c) :: rest
      else (k, c) :: mutate connectionId f rest
  end.

Definition scheduleCleanup (s : State) : State :=
  if cleanupTimer s then s else set_cleanupTimer true s.

Definition scheduleProximityRecalc (s : State) : State :=
  if proximityTimer s then s else set_proximityTimer true s.

Definition sendToConnection (connectionId : string) (payload : Frame) (s : State)
    : list Output :=
  match anonymousConnections s !! connectionId with
  | Some anon => [Send (anon_socket anon) payload]
  | None =>
      match lookupConnection connectionId s with
      | None => []
      | Some connection => [Send (socket connection) payload]
      end
  end.

Definition pruneExpiredSessions (now : Z) (s : State) : State :=
  let threshold := now - SESSION_TTL_MS in
  let '(byToken, byPlayer) :=
    map_fold
      (λ token session '(byToken, byPlayer),
         if bool_decide (createdAt session < threshold)
         then (delete token byToken,
               if bool_decide (byPlayer !! ps_playerId session = Some token)
               then delete (ps_playerId session) byPlayer
               else byPlayer)
         else (byToken, byPlayer))
      (pendingSessionsByToken s, pendingSessionsByPlayer s)
      (pendingSessionsByToken s) in
  set_pending byToken byPlayer s.

(** [handlePrepare], applied to the outcome of [request.json()]. *)
Definition handlePrepare (now : Z) (body : option json) (s : State)
    : State * list Output :=
  match body with
  | None => (s, [Response 400])
  | Some _ =>
      match is_object body, as_string (prop body "playerId"),
            as_string (prop body "sessionToken") with
      | true, Some player, Some token =>
          let s1 := pruneExpiredSessions now s in
          let '(byToken, byPlayer) :=
            match pendingSessionsByPlayer s1 !! player with
            | Some existingToken =>
                if negb (String.eqb existingToken "")
                then (delete existingToken (pendingSessionsByToken s1),
                      delete player (pendingSessionsByPlayer s1))
                else (pendingSessionsByToken s1, pendingSessionsByPlayer s1)
            | None => (pendingSessionsByToken s1, pendingSessionsByPlayer s1)
            end in
          (set_pending
             (<[token := {| ps_playerId := player; ps_sessionToken := token;
                            createdAt := now |}]> byToken)
             (<[player := token]> byPlayer) s1,
           [Response 200])
      | _, _, _ => (s, [Response 400])
      end
  end.

(** [handleSocket]: [connectionId] is the value of [uuid()]. The upgrade
    itself is answered 101. *)
Definition handleSocket (now : Z) (connectionId : string) (s : State)
    : State * list Output :=
  (set_anonymousConnections
     (<[connectionId := {| anon_id := connectionId; anon_socket := connectionId;
                           anon_lastSeen := now |}]> (anonymousConnections s)) s,
   [Response 101]).

Definition handleRegister (now : Z) (connectionId : string) (message : json)
    (s : State) : State * list Output :=
  match anonymousConnections s !! connectionId with
  | None =>
      (s, sendToConnection connectionId (ErrorFrame "Connection not found") s)
  | Some connection =>
      let expectedToken :=
        as_string (prop (Some message) "sessionToken")
          ≫= λ token, pendingSessionsByToken s !! token in
      let accepted :=
        match expectedToken, as_string (prop (Some message) "playerId"),
              as_string (prop (Some message) "sessionToken") with
        | Some expected, Some player, Some token =>
            if String.eqb (ps_playerId expected) player
            then Some (player, token) else None
        | _, _, _ => None
        end in
      match accepted with
      | None =>
          (set_anonymousConnections
             (delete connectionId (anonymousConnections s)) s,
           [Send (anon_socket connection) (ErrorFrame "Invalid session token");
            Close (anon_socket connection) 4001 "Invalid session token"])
      | Some (player, token) =>
          let s1 :=
            set_pending (delete token (pendingSessionsByToken s))
                        (delete player (pendingSessionsByPlayer s)) s in
          let registeredConnection :=
            {| id := connectionId; playerId := player; sessionToken := token;
               socket := anon_socket connection; lastSeen := now;
               lastPositionAt := None; position := None |} in
          let s2 :=
            set_anonymousConnections
              (delete connectionId (anonymousConnections s1)) s1 in
          let s3 :=
            set_connectionsByPlayer
              (JsMap.set player registeredConnection (connectionsByPlayer s2))
              s2 in
          (scheduleProximityRecalc (scheduleCleanup s3),
           [Send (socket registeredConnection) (RegisteredFrame player)])
      end
  end.

Definition handleHeartbeat (now : Z) (connectionId : string) (s : State)
    : State * list Output :=
  match lookupConnection connectionId s with
  | None => (s, [])
  | Some _ =>
      (set_connectionsByPlayer
         (mutate connectionId
            (λ c, {| id := id c; playerId := playerId c;
                     sessionToken := sessionToken c; socket := socket c;
                     lastSeen := now; lastPositionAt := lastPositionAt c;
                     position := position c |})
            (connectionsByPlayer s)) s,
       [])
  end.

(** The [positionsLogged] counter only steers logging and is left out. *)
Definition handlePosition (now : Z) (connectionId : string) (message : json)
    (s : State) : State * list Output :=
  match lookupConnection connectionId s with
  | None => (s, [])
  | Some connection =>
      let limited :=
        match lastPositionAt connection with
        | Some at_ =>
            negb (at_ =? 0)
            && bool_decide (now - at_ < POSITION_UPDATE_MIN_INTERVAL_MS)
        | None => false
        end in
      if limited
      then
        (set_connectionsByPlayer
           (mutate connectionId
              (λ c, {| id := id c; playerId := playerId c;
                       sessionToken := sessionToken c; socket := socket c;
                       lastSeen := now; lastPositionAt := lastPositionAt c;
                       position := position c |})
              (connectionsByPlayer s)) s,
         [])
      else
        (scheduleProximityRecalc
           (set_connectionsByPlayer
              (mutate connectionId
                 (λ c, {| id := id c; playerId := playerId c;
                          sessionToken := sessionToken c; socket := socket c;
                          lastSeen := now; lastPositionAt := Some now;
                          position := prop (Some message) "position" |})
                 (connectionsByPlayer s)) s),
         [])
  end.

Definition handleSignalRelay (connectionId : string) (message : json) (s : State)
    : State * list Output :=
  match lookupConnection connectionId s with
  | None => (s, [])
  | Some source =>
      let target :=
        as_string (prop (Some message) "targetId")
          ≫= λ targetId, JsMap.get targetId (connectionsByPlayer s) in
      match target with
      | None =>
          (s, [Send (socket source)
                    (SignalDeliveryFailedFrame (prop (Some message) "targetId"))])
      | Some target =>
          (s, [Send (socket target)
                    (SignalFrame (playerId source)
                                 (prop (Some message) "payload"))])
      end
  end.

Definition handleDisconnect (connectionId : string) (s : State)
    : State * list Output :=
  match anonymousConnections s !! connectionId with
  | Some _ =>
      (set_anonymousConnections
         (delete connectionId (anonymousConnections s)) s, [])
  | None =>
      match List.find (λ '(_, c), String.eqb (id c) connectionId)
                      (connectionsByPlayer s) with
      | None => (s, [])
      | Some (player, connection) =>
          let s1 :=
            set_connectionsByPlayer
              (JsMap.delete player (connectionsByPlayer s)) s in
          let s2 :=
            set_views (delete player (peerViewByPlayer s1))
                      (delete player (peerDistancesByPlayer s1)) s1 in
          (scheduleProximityRecalc s2,
           [Close (socket connection) 1001 "Connection closed"])
      end
  end.

Definition handleSocketMessage (now : Z) (connectionId : string) (message : json)
    (s : State) : State * list Output :=
  let type := as_string (prop (Some message) "type") in
  if bool_decide (type = Some "register")
  then handleRegister now connectionId message s
  else if bool_decide (type = Some "heartbeat")
  then handleHeartbeat now connectionId s
  else if bool_decide (type = Some "position")
  then handlePosition now connectionId message s
  else if bool_decide (type = Some "signal")
  then handleSignalRelay connectionId message s
  else (s, sendToConnection connectionId (ErrorFrame "Unknown message type") s).

(** [event.data] of a message event: not a string, or a string given by the
    outcome of [JSON.parse] on it ([None] when it throws). *)
Inductive Data :=
| Binary
| Text (parsed : option json).

(** The message listener installed by [handleSocket]. *)
Definition onMessage (now : Z) (connectionId : string) (data : Data) (s : State)
    : State * list Output :=
  match data with
  | Binary =>
      (s, [Send connectionId (ErrorFrame "Messages must be JSON string")])
  | Text parsed =>
      match decodeSocketMessage parsed with
      | None => (s, [Send connectionId (ErrorFrame "Invalid message format")])
      | Some message => handleSocketMessage now connectionId message s
      end
  end.

Definition pruneInactiveConnections (now : Z) (s : State) : State * list Output :=
  let threshold := now - HEARTBEAT_TIMEOUT_MS in
  fold_left
    (λ '(acc, out) connection,
       if bool_decide (lastSeen connection < threshold)
       then let '(acc1, out1) := handleDisconnect (id connection) acc in
            (acc1, out ++ out1)
       else (acc, out))
    (JsMap.values (connectionsByPlayer s)) (s, []).

(** The callback armed by [scheduleCleanup]. *)
Definition cleanupTimerFires (now : Z) (s : State) : State * list Output :=
  if cleanupTimer s
  then
    let '(s1, out) := pruneInactiveConnections now (set_cleanupTimer false s) in
    (if (0 <? length (connectionsByPlayer s1))%nat then scheduleCleanup s1 else s1,
     out)
  else (s, []).

Definition publishPeerDiff (player : string) (nextPeers : list string)
    (distances : list (string * Q)) (positions : list (string * json))
    (s : State) : State * list Output :=
  match JsMap.get player (connectionsByPlayer s) with
  | None => (s, [])
  | Some connection =>
      let previousPeers := default [] (peerViewByPlayer s !! player) in
      let previousDistances := default ∅ (peerDistancesByPlayer s !! player) in
      let added :=
        filter (λ peer, JsSet.has peer previousPeers = false) nextPeers in
      let removed :=
        filter (λ peer, JsSet.has peer nextPeers = false) previousPeers in
      let '(distanceChanged, nextDistanceMap) :=
        fold_left
          (λ '(changed, next) '(peerId, distance),
             (match previousDistances !! peerId with
              | None => true
              | Some prev =>
                  if negb (Qle_bool (Qabs (prev - distance)) DISTANCE_CHANGE_EPSILON)
                  then true else changed
              end,
              <[peerId := distance]> next))
          distances (false, (∅ : gmap string Q)) in
      if (length added =? 0)%nat && (length removed =? 0)%nat
         && negb distanceChanged
      then (s, [])
      else
        (set_views (<[player := nextPeers]> (peerViewByPlayer s))
                   (<[player := nextDistanceMap]> (peerDistancesByPlayer s)) s,
         [Send (socket connection)
               (PeersFrame nextPeers
                  (if (0 <? length added)%nat then Some added else None)
                  (if (0 <? length removed)%nat then Some removed else None)
                  (if (0 <? length distances)%nat then Some distances else None)
                  (if (0 <? length positions)%nat then Some positions else None)
                  (length (connectionsByPlayer s)))])
  end.

(** The inner loop of [recalculateProximities]: the peers of one player,
    with their distances and positions. *)
Definition neighbours `{Platform} (players : list PlayerConnection)
    (player : PlayerConnection)
    : list string * list (string * Q) * list (string * json) :=
  match position player with
  | Some here =>
      if truthy (position player)
      then
        fold_left
          (λ '(peers, distances, positions) other,
             if String.eqb (playerId other) (playerId player)
                || negb (truthy (position other))
             then (peers, distances, positions)
             else
               match position other with
               | None => (peers, distances, positions)
               | Some there =>
                   match distanceBetween here there with
                   | Some distance =>
                       if Qle_bool distance PROXIMITY_RADIUS_METERS
                       then (JsSet.add (playerId other) peers,
                             assign (playerId other) distance distances,
                             assign (playerId other) there positions)
                       else (peers, distances, positions)
                   | None => (peers, distances, positions)
                   end
               end)
          players ([], [], [])
      else ([], [], [])
  | None => ([], [], [])
  end.

Definition recalculateProximities `{Platform} (s : State) : State * list Output :=
  let players := JsMap.values (connectionsByPlayer s) in
  fold_left
    (λ '(acc, out) player,
       let '(peers, distances, positions) := neighbours players player in
       let '(acc1, out1) :=
         publishPeerDiff (playerId player) peers distances positions acc in
       (acc1, out ++ out1))
    players (s, []).

(** The callback armed by [scheduleProximityRecalc]. *)
Definition proximityTimerFires `{Platform} (s : State) : State * list Output :=
  if proximityTimer s
  then recalculateProximities (set_proximityTimer false s)
  else (s, []).

(** What can happen to a shard. *)
Inductive Input :=
| Prepare (body : option json)
| Socket (connectionId : string)
| Message (connectionId : string) (data : Data)
| SocketClosed (connectionId : string)
| ProximityTimer
| CleanupTimer.

Definition step `{Platform} (now : Z) (input : Input) (s : State)
    : State * list Output :=
  match input with
  | Prepare body => handlePrepare now body s
  | Socket connectionId => handleSocket now connectionId s
  | Message connectionId data => onMessage now connectionId data s
  | SocketClosed connectionId => handleDisconnect connectionId s
  | ProximityTimer => proximityTimerFires s
  | CleanupTimer => cleanupTimerFires now s
  end.

Fixpoint run `{Platform} (inputs : list (Z * Input)) (s : State)
    : State * list Output :=
  match inputs with
  | [] => (s, [])
  | (now, input) :: rest =>
      let '(s1, out1) := step now input s in
      let '(s2, out2) := run rest s1 in
      (s2, out1 ++ out2)
  end.

End WorldShard.

(** ** Relay servers and admission ([config.ts], [turn.ts], [index.ts]) *)

Module Relay.
Import Js.

Definition code (c : Ascii.ascii) : nat := Ascii.nat_of_ascii c.

(** Whether [s.trim()] is empty: every character of [s] is white space or a
    line terminator, that is one of U+0009 to U+000D, U+0020, U+00A0,
    U+1680, U+2000 to U+200A, U+2028, U+2029, U+202F, U+205F, U+3000 and
    U+FEFF, read here in UTF-8. *)
Fixpoint blank (s : string) : bool :=
  match s with
  | EmptyString => true
  | String c rest =>
      let n := code c in
      if ((n =? 32) || ((9 <=? n) && (n <=? 13)))%nat then blank rest
      else
        match rest with
        | String c1 rest1 =>
            if ((n =? 194) && (code c1 =? 160))%nat then blank rest1
            else
              match rest1 with
              | String c2 rest2 =>
                  let n1 := code c1 in
                  let n2 := code c2 in
                  (((n =? 225) && (n1 =? 154) && (n2 =? 128))
                   || ((n =? 226) && (n1 =? 128)
                       && (((128 <=? n2) && (n2 <=? 138))
                           || (n2 =? 168) || (n2 =? 169) || (n2 =? 175)))
                   || ((n =? 226) && (n1 =? 129) && (n2 =? 159))
                   || ((n =? 227) && (n1 =? 128) && (n2 =? 128))
                   || ((n =? 239) && (n1 =? 187) && (n2 =? 191)))%nat
                  && blank rest2
              | EmptyString => false
              end
        | EmptyString => false
        end
  end.

(** The environment. A variable that is fed to a parser is held together
    with what the parser makes of it: [ICE_SERVERS_JSON] with the outcome of
    [JSON.parse] ([None] when it throws), [TURN_CACHE_TTL_SECONDS] with the
    integer [Number.parseInt] reads off it ([None] when it reads none and
    returns [NaN]). *)
Record VoiceChatEnv := {
  ICE_SERVERS_JSON : option (string * option json);
  TURN_TOKEN_ID : option string;
  TURN_API_TOKEN : option string;
  TURN_CACHE_TTL_SECONDS : option (string * option Z);
}.

(** An [IceServer] is the JSON value that passed [isIceServerLike]. *)
Definition DEFAULT_ICE_SERVERS : list json :=
  [JObj [("urls",
          JArr [JStr "stun:stun.cloudflare.com:3478";
                JStr "stun:stun.l.google.com:19302"])]].

Definition is_string (v : json) : bool :=
  match v with
  | JStr _ => true
  | _ => false
  end.

(** [v != null && typeof v !== "string"] *)
Definition present_not_string (v : option json) : bool :=
  match v with
  | None | Some JNull | Some (JStr _) => false
  | _ => true
  end.

Definition isIceServerLike (value : json) : bool :=
  if negb (is_object (Some value)) then false
  else
    let urlsValid :=
      match prop (Some value) "urls" with
      | Some (JStr _) => true
      | Some (JArr entries) => forallb is_string entries
      | _ => false
      end in
    if negb urlsValid then false
    else if present_not_string (prop (Some value) "username") then false
    else if present_not_string (prop (Some value) "credential") then false
    else true.

Definition getIceServers (env : VoiceChatEnv) : list json :=
  match ICE_SERVERS_JSON env with
  | Some (raw, Some (JArr parsed)) =>
      if negb (blank raw)
      then
        let validated := List.filter isIceServerLike parsed in
        if (0 <? length validated)%nat then validated else DEFAULT_ICE_SERVERS
      else DEFAULT_ICE_SERVERS
  | _ => DEFAULT_ICE_SERVERS
  end.

Definition DEFAULT_TURN_CACHE_MS : Q := 60000.
Definition MIN_TTL_MS : Q := 5000.
Definition MAX_TTL_MS : Q := 3600000.

(** [ms] is [None] when it is [NaN] or not finite. *)
Definition clampTtl (ms : option Q) : Q :=
  match ms with
  | None => DEFAULT_TURN_CACHE_MS
  | Some ms => Qmin (Qmax ms MIN_TTL_MS) MAX_TTL_MS
  end.

(** The body of the credentials response; [expiresAt] is held with the
    outcome of [Date.parse] ([None] for [NaN]). *)
Record TurnCredentialsResponse := {
  iceServers : option json;
  ttl : option Q;
  expiresAt : option (string * option Z);
}.

Definition positive (q : Q) : bool := Qnonzero q && negb (Qle_bool q 0).

(** [envTtlSeconds] is the integer [Number.parseInt] has read, which the
    call returns as a double, or as [Infinity] when it is too large for
    one. *)
Definition computeCacheMs (payload : TurnCredentialsResponse)
    (envTtlSeconds : option Z) (now : Z) : Q :=
  let byTtl :=
    match ttl payload with
    | Some t =>
        if positive t
        then Some (clampTtl (multiply (Some t) (Some 1000%Q)))
        else None
    | None => None
    end in
  let byExpiry :=
    match expiresAt payload with
    | Some (text, Some expiresAtMs) =>
        if negb (String.eqb text "")
        then Some (clampTtl
                     (subtract
                        (subtract (Some (inject_Z expiresAtMs))
                                  (Some (inject_Z now)))
                        (Some 5000%Q)))
        else None
    | _ => None
    end in
  let byEnv :=
    match envTtlSeconds with
    | Some e =>
        if 0 <? e
        then Some (clampTtl (multiply (to_double (inject_Z e)) (Some 1000%Q)))
        else None
    | None => None
    end in
  match byTtl, byExpiry, byEnv with
  | Some ms, _, _ => ms
  | None, Some ms, _ => ms
  | None, None, Some ms => ms
  | None, None, None => DEFAULT_TURN_CACHE_MS
  end.

(** The module-level [cached] variable. [expiresAt] is [now + cacheMs]: a
    time value plus an hour at most, which is finite. *)
Record Cache := {
  cached_iceServers : list json;
  cached_expiresAt : Q;
}.

(** How the POST to the credentials endpoint ends. *)
Inductive Fetched :=
| FetchThrows
| NotOk
| BodyNotJson
| Body (payload : TurnCredentialsResponse).

Definition resolveTurnIceServers (env : VoiceChatEnv) (now : Z)
    (cached : option Cache) (fetched : Fetched)
    : option (list json) * option Cache :=
  match TURN_TOKEN_ID env, TURN_API_TOKEN env with
  | Some tokenId, Some apiToken =>
      if blank tokenId || blank apiToken then (None, cached)
      else
        let unexpired :=
          match cached with
          | Some c =>
              if negb (Qle_bool (cached_expiresAt c) (inject_Z now))
              then Some (cached_iceServers c) else None
          | None => None
          end in
        match unexpired with
        | Some servers => (Some servers, cached)
        | None =>
            let ttlSeconds :=
              match TURN_CACHE_TTL_SECONDS env with
              | Some (text, parsed) =>
                  if negb (String.eqb text "") then parsed else None
              | None => None
              end in
            match fetched with
            | Body payload =>
                match iceServers payload with
                | Some (JArr entries) =>
                    let validated := List.filter isIceServerLike entries in
                    if (length validated =? 0)%nat then (None, cached)
                    else
                      let cacheMs := computeCacheMs payload ttlSeconds now in
                      (Some validated,
                       Some {| cached_iceServers := validated;
                               cached_expiresAt :=
                                 nearest (inject_Z now + cacheMs) |})
                | _ => (None, cached)
                end
            | _ => (None, cached)
            end
        end
  | _, _ => (None, cached)
  end.

(** A series of calls of [resolveTurnIceServers], threading the module-level
    [cached] variable: each call has its environment, its [Date.now()] and
    the outcome its request would have. *)
Fixpoint resolveAll (calls : list (VoiceChatEnv * Z * Fetched))
    (cached : option Cache) : list (option (list json)) * option Cache :=
  match calls with
  | [] => ([], cached)
  | (env, now, fetched) :: rest =>
      let '(result, cached1) := resolveTurnIceServers env now cached fetched in
      let '(results, cached2) := resolveAll rest cached1 in
      (result :: results, cached2)
  end.

Definition CELL_SIZE_METERS : Q := 64.

(** The three indices of [cell:<x>:<y>:<z>]. The quotient of a double by 64
    is a double again unless it falls below the normal range, where it is
    rounded; it never overflows. *)
Definition deriveCellId (position : Q * Q * Q) : Z * Z * Z :=
  let '(x, y, z) := position in
  (Qfloor (nearest (x / CELL_SIZE_METERS)),
   Qfloor (nearest (y / CELL_SIZE_METERS)),
   Qfloor (nearest (z / CELL_SIZE_METERS))).

Definition as_number (v : option json) : option Q :=
  match v with
  | Some (JNum q) => Some q
  | _ => None
  end.

(** [parseJoinRequest], applied to the outcome of [request.json()]; [None]
    stands for the thrown error. *)
Definition parseJoinRequest (body : option json) : option (string * (Q * Q * Q)) :=
  if negb (is_object body) then None
  else
    match as_string (prop body "playerId") with
    | None => None
    | Some player =>
        if blank player then None
        else
          let position := prop body "position" in
          if negb (is_object position) then None
          else
            match as_number (prop position "x"), as_number (prop position "y"),
                  as_number (prop position "z") with
            | Some x, Some y, Some z => Some (player, (x, y, z))
            | _, _, _ => None
            end
    end.

(** The response of [/join]; the socket URL and the transport mode are left
    out. *)
Record JoinWorldResponse := {
  cellId : Z * Z * Z;
  sessionToken : string;
  join_iceServers : list json;
}.

Inductive JoinResult :=
| Joined (response : JoinWorldResponse)
| Refused (status : Z).

(** [response.ok]: the status is in the range 200 to 299. *)
Definition ok (response : list WorldShard.Output) : bool :=
  match response with
  | [WorldShard.Response status] => (200 <=? status) && (status <? 300)
  | _ => false
  end.

(** [handleJoin]: [token] is the value of [uuid()], [shard] the state of the
    shard that owns the cell. *)
Definition handleJoin (now : Z) (token : string) (env : VoiceChatEnv)
    (body : option json) (shard : WorldShard.State)
    : WorldShard.State * JoinResult :=
  match parseJoinRequest body with
  | None => (shard, Refused 400)
  | Some (player, position) =>
      let cell := deriveCellId position in
      let '(shard1, prepareResponse) :=
        WorldShard.handlePrepare now
          (Some (JObj [("playerId", JStr player); ("sessionToken", JStr token)]))
          shard in
      if negb (ok prepareResponse) then (shard1, Refused 500)
      else
        (shard1,
         Joined {| cellId := cell; sessionToken := token;
                   join_iceServers := getIceServers env |})
  end.

End Relay.

(** ** The client's connection to a cell ([client/voiceChat/client.ts]) *)

Module Client.
Import Js.

(** The text of a frame the shard writes: [JSON.stringify] of the object
    literal at the call site, read back by [JSON.parse]. A property whose
    value is [undefined] is left out. *)
Definition optional (key : string) (value : option json) : list (string * json) :=
  match value with
  | Some v => [(key, v)]
  | None => []
  end.

Definition strings (l : list string) : json := JArr (JStr <$> l).

Definition encode (frame : WorldShard.Frame) : json :=
  match frame with
  | WorldShard.ErrorFrame message =>
      JObj [("type", JStr "error"); ("message", JStr message)]
  | WorldShard.RegisteredFrame playerId =>
      JObj [("type", JStr "registered"); ("playerId", JStr playerId)]
  | WorldShard.SignalDeliveryFailedFrame targetId =>
      JObj (("type", JStr "signal-delivery-failed") :: optional "targetId" targetId)
  | WorldShard.SignalFrame from payload =>
      JObj ([("type", JStr "signal"); ("from", JStr from)]
            ++ optional "payload" payload)
  | WorldShard.PeersFrame peers added removed distances positions totalPlayers =>
      JObj ([("type", JStr "peers"); ("peers", strings peers)]
            ++ optional "added" (strings <$> added)
            ++ optional "removed" (strings <$> removed)
            ++ optional "distances"
                 ((λ d, JObj (prod_map id JNum <$> d)) <$> distances)
            ++ optional "positions" (JObj <$> positions)
            ++ [("totalPlayers", JNum (inject_Z (Z.of_nat totalPlayers)))])
  end.

(** [isRegistered] is the only field [VoiceCellConnection] ever changes; the
    socket's [readyState] is handed to each method as [open]. *)
Record VoiceCellConnection := {
  playerId : string;
  sessionToken : string;
  isRegistered : bool;
}.

(** [constructor] *)
Definition new (playerId sessionToken : string) : VoiceCellConnection :=
  {| playerId := playerId; sessionToken := sessionToken; isRegistered := false |}.

(** [JSON.stringify] of a [Vector3]. *)
Definition vector (position : PeerManager.Vector3) : json :=
  JObj [("x", JNum (PeerManager.x position)); ("y", JNum (PeerManager.y position));
        ("z", JNum (PeerManager.z position))].

(** [register]: [None] is the thrown error. *)
Definition register (open : bool) (c : VoiceCellConnection) : option json :=
  if negb open then None
  else Some (JObj [("type", JStr "register"); ("playerId", JStr (playerId c));
                   ("sessionToken", JStr (sessionToken c))]).

Definition sendHeartbeat (open : bool) : list json :=
  if open then [JObj [("type", JStr "heartbeat")]] else [].

Definition sendPosition (open : bool) (position : PeerManager.Vector3)
    (c : VoiceCellConnection) : list json :=
  if negb open || negb (isRegistered c) then []
  else [JObj [("type", JStr "position"); ("position", vector position)]].

Definition sendSignal (open : bool) (targetId : string) (payload : option json)
    (c : VoiceCellConnection) : list json :=
  if negb open || negb (isRegistered c) then []
  else [JObj ([("type", JStr "signal"); ("targetId", JStr targetId)]
              ++ optional "payload" payload)].

(** What [handleServerMessage] hands to the subscribed handlers. *)
Inductive Handled :=
| SignalHandled (message : json)
| DeliveryFailureHandled (targetId : option json)
| ErrorHandled (message : option json)
| PeersHandled (message : json).

(** [handleServerMessage], applied to the outcome of [JSON.parse(raw)]
    ([None] when it throws). *)
Definition handleServerMessage (parsed : option json) (c : VoiceCellConnection)
    : VoiceCellConnection * list Handled :=
  match parsed with
  | None => (c, [])
  | Some message =>
      if negb (truthy parsed) || negb (is_object parsed) then (c, [])
      else
        match as_string (prop parsed "type") with
        | None => (c, [])
        | Some type =>
            if bool_decide (type = "registered")
            then ({| playerId := playerId c; sessionToken := sessionToken c;
                     isRegistered := true |}, [])
            else if bool_decide (type = "signal")
            then (c, [SignalHandled message])
            else if bool_decide (type = "signal-delivery-failed")
            then (c, [DeliveryFailureHandled (prop parsed "targetId")])
            else if bool_decide (type = "error")
            then (c, [ErrorHandled (prop parsed "message")])
            else if bool_decide (type = "peers")
            then (c, [PeersHandled message])
            else (c, [])
        end
  end.

(** The message listener of the constructor. *)
Definition onMessage (data : WorldShard.Data) (c : VoiceCellConnection)
    : VoiceCellConnection * list Handled :=
  match data with
  | WorldShard.Binary => (c, [])
  | WorldShard.Text parsed => handleServerMessage parsed c
  end.

(** What can happen at a connection: a frame arrives, or one of the methods
    that write to the socket is called while the socket is open or not.
    The heartbeat and position timers call [sendHeartbeat] and
    [sendPosition]. *)
Inductive Event :=
| Arrives (data : WorldShard.Data)
| Register (open : bool)
| SendHeartbeat (open : bool)
| SendPosition (open : bool) (position : PeerManager.Vector3)
| SendSignal (open : bool) (targetId : string) (payload : option json).

(** The frames written to the socket and the calls of the handlers. A
    [register] that throws has written nothing. *)
Definition step (event : Event) (c : VoiceCellConnection)
    : VoiceCellConnection * list json * list Handled :=
  match event with
  | Arrives data => let '(c1, handled) := onMessage data c in (c1, [], handled)
  | Register open =>
      (c, match register open c with Some frame => [frame] | None => [] end, [])
  | SendHeartbeat open => (c, sendHeartbeat open, [])
  | SendPosition open position => (c, sendPosition open position c, [])
  | SendSignal open targetId payload =>
      (c, sendSignal open targetId payload c, [])
  end.

Fixpoint run (events : list Event) (c : VoiceCellConnection)
    : VoiceCellConnection * list json * list Handled :=
  match events with
  | [] => (c, [], [])
  | event :: rest =>
      let '(c1, sent1, handled1) := step event c in
      let '(c2, sent2, handled2) := run rest c1 in
      (c2, sent1 ++ sent2, handled1 ++ handled2)
  end.

End Client.

(** * The vocabulary of the properties *)

(** ** For the arbiter *)

Module PeerManagerSpec.
Import Js PeerManager.
#[local] Open Scope nat_scope.

Definition keeps (m : VoicePeerManager) (threshold : Q) (peerId : string) : bool :=
  JsSet.has peerId (candidateIds m)
  && number_le (default PositiveInfinity (distance <$> peerStates m !! peerId))
               (Finite threshold).

Definition admissible (m : VoicePeerManager) (threshold : Q)
    (connected : list string) (peerId : string) : option PeerState :=
  if JsSet.has peerId connected then None
  else match peerStates m !! peerId with
       | None => None
       | Some state =>
           if number_le (distance state) (Finite threshold) then Some state else None
       end.

Definition connect_all (chosen : list PeerState) (connected : list string)
    : list string :=
  fold_left (λ acc state, JsSet.add (id state) acc) chosen connected.

(** Ordering of distances. *)
Definition closer (a b : PeerState) : Prop :=
  number_le (distance a) (distance b) = true.

Definition disconnectThreshold (m : VoicePeerManager) : Q :=
  (connectRadius (options m) * disconnectRadiusMultiplier (options m))%Q.

Definition kept (m : VoicePeerManager) : list string :=
  filter (λ p, keeps m (disconnectThreshold m) p = true) (connectedPeers m).

Definition dropped (m : VoicePeerManager) : list string :=
  filter (λ p, keeps m (disconnectThreshold m) p = false) (connectedPeers m).

Definition candidates (m : VoicePeerManager) : list PeerState :=
  sort_by_distance
    (omap (admissible m (connectRadius (options m)) (kept m)) (candidateIds m)).

(** The number of peers the cap lets in: [maxPeers] rounded up to a whole
    number, and none when it is negative. *)
Definition cap (m : VoicePeerManager) : nat :=
  Z.to_nat (Qceiling (maxPeers (options m))).

Definition chosen (m : VoicePeerManager) : list PeerState :=
  take (cap m - length (kept m)) (candidates m).

Definition ids_agree (m : VoicePeerManager) : Prop :=
  ∀ p st, peerStates m !! p = Some st → id st = p.

Record wf (m : VoicePeerManager) : Prop := {
  wf_alive : disposed m = false;
  wf_connected : NoDup (connectedPeers m);
  wf_candidates : NoDup (candidateIds m);
  wf_ids : ids_agree m;
  wf_cap : length (connectedPeers m) ≤ cap m;
}.

(** An operation that touches neither the options, the connected set, the
    candidates nor the disposal flag. *)
Definition pres (m m' : VoicePeerManager) : Prop :=
  options m' = options m ∧ connectedPeers m' = connectedPeers m
  ∧ disposed m' = disposed m ∧ candidateIds m' = candidateIds m
  ∧ (ids_agree m → ids_agree m').

(** Every candidate within the connect radius is connected, unless the cap
    is reached. *)
Definition saturated (m : VoicePeerManager) : Prop :=
  ∀ q st, q ∈ candidateIds m → peerStates m !! q = Some st →
          number_le (distance st) (Finite (connectRadius (options m))) = true →
          q ∈ connectedPeers m ∨ length (connectedPeers m) = cap m.

Definition knownDistance (m : VoicePeerManager) (peerId : string) : number :=
  default PositiveInfinity (distance <$> peerStates m !! peerId).

#[global] Instance Event_eq_dec : EqDecision Event.
Proof. solve_decision. Defined.

(** The events that concern one peer. *)
Definition events_about (p : string) (events : list Event) : list Event :=
  filter (λ e, e = Connect p ∨ e = Disconnect p) events.






End PeerManagerSpec.

(** ** For the shard *)

Module WorldShardSpec.
Import Js WorldShard.
#[local] Open Scope nat_scope.

(** What every reachable shard state satisfies about players and views. *)
Record views_ok (s : State) : Prop := {
  keys_NoDup : NoDup (JsMap.keys (connectionsByPlayer s));
  keys_playerId : ∀ k c, (k, c) ∈ connectionsByPlayer s → playerId c = k;
  view_registered : ∀ p view,
    peerViewByPlayer s !! p = Some view → p ∈ JsMap.keys (connectionsByPlayer s);
  view_not_self : ∀ p view, peerViewByPlayer s !! p = Some view → p ∉ view;
  view_distances : ∀ p view,
    peerViewByPlayer s !! p = Some view →
    ∃ dm, peerDistancesByPlayer s !! p = Some dm
          ∧ ∀ x, x ∈ view → x ≠ "__proto__" → is_Some (dm !! x);
}.

(** [b] differs from [a] at most in the pending sessions and the timers. *)
Definition same_players (a b : State) : Prop :=
  connectionsByPlayer b = connectionsByPlayer a
  ∧ anonymousConnections b = anonymousConnections a
  ∧ peerViewByPlayer b = peerViewByPlayer a
  ∧ peerDistancesByPlayer b = peerDistancesByPlayer a.

(** Whether an entry of the new distances differs from what was sent
    before: it was not sent, or it moved by more than the epsilon. *)
Definition far (previousDistances : gmap string Q) (entry : string * Q) : bool :=
  match previousDistances !! entry.1 with
  | None => true
  | Some prev => negb (Qle_bool (Qabs (prev - entry.2)) DISTANCE_CHANGE_EPSILON)
  end.

(** The [Map] built from the entries of the distances record. *)
Definition distance_map (distances : list (string * Q)) : gmap string Q :=
  fold_left (λ next '(peerId, distance), <[peerId := distance]> next)
            distances ∅.

(** [added], [removed] and [distanceChanged] are all empty or false. *)
Definition silent (previousPeers : list string) (previousDistances : gmap string Q)
    (nextPeers : list string) (distances : list (string * Q)) : bool :=
  forallb (λ peer, JsSet.has peer previousPeers) nextPeers
  && forallb (λ peer, JsSet.has peer nextPeers) previousPeers
  && negb (existsb (far previousDistances) distances).

(** The frame [publishPeerDiff] writes when it is not silent. *)
Definition peers_frame (previousPeers nextPeers : list string)
    (distances : list (string * Q)) (positions : list (string * json))
    (totalPlayers : nat) : Frame :=
  let added := filter (λ peer, JsSet.has peer previousPeers = false) nextPeers in
  let removed := filter (λ peer, JsSet.has peer nextPeers = false) previousPeers in
  PeersFrame nextPeers
    (if (0 <? length added)%nat then Some added else None)
    (if (0 <? length removed)%nat then Some removed else None)
    (if (0 <? length distances)%nat then Some distances else None)
    (if (0 <? length positions)%nat then Some positions else None)
    totalPlayers.

(** One observer's turn in [recalculateProximities]. *)
Definition observe `{Platform} (players : list PlayerConnection)
    (player : PlayerConnection) (s : State) : State * list Output :=
  let '(peers, distances, positions) := neighbours players player in
  publishPeerDiff (playerId player) peers distances positions s.

(** C6's condition, in the words of the claim: the new peer set equals the
    stored one, and no peer of both has moved by more than the epsilon from
    the distance sent before. *)
Definition unchanged (previousPeers : list string)
    (previousDistances : gmap string Q) (nextPeers : list string)
    (distances : list (string * Q)) : Prop :=
  (∀ x, x ∈ nextPeers ↔ x ∈ previousPeers)
  ∧ ∀ x prev d, x ∈ nextPeers → x ∈ previousPeers →
                previousDistances !! x = Some prev → (x, d) ∈ distances →
                (Qabs (prev - d) <= DISTANCE_CHANGE_EPSILON)%Q.

(** The ids of the registered connections. *)
Definition registered_ids (s : State) : list string :=
  id <$> JsMap.values (connectionsByPlayer s).

(** What every reachable state satisfies when [uuid()] never repeats. *)
Record ids_ok (s : State) : Prop := {
  registered_ids_NoDup : NoDup (registered_ids s);
  anonymous_not_registered : ∀ c,
    is_Some (anonymousConnections s !! c) → c ∉ registered_ids s;
  sockets_named : ∀ k conn, (k, conn) ∈ connectionsByPlayer s → socket conn = id conn;
  anonymous_named : ∀ c a,
    anonymousConnections s !! c = Some a → anon_socket a = c;
}.

(** Every connection id of the state was handed out before. *)
Definition ids_within (used : list string) (s : State) : Prop :=
  ∀ c, is_Some (anonymousConnections s !! c) ∨ c ∈ registered_ids s → c ∈ used.

(** The ids [uuid()] returned along a run. *)
Definition accepted (inputs : list (Z * Input)) : list string :=
  omap (λ '(_, input), match input with Socket c => Some c | _ => None end) inputs.

(** [b] holds no connection id that [a] does not hold. *)
Definition no_new_ids (a b : State) : Prop :=
  (∀ x, x ∈ registered_ids b →
        x ∈ registered_ids a ∨ is_Some (anonymousConnections a !! x))
  ∧ (∀ x, is_Some (anonymousConnections b !! x) →
          is_Some (anonymousConnections a !! x)).

(** A registered connection that the cleanup timer finds silent for more than
    the heartbeat timeout. *)
Definition stale (now : Z) (connection : PlayerConnection) : bool :=
  bool_decide (lastSeen connection < now - HEARTBEAT_TIMEOUT_MS)%Z.

(** Whether an output is written to the socket of connection [c]. *)
Definition on_socket (c : string) (o : Output) : bool :=
  match o with
  | Send sock _ | Close sock _ _ => String.eqb sock c
  | Response _ => false
  end.

(** The guard of [handlePosition]: a position was accepted less than the
    minimum interval ago. *)
Definition rate_limited (now : Z) (connection : PlayerConnection) : bool :=
  match lastPositionAt connection with
  | Some at_ =>
      negb (at_ =? 0)%Z
      && bool_decide (now - at_ < POSITION_UPDATE_MIN_INTERVAL_MS)%Z
  | None => false
  end.

(** [x] is within reach of [player]: another registered player, both with a
    stored position that counts as one, at a distance that is a number and
    at most the proximity radius. *)
Definition in_reach `{Platform} (players : list PlayerConnection)
    (player : PlayerConnection) (x : string) : Prop :=
  ∃ other here there d,
    other ∈ players ∧ playerId other = x ∧ x ≠ playerId player
    ∧ position player = Some here ∧ truthy (Some here) = true
    ∧ position other = Some there ∧ truthy (Some there) = true
    ∧ distanceBetween here there = Some d
    ∧ (d <= PROXIMITY_RADIUS_METERS)%Q.

(** Two connections that [recalculateProximities] cannot tell apart. *)
Definition same_place (a b : PlayerConnection) : Prop :=
  playerId a = playerId b ∧ position a = position b.

(** Every registered player's stored view holds exactly the players the
    recomputation would collect for it now. *)
Definition views_exact `{Platform} (s : State) : Prop :=
  ∀ player x,
    player ∈ JsMap.values (connectionsByPlayer s) →
    x ∈ default [] (peerViewByPlayer s !! playerId player) ↔
    x ∈ (neighbours (JsMap.values (connectionsByPlayer s)) player).1.1.

End WorldShardSpec.

(** ** For the relay *)

Module RelaySpec.
Import Js Relay.

(** A number that is a double. *)
Definition is_double (q : Q) : Prop := (nearest q == q)%Q.

(** A negative coordinate so close to zero that its quotient by 64 rounds
    to [-0]. *)
Definition underflows (x : Q) : bool :=
  Qlt_bool x 0 && Qle_bool (- 2 ^ (-1069)) x.

(** The coordinates that belong to the cell of index [c] along one axis. *)
Definition in_cell (c : Z) (x : Q) : Prop :=
  if underflows x then c = 0
  else (64 * inject_Z c <= x)%Q ∧ (x < 64 * inject_Z (c + 1))%Q.

(** What [Date.now()] returns: a time value. *)
Definition time_value (now : Z) : Prop := Z.abs now <= 8640000000000000.

End RelaySpec.

(** ** Worked inputs *)

Module Scenario.
Import Js.

(** A platform for the worked inputs. The square root is exact on squares of
    integers; the coercion is that of ECMAScript on numbers, [null], booleans
    and [undefined] and is [NaN] on anything else, which the worked inputs
    never coerce. *)
Definition platform : Platform :=
  {| Math_sqrt := λ q, (Z.sqrt (Qnum q * Z.pos (Qden q)) # Qden q)%Q;
     ToNumber := λ v,
       match v with
       | Some (JNum q) => Some q
       | Some JNull => Some 0%Q
       | Some (JBool b) => Some (if b then 1 else 0)%Q
       | _ => None
       end |}.

(** The same platform with a square root that does not depend on how its
    argument is written as a fraction. *)
Definition canonical_platform : Platform :=
  {| Math_sqrt := λ q, Math_sqrt (Platform := platform) (Qred q);
     ToNumber := ToNumber (Platform := platform) |}.

Definition two_slots : PeerManager.VoicePeerManagerOptions :=
  {| PeerManager.opt_connectRadius := 30;
     PeerManager.opt_disconnectRadiusMultiplier := Some (3 # 2)%Q;
     PeerManager.opt_maxPeers := Some 2%Q;
     PeerManager.opt_evaluationDebounceMs := Some 50 |}.

Definition one_slot : PeerManager.VoicePeerManagerOptions :=
  {| PeerManager.opt_connectRadius := 30;
     PeerManager.opt_disconnectRadiusMultiplier := None;
     PeerManager.opt_maxPeers := Some 1%Q;
     PeerManager.opt_evaluationDebounceMs := None |}.

Definition candidates_added (ids : list string) : PeerManager.Op :=
  PeerManager.ApplyPeerDiff
    {| PeerManager.added := Some ids; PeerManager.removed := None;
       PeerManager.peers := None; PeerManager.distances := None;
       PeerManager.positions := None |}.

Definition distance_reported (peerId : string) (d : Q) : PeerManager.Op :=
  PeerManager.UpdatePeerDistance peerId (Some (PeerManager.Finite d)).


Definition one_slot_ops : list (Z * PeerManager.Op) :=
  [(0, candidates_added ["p1"; "p2"]); (0, distance_reported "p1" 5);
   (0, distance_reported "p2" 10); (250, PeerManager.TimerFires)].



(** A cap that is not a whole number, a cap below zero, and three peers
    nearby. *)
Definition fractional_cap : PeerManager.VoicePeerManagerOptions :=
  {| PeerManager.opt_connectRadius := 30;
     PeerManager.opt_disconnectRadiusMultiplier := None;
     PeerManager.opt_maxPeers := Some (5 # 2)%Q;
     PeerManager.opt_evaluationDebounceMs := None |}.

Definition negative_cap : PeerManager.VoicePeerManagerOptions :=
  {| PeerManager.opt_connectRadius := 30;
     PeerManager.opt_disconnectRadiusMultiplier := None;
     PeerManager.opt_maxPeers := Some (-1)%Q;
     PeerManager.opt_evaluationDebounceMs := None |}.

Definition three_near_ops : list (Z * PeerManager.Op) :=
  [(0, candidates_added ["p1"; "p2"; "p3"]); (0, distance_reported "p1" 5);
   (0, distance_reported "p2" 10); (0, distance_reported "p3" 15);
   (250, PeerManager.TimerFires)].

Definition vector (a b c : Q) : json :=
  JObj [("x", JNum a); ("y", JNum b); ("z", JNum c)].

Definition prepare (player token : string) : WorldShard.Input :=
  WorldShard.Prepare
    (Some (JObj [("playerId", JStr player); ("sessionToken", JStr token)])).

Definition register_message (player token : string) : json :=
  JObj [("type", JStr "register"); ("playerId", JStr player);
        ("sessionToken", JStr token)].

Definition position_message (v : json) : json :=
  JObj [("type", JStr "position"); ("position", v)].

Definition signal_message (target : string) : json :=
  JObj [("type", JStr "signal"); ("targetId", JStr target);
        ("payload", JObj [("t", JStr "offer")])].

Definition sends (c : string) (message : json) : WorldShard.Input :=
  WorldShard.Message c (WorldShard.Text (Some message)).

(** Two players join, register and report positions five units apart. *)
Definition two_players : list (Z * WorldShard.Input) :=
  [(0, prepare "A" "ta"); (0, prepare "B" "tb");
   (1, WorldShard.Socket "c1"); (1, WorldShard.Socket "c2");
   (2, sends "c1" (register_message "A" "ta"));
   (2, sends "c2" (register_message "B" "tb"));
   (3, sends "c1" (position_message (vector 0 0 0)));
   (3, sends "c2" (position_message (vector 5 0 0)))].

(** The same player joins and registers twice, with distinct tokens. *)
Definition duplicate_register : list (Z * WorldShard.Input) :=
  [(0, prepare "A" "t1"); (1, WorldShard.Socket "c1");
   (2, sends "c1" (register_message "A" "t1"));
   (3, prepare "A" "t2"); (4, WorldShard.Socket "c2");
   (5, sends "c2" (register_message "A" "t2"))].

(** After a recomputation the second player's socket closes. *)
Definition neighbour_leaves : list (Z * WorldShard.Input) :=
  two_players ++ [(60, WorldShard.ProximityTimer);
                  (100, WorldShard.SocketClosed "c2")].

(** A socket is accepted and never registers. *)
Definition lone_socket : list (Z * WorldShard.Input) :=
  [(1, WorldShard.Socket "c1")].

(** A third socket is accepted and stays silent. *)
Definition silent_socket : list (Z * WorldShard.Input) :=
  two_players ++ [(5, WorldShard.Socket "c3")].

(** Third-party credentials are configured and the endpoint answers with one
    relay server; no static list is configured. *)
Definition turn_server : json :=
  JObj [("urls", JStr "turn:turn.example.org:3478"); ("username", JStr "u");
        ("credential", JStr "p")].

Definition turn_env : Relay.VoiceChatEnv :=
  {| Relay.ICE_SERVERS_JSON := None;
     Relay.TURN_TOKEN_ID := Some "key";
     Relay.TURN_API_TOKEN := Some "secret";
     Relay.TURN_CACHE_TTL_SECONDS := None |}.

Definition turn_response : Relay.Fetched :=
  Relay.Body {| Relay.iceServers := Some (JArr [turn_server]);
                Relay.ttl := Some 86400%Q;
                Relay.expiresAt := None |}.

Definition join_body : option json :=
  Some (JObj [("playerId", JStr "A"); ("position", vector 0 0 0)]).

End Scenario.

(** * Properties *)

(** ** Sets and maps in insertion order *)

Module JsFacts.
Import Js.
#[local] Open Scope nat_scope.

Lemma has_true x s : JsSet.has x s = true ↔ x ∈ s.
Proof. unfold JsSet.has. apply bool_decide_eq_true. Qed.

Lemma has_false x s : JsSet.has x s = false ↔ x ∉ s.
Proof. unfold JsSet.has. apply bool_decide_eq_false. Qed.

Lemma elem_of_add x y s : y ∈ JsSet.add x s ↔ y = x ∨ y ∈ s.
Proof.
  unfold JsSet.add. destruct (JsSet.has x s) eqn:E.
  - apply has_true in E. split; [auto | intros [-> | ?]; auto].
  - rewrite elem_of_app, list_elem_of_singleton. tauto.
Qed.

Lemma add_NoDup x s : NoDup s → NoDup (JsSet.add x s).
Proof.
  intros Hs. unfold JsSet.add. destruct (JsSet.has x s) eqn:E; [done |].
  apply has_false in E. apply NoDup_app. split_and!; [done | | apply NoDup_singleton].
  intros y Hy Hx. apply list_elem_of_singleton in Hx. by subst.
Qed.

Lemma length_add x s : length (JsSet.add x s) ≤ S (length s).
Proof.
  unfold JsSet.add. destruct (JsSet.has x s); [lia |].
  rewrite length_app. simpl. lia.
Qed.

Lemma elem_of_delete x y s : y ∈ JsSet.delete x s ↔ y ≠ x ∧ y ∈ s.
Proof. unfold JsSet.delete. by rewrite list_elem_of_filter. Qed.

Lemma delete_NoDup x s : NoDup s → NoDup (JsSet.delete x s).
Proof. apply NoDup_filter. Qed.

Lemma length_delete x s : length (JsSet.delete x s) ≤ length s.
Proof. apply length_filter. Qed.

Lemma filter_ext_in {A} (P Q : A → Prop) `{∀ x, Decision (P x)}
    `{∀ x, Decision (Q x)} (l : list A) :
  (∀ x, x ∈ l → (P x ↔ Q x)) → filter P l = filter Q l.
Proof.
  induction l as [| a l IH]; intros Hl; [done |].
  assert (filter P l = filter Q l) as E
    by (apply IH; intros x Hx; apply Hl; by right).
  destruct (decide (P a)) as [Ha | Ha].
  - rewrite !filter_cons_True; [by rewrite E | | done].
    apply Hl; [by left | done].
  - rewrite !filter_cons_False; [done | | done].
    intros HQ. apply Ha, Hl; [by left | done].
Qed.

Lemma fold_left_inv {A B} (P : B → Prop) (f : B → A → B) (l : list A) :
  ∀ b, P b → (∀ b a, a ∈ l → P b → P (f b a)) → P (fold_left f l b).
Proof.
  induction l as [| a l IH]; intros b Hb Hf; simpl; [done |].
  apply IH.
  - apply Hf; [by left | done].
  - intros b' a' Ha'. apply Hf. by right.
Qed.

Lemma fold_left_ext {A B} (f g : B → A → B) (l : list A) :
  (∀ b a, f b a = g b a) → ∀ b, fold_left f l b = fold_left g l b.
Proof.
  intros Hfg. induction l as [| a l IH]; intros b; simpl; [done |].
  by rewrite Hfg, IH.
Qed.

(** Insertion-ordered maps. *)
Lemma get_set_eq {V} k (v : V) m : JsMap.get k (JsMap.set k v m) = Some v.
Proof.
  induction m as [| [k' v'] m IH]; simpl.
  - by rewrite String.eqb_refl.
  - destruct (String.eqb k' k) eqn:E; simpl.
    + by rewrite String.eqb_refl.
    + by rewrite E.
Qed.

Lemma get_set_ne {V} k k' (v : V) m :
  k ≠ k' → JsMap.get k' (JsMap.set k v m) = JsMap.get k' m.
Proof.
  intros Hne. induction m as [| [k0 v0] m IH]; simpl.
  - apply String.eqb_neq in Hne. by rewrite Hne.
  - destruct (String.eqb k0 k) eqn:E; simpl.
    + apply String.eqb_eq in E as ->. apply String.eqb_neq in Hne.
      by rewrite Hne.
    + by rewrite IH.
Qed.

Lemma get_Some_elem {V} k (v : V) m : JsMap.get k m = Some v → (k, v) ∈ m.
Proof.
  induction m as [| [k0 v0] m IH]; simpl; [done |].
  destruct (String.eqb k0 k) eqn:E.
  - apply String.eqb_eq in E as ->. intros [= ->]. by left.
  - intros H. right. by apply IH.
Qed.

Lemma get_Some_key {V} k (v : V) m : JsMap.get k m = Some v → k ∈ JsMap.keys m.
Proof.
  intros H. apply get_Some_elem in H. unfold JsMap.keys.
  apply list_elem_of_fmap. by exists (k, v).
Qed.

Lemma get_None_key {V} k (m : list (string * V)) :
  JsMap.get k m = None ↔ k ∉ JsMap.keys m.
Proof.
  unfold JsMap.keys. induction m as [| [k0 v0] m IH]; simpl.
  - split; [intros _; apply not_elem_of_nil | done].
  - rewrite not_elem_of_cons. destruct (String.eqb k0 k) eqn:E.
    + apply String.eqb_eq in E as ->. split; [done | intros [? _]; done].
    + apply String.eqb_neq in E. rewrite IH. split; [| tauto].
      intros ?. split; [congruence | done].
Qed.

Lemma elem_get {V} k (v : V) m :
  NoDup (JsMap.keys m) → (k, v) ∈ m → JsMap.get k m = Some v.
Proof.
  unfold JsMap.keys. induction m as [| [k0 v0] m IH]; simpl; intros Hnd Hin.
  - by apply elem_of_nil in Hin.
  - apply NoDup_cons in Hnd as [Hk0 Hnd].
    apply elem_of_cons in Hin as [[= -> ->] | Hin].
    + by rewrite String.eqb_refl.
    + destruct (String.eqb k0 k) eqn:E; [| by apply IH].
      apply String.eqb_eq in E as ->. exfalso. apply Hk0.
      apply list_elem_of_fmap. by exists (k, v).
Qed.

Lemma keys_cons {V} k (v : V) m : JsMap.keys ((k, v) :: m) = k :: JsMap.keys m.
Proof. done. Qed.

Lemma keys_set {V} k (v : V) m :
  JsMap.keys (JsMap.set k v m)
  = if bool_decide (k ∈ JsMap.keys m) then JsMap.keys m else JsMap.keys m ++ [k].
Proof.
  induction m as [| [k0 v0] m IH]; [done |].
  cbn [JsMap.set]. destruct (String.eqb k0 k) eqn:E; rewrite !keys_cons.
  - apply String.eqb_eq in E as ->.
    by rewrite bool_decide_eq_true_2 by (by left).
  - apply String.eqb_neq in E. rewrite IH.
    destruct (bool_decide (k ∈ JsMap.keys m)) eqn:Ek.
    + apply bool_decide_eq_true in Ek.
      by rewrite bool_decide_eq_true_2 by (by right).
    + apply bool_decide_eq_false in Ek.
      rewrite bool_decide_eq_false_2; [done |].
      rewrite not_elem_of_cons. split; [congruence | done].
Qed.

Lemma set_NoDup {V} k (v : V) m :
  NoDup (JsMap.keys m) → NoDup (JsMap.keys (JsMap.set k v m)).
Proof.
  intros Hnd. rewrite keys_set. destruct (bool_decide _) eqn:E; [done |].
  apply bool_decide_eq_false in E. apply NoDup_app. split_and!; [done | |].
  - intros x Hx Hk. apply list_elem_of_singleton in Hk. by subst.
  - apply NoDup_singleton.
Qed.

Lemma elem_of_set {V} k (v : V) m kc :
  kc ∈ JsMap.set k v m → kc = (k, v) ∨ kc ∈ m.
Proof.
  induction m as [| [k0 v0] m IH]; cbn [JsMap.set].
  - intros H. apply list_elem_of_singleton in H. by left.
  - destruct (String.eqb k0 k) eqn:E; rewrite !elem_of_cons.
    + intros [-> | H]; [by left | right; by right].
    + intros [-> | H]; [right; by left |].
      destruct (IH H) as [? | ?]; [by left | right; by right].
Qed.

Lemma delete_sublist {V} k (m : list (string * V)) :
  JsMap.delete k m `sublist_of` m.
Proof.
  induction m as [| [k0 v0] m IH]; cbn [JsMap.delete]; [done |].
  destruct (String.eqb k0 k); [by apply sublist_cons | by apply sublist_skip].
Qed.

Lemma elem_of_delete_map {V} k (m : list (string * V)) kc :
  kc ∈ JsMap.delete k m → kc ∈ m.
Proof. intros H. eapply elem_of_sublist; [done | apply delete_sublist]. Qed.

Lemma delete_NoDup_map {V} k (m : list (string * V)) :
  NoDup (JsMap.keys m) → NoDup (JsMap.keys (JsMap.delete k m)).
Proof.
  intros H. eapply sublist_NoDup; [done |].
  unfold JsMap.keys. apply fmap_sublist, delete_sublist.
Qed.

Lemma keys_delete {V} k (m : list (string * V)) :
  NoDup (JsMap.keys m) →
  ∀ k', k' ∈ JsMap.keys (JsMap.delete k m) ↔ k' ≠ k ∧ k' ∈ JsMap.keys m.
Proof.
  induction m as [| [k0 v0] m IH]; cbn [JsMap.delete]; intros Hnd k'.
  - unfold JsMap.keys. simpl. rewrite elem_of_nil. tauto.
  - rewrite keys_cons in Hnd. apply NoDup_cons in Hnd as [Hk0 Hnd].
    destruct (String.eqb k0 k) eqn:E.
    + apply String.eqb_eq in E as ->. rewrite keys_cons, elem_of_cons.
      split; [| tauto]. intros H. split; [| by right]. by intros ->.
    + apply String.eqb_neq in E. rewrite !keys_cons, !elem_of_cons, IH by done.
      split; [| tauto]. intros [-> | [? ?]]; [by split; [| left] | tauto].
Qed.

Lemma get_delete_ne {V} k k' (m : list (string * V)) :
  k ≠ k' → JsMap.get k' (JsMap.delete k m) = JsMap.get k' m.
Proof.
  intros Hne. induction m as [| [k0 v0] m IH]; cbn [JsMap.delete JsMap.get]; [done |].
  destruct (String.eqb k0 k) eqn:E.
  - apply String.eqb_eq in E as ->. apply String.eqb_neq in Hne. by rewrite Hne.
  - cbn [JsMap.get]. by rewrite IH.
Qed.


End JsFacts.

(** ** Binary64 rounding *)

Module NumFacts.
Import Js RelaySpec.
#[local] Open Scope Z_scope.

Lemma pow2_pos (k : Z) : (0 < 2 ^ k)%Q.
Proof. by apply Qpower_0_lt. Qed.

Lemma pow2_le (a b : Z) : (a <= b)%Z → (2 ^ a <= 2 ^ b)%Q.
Proof. intros. by apply Qpower_le_compat_l. Qed.

Lemma pow2_lt (a b : Z) : (a < b)%Z → (2 ^ a < 2 ^ b)%Q.
Proof. intros. by apply Qpower_lt_compat_l. Qed.

Lemma pow2_plus (a b : Z) : (2 ^ (a + b) == 2 ^ a * 2 ^ b)%Q.
Proof. by apply Qpower_plus. Qed.

Lemma pow2_minus (a b : Z) : (2 ^ (a - b) == 2 ^ a / 2 ^ b)%Q.
Proof. by apply Qpower_minus. Qed.

Lemma pow2_Z (k : Z) : (0 <= k)%Z → (2 ^ k == inject_Z (2 ^ k))%Q.
Proof. intros. by rewrite Zpower_Qpower. Qed.

Lemma Qabs_make q : (Qabs q == inject_Z (Z.abs (Qnum q)) / inject_Z (Z.pos (Qden q)))%Q.
Proof. destruct q as [n d]. simpl. by rewrite Qmake_Qdiv. Qed.

(** The binade brackets the magnitude. *)
Lemma binade_lower q : ¬ (q == 0)%Q → (2 ^ binade q <= Qabs q)%Q.
Proof.
  intros Hq. unfold binade.
  set (n := Z.abs (Qnum q)). set (d := Z.pos (Qden q)).
  destruct (Qle_bool (2 ^ (Z.log2 n - Z.log2 d)) (Qabs q)) eqn:E.
  - by apply Qle_bool_iff.
  - assert (0 < n) as Hn.
    { unfold n. destruct q as [[| p | p] e]; try done. }
    assert (0 < d) as Hd by done.
    destruct (Z.log2_spec n Hn) as [Hn1 _].
    destruct (Z.log2_spec d Hd) as [_ Hd2].
    pose proof (Z.log2_nonneg n). pose proof (Z.log2_nonneg d).
    replace (Z.log2 n - Z.log2 d - 1) with (Z.log2 n - Z.succ (Z.log2 d)) by lia.
    rewrite pow2_minus, !pow2_Z by lia. rewrite Qabs_make. fold n d.
    set (A := 2 ^ Z.log2 n) in *. set (B := 2 ^ Z.succ (Z.log2 d)) in *.
    assert (0 < A) by (unfold A; apply Z.pow_pos_nonneg; lia).
    apply Qle_shift_div_l; [rewrite <- (Zlt_Qlt 0); lia |].
    unfold Qdiv. rewrite <- Qmult_assoc, (Qmult_comm (/ _)), Qmult_assoc.
    apply Qle_shift_div_r; [rewrite <- (Zlt_Qlt 0); lia |].
    rewrite <- !inject_Z_mult, <- Zle_Qle. nia.
Qed.

Lemma binade_upper q : (Qabs q < 2 ^ (binade q + 1))%Q.
Proof.
  unfold binade.
  set (n := Z.abs (Qnum q)). set (d := Z.pos (Qden q)).
  destruct (Qle_bool (2 ^ (Z.log2 n - Z.log2 d)) (Qabs q)) eqn:E.
  - assert (0 < d) as Hd by done.
    destruct (Z.log2_spec d Hd) as [Hd1 _].
    pose proof (Z.log2_nonneg n). pose proof (Z.log2_nonneg d).
    assert (n < 2 ^ Z.succ (Z.log2 n)) as Hn2.
    { destruct (Z.eq_dec n 0) as [-> | Hne]; [done |].
      apply Z.log2_spec. unfold n in *. lia. }
    replace (Z.log2 n - Z.log2 d + 1) with (Z.succ (Z.log2 n) - Z.log2 d) by lia.
    rewrite pow2_minus, !pow2_Z by lia. rewrite Qabs_make. fold n d.
    set (A := 2 ^ Z.succ (Z.log2 n)) in *. set (B := 2 ^ Z.log2 d) in *.
    assert (0 < B) by (unfold B; apply Z.pow_pos_nonneg; lia).
    apply Qlt_shift_div_l; [rewrite <- (Zlt_Qlt 0); lia |].
    unfold Qdiv. rewrite <- Qmult_assoc, (Qmult_comm (/ _)), Qmult_assoc.
    apply Qlt_shift_div_r; [rewrite <- (Zlt_Qlt 0); lia |].
    rewrite <- !inject_Z_mult, <- Zlt_Qlt. nia.
  - replace (Z.log2 n - Z.log2 d - 1 + 1) with (Z.log2 n - Z.log2 d) by lia.
    apply Qnot_le_lt. rewrite <- Qle_bool_iff. by rewrite E.
Qed.

Lemma binade_unique q (b : Z) :
  (2 ^ b <= Qabs q)%Q → (Qabs q < 2 ^ (b + 1))%Q → binade q = b.
Proof.
  intros Hlo Hhi.
  assert (¬ (q == 0)%Q) as Hq.
  { intros H0. rewrite H0 in Hlo. change (Qabs 0) with 0%Q in Hlo.
    pose proof (pow2_pos b). lra. }
  pose proof (binade_lower q Hq) as Hl. pose proof (binade_upper q) as Hu.
  assert (binade q < b + 1).
  { apply (Qpower_lt_compat_l_inv 2); [lra | done]. }
  assert (b < binade q + 1).
  { apply (Qpower_lt_compat_l_inv 2); [lra | done]. }
  lia.
Qed.

(** Rounding to the nearest integer. *)
Lemma round_half_even_floor q :
  Qfloor q <= round_half_even q <= Qfloor q + 1.
Proof.
  unfold round_half_even. destruct (_ ?= _)%Q; [destruct (Z.even _) | |]; lia.
Qed.

Lemma round_half_even_Z q (n : Z) : (q == inject_Z n)%Q → round_half_even q = n.
Proof.
  intros Hq. unfold round_half_even.
  rewrite (Qfloor_comp _ _ Hq), Qfloor_Z.
  assert ((q - inject_Z n ?= 1 # 2)%Q = Lt) as ->; [| done].
  rewrite <- Qlt_alt. lra.
Qed.

Lemma round_half_even_ge q (a : Z) : (inject_Z a <= q)%Q → a <= round_half_even q.
Proof.
  intros Ha. pose proof (round_half_even_floor q).
  assert (a <= Qfloor q); [| lia].
  rewrite <- (Qfloor_Z a). by apply Qfloor_resp_le.
Qed.

Lemma round_half_even_le q (b : Z) : (q <= inject_Z b)%Q → round_half_even q <= b.
Proof.
  intros Hb.
  assert (Qfloor q <= b) as Hf.
  { rewrite <- (Qfloor_Z b). by apply Qfloor_resp_le. }
  pose proof (Qfloor_le q) as Hfl.
  unfold round_half_even.
  destruct (Z.eq_dec (Qfloor q) b) as [He | Hne].
  - assert ((q - inject_Z (Qfloor q) ?= 1 # 2)%Q = Lt) as ->; [| lia].
    rewrite <- Qlt_alt. rewrite He in *. lra.
  - destruct (_ ?= _)%Q; [destruct (Z.even _) | |]; lia.
Qed.

Lemma round_half_even_neg q : (q < - (1 # 2))%Q → round_half_even q <= -1.
Proof.
  intros Hq. pose proof (Qlt_floor q) as Hlt. pose proof (Qfloor_le q) as Hle.
  assert (Qfloor q <= -1) as Hf.
  { assert (Qfloor q < 0); [| lia]. rewrite Zlt_Qlt. change (inject_Z 0) with 0%Q. lra. }
  unfold round_half_even.
  destruct (Z.eq_dec (Qfloor q) (-1)) as [He | Hne].
  - assert ((q - inject_Z (Qfloor q) ?= 1 # 2)%Q = Lt) as ->; [| lia].
    rewrite <- Qlt_alt. rewrite He. change (inject_Z (-1)) with (-1)%Q. lra.
  - destruct (_ ?= _)%Q; [destruct (Z.even _) | |]; lia.
Qed.

Lemma round_half_even_zero q :
  (- (1 # 2) <= q)%Q → (q < 0)%Q → round_half_even q = 0.
Proof.
  intros Hlo Hhi.
  assert (Qfloor q = -1) as Hf.
  { pose proof (Qlt_floor q) as Hlt. pose proof (Qfloor_le q) as Hle.
    assert (Qfloor q < 0) by (rewrite Zlt_Qlt; change (inject_Z 0) with 0%Q; lra).
    assert (-2 < Qfloor q); [| lia].
    rewrite Zlt_Qlt. rewrite inject_Z_plus in Hlt. simpl in Hlt.
    change (inject_Z (-2)) with (-2)%Q. change (inject_Z 1) with 1%Q in Hlt. lra. }
  unfold round_half_even. rewrite Hf.
  destruct (q - inject_Z (-1) ?= 1 # 2)%Q eqn:E; [done | | done].
  rewrite <- Qlt_alt in E. change (inject_Z (-1)) with (-1)%Q in E. lra.
Qed.


Lemma binade_zero q : (q == 0)%Q → binade q < 0.
Proof.
  intros H0. unfold binade. destruct q as [n d].
  assert (n = 0) as -> by (unfold Qeq in H0; simpl in H0; lia).
  cbn [Qnum Qden]. change (Z.log2 (Z.abs 0)) with 0.
  pose proof (Z.log2_nonneg (Z.pos d)) as Hd.
  destruct (Qle_bool _ _) eqn:E; [| lia].
  apply Qle_bool_iff in E.
  assert (Qabs (0 # d) == 0)%Q as Hz by done.
  rewrite Hz in E. clear Hz H0.
  match type of E with
  | (?p <= _)%Q => assert (0 < p)%Q by apply pow2_pos
  end. lra.
Qed.

Lemma binade_small q (b : Z) :
  ¬ (q == 0)%Q → (Qabs q < 2 ^ b)%Q → binade q < b.
Proof.
  intros Hne Hq. pose proof (binade_lower q Hne).
  apply (Qpower_lt_compat_l_inv 2); [lra | done].
Qed.

(** A multiple of the ulp is its own nearest double. *)
Lemma nearest_exact q (n : Z) :
  (q == inject_Z n * ulp q)%Q → (nearest q == q)%Q.
Proof.
  intros Hq. unfold nearest.
  assert (0 < ulp q)%Q as Hu by apply pow2_pos.
  rewrite (round_half_even_Z _ n); [by symmetry |].
  rewrite Hq at 1. field. lra.
Qed.

(** Rounding does not cross a whole number below [2 ^ 53]. *)
Lemma ulp_small q : (Qabs q < 2 ^ 53)%Q → ∃ k : Z, 0 <= k ∧ ulp q = (2 ^ (- k))%Q.
Proof.
  intros Hq. unfold ulp.
  exists (52 - Z.max (binade q) (-1022)). split.
  - destruct (Qeq_dec q 0) as [H0 | Hne].
    + pose proof (binade_zero q H0). lia.
    + pose proof (binade_small q 53 Hne Hq). lia.
  - by replace (- (52 - Z.max (binade q) (-1022)))
      with (Z.max (binade q) (-1022) - 52) by lia.
Qed.

Lemma nearest_between q (a b : Z) :
  - 2 ^ 53 < a → b < 2 ^ 53 →
  (inject_Z a <= q)%Q → (q <= inject_Z b)%Q →
  (inject_Z a <= nearest q)%Q ∧ (nearest q <= inject_Z b)%Q.
Proof.
  intros Ha Hb Hlo Hhi.
  assert (Qabs q < 2 ^ 53)%Q as Hq.
  { apply Qabs_Qlt_condition. rewrite (pow2_Z 53) by lia.
    split.
    - eapply Qlt_le_trans; [| exact Hlo].
      rewrite <- inject_Z_opp, <- Zlt_Qlt. lia.
    - eapply Qle_lt_trans; [exact Hhi |]. rewrite <- Zlt_Qlt. lia. }
  destruct (ulp_small q Hq) as (k&Hk&Hu).
  unfold nearest. rewrite Hu.
  assert (2 ^ (- k) == / inject_Z (2 ^ k))%Q as Hinv.
  { rewrite Qpower_opp. by rewrite pow2_Z. }
  assert (0 < 2 ^ k) as Hpos by (apply Z.pow_pos_nonneg; lia).
  assert (0 < inject_Z (2 ^ k))%Q as HposQ by (rewrite <- (Zlt_Qlt 0); done).
  set (y := (q / 2 ^ (- k))%Q).
  assert (y == q * inject_Z (2 ^ k))%Q as Hy.
  { unfold y. rewrite Hinv. field. lra. }
  clearbody y. rewrite Hinv.
  change (?a * / ?b)%Q with (a / b)%Q.
  split.
  - apply Qle_shift_div_l; [done |].
    rewrite <- inject_Z_mult, <- Zle_Qle.
    apply round_half_even_ge. rewrite Hy, inject_Z_mult.
    apply Qmult_le_compat_r; [done | lra].
  - apply Qle_shift_div_r; [done |].
    rewrite <- inject_Z_mult, <- Zle_Qle.
    apply round_half_even_le. rewrite Hy, inject_Z_mult.
    apply Qmult_le_compat_r; [done | lra].
Qed.

(** Division of a double by 64. *)
Lemma Qabs_div64 x : (Qabs (x / 64) == Qabs x / 64)%Q.
Proof. unfold Qdiv. by rewrite Qabs_Qmult. Qed.

Lemma binade_div64 x : ¬ (x == 0)%Q → binade (x / 64) = binade x - 6.
Proof.
  intros Hx. apply binade_unique; rewrite Qabs_div64.
  - rewrite pow2_minus. pose proof (binade_lower x Hx).
    apply Qmult_le_compat_r; [done | done].
  - replace (binade x - 6 + 1) with (binade x + 1 - 6) by lia.
    rewrite pow2_minus. pose proof (binade_upper x).
    apply Qmult_lt_compat_r; [done | done].
Qed.

Lemma nearest_div64 x :
  (nearest x == x)%Q → -1022 <= binade (x / 64) → (nearest (x / 64) == x / 64)%Q.
Proof.
  intros Hrep Hb.
  destruct (Qeq_dec x 0) as [H0 | Hx].
  - apply (nearest_exact _ 0). change (inject_Z 0) with 0%Q.
    rewrite Qmult_0_l, H0. reflexivity.
  - rewrite (binade_div64 x Hx) in Hb.
    apply (nearest_exact _ (round_half_even (x / ulp x))).
    unfold ulp at 2. rewrite (binade_div64 x Hx).
    replace (Z.max (binade x - 6) (-1022) - 52)
      with (Z.max (binade x) (-1022) - 52 - 6) by lia.
    rewrite pow2_minus. fold (ulp x).
    unfold nearest in Hrep. rewrite <- Hrep at 1.
    change (2 ^ 6)%Q with 64%Q. field.
Qed.

Lemma Qlt_bool_iff a b : Qlt_bool a b = true ↔ (a < b)%Q.
Proof.
  unfold Qlt_bool. rewrite negb_true_iff. split.
  - intros E. apply Qnot_le_lt. rewrite <- Qle_bool_iff. by rewrite E.
  - intros H. apply not_true_is_false. rewrite Qle_bool_iff. by apply Qlt_not_le.
Qed.

Lemma Qfloor_unique (q : Q) (c : Z) :
  (inject_Z c <= q)%Q → (q < inject_Z (c + 1))%Q → Qfloor q = c.
Proof.
  intros Hlo Hhi.
  assert (c <= Qfloor q)%Z as H1.
  { rewrite <- (Qfloor_Z c). by apply Qfloor_resp_le. }
  assert (Qfloor q < c + 1)%Z as H2.
  { rewrite Zlt_Qlt. eapply Qle_lt_trans; [apply Qfloor_le | done]. }
  lia.
Qed.

(** What the double quotient looks like below the normal range. *)
Lemma floor_subnormal q :
  binade q < -1022 →
  Qfloor (nearest q)
  = if Qlt_bool q 0 && Qle_bool (- 2 ^ (-1075)) q then 0 else Qfloor q.
Proof.
  intros Hb.
  assert (Qabs q < 2 ^ (-1022))%Q as Hsmall.
  { pose proof (binade_upper q) as Hu.
    eapply Qlt_le_trans; [exact Hu |]. apply pow2_le. lia. }
  assert (nearest q
          == inject_Z (round_half_even (q / 2 ^ (-1074))) * 2 ^ (-1074))%Q as Hn.
  { unfold nearest, ulp.
    by replace (Z.max (binade q) (-1022) - 52) with (-1074) by lia. }
  rewrite (Qfloor_comp _ _ Hn). clear Hn Hb.
  assert (2 ^ (-1022) == 2 ^ (-1074) * inject_Z (2 ^ 52))%Q as HT
    by (by rewrite <- pow2_Z, <- pow2_plus by lia).
  assert (2 ^ (-1074) == 2 ^ (-1075) * 2)%Q as Hh
    by (by rewrite <- (pow2_plus (-1075) 1)).
  pose proof (pow2_lt (-1022) 0 ltac:(lia)) as H1. change (2 ^ 0)%Q with 1%Q in H1.
  pose proof (pow2_pos (-1074)) as Ht.
  revert Hsmall HT Hh H1 Ht.
  generalize (2 ^ (-1022))%Q (2 ^ (-1074))%Q (2 ^ (-1075))%Q.
  intros T t h Hsmall HT Hh H1 Ht.
  assert (0 < 2 ^ 52) as HP by done.
  revert HT HP. generalize (2 ^ 52). intros P HT HP.
  assert (0 < inject_Z P)%Q as HPQ by (by rewrite <- (Zlt_Qlt 0)).
  set (y := (q / t)%Q).
  assert (q == y * t)%Q as Hy by (unfold y; field; lra).
  apply Qabs_Qlt_condition in Hsmall as [Hlo Hhi].
  assert (inject_Z (- P) <= y)%Q as Hylo.
  { unfold y. apply Qle_shift_div_l; [done |]. rewrite inject_Z_opp. nra. }
  assert (y <= inject_Z P)%Q as Hyhi.
  { unfold y. apply Qle_shift_div_r; [done |]. nra. }
  apply round_half_even_ge in Hylo. apply round_half_even_le in Hyhi.
  rewrite Zle_Qle, inject_Z_opp in Hylo. rewrite Zle_Qle in Hyhi.
  destruct (Qlt_le_dec q 0) as [Hneg | Hpos].
  - assert (Qlt_bool q 0 = true) as -> by (by apply Qlt_bool_iff).
    cbn [andb]. destruct (Qle_bool (- h) q) eqn:Eu.
    + apply Qle_bool_iff in Eu.
      rewrite (round_half_even_zero y).
      * change (inject_Z 0) with 0%Q. apply Qfloor_unique.
        -- change (inject_Z 0) with 0%Q. lra.
        -- change (inject_Z (0 + 1)) with 1%Q. lra.
      * unfold y. apply Qle_shift_div_l; [done |]. lra.
      * unfold y. apply Qlt_shift_div_r; [done |]. lra.
    + assert (q < - h)%Q as Hx.
      { apply Qnot_le_lt. rewrite <- Qle_bool_iff. by rewrite Eu. }
      assert (round_half_even y <= -1) as Hr.
      { apply round_half_even_neg. unfold y.
        apply Qlt_shift_div_r; [done |]. lra. }
      rewrite Zle_Qle in Hr. change (inject_Z (-1)) with (-1)%Q in Hr.
      transitivity (-1).
      * apply Qfloor_unique.
        -- change (inject_Z (-1)) with (-1)%Q. nra.
        -- change (inject_Z (-1 + 1)) with 0%Q. nra.
      * symmetry. apply Qfloor_unique.
        -- change (inject_Z (-1)) with (-1)%Q. lra.
        -- change (inject_Z (-1 + 1)) with 0%Q. lra.
  - assert (Qlt_bool q 0 = false) as ->.
    { apply not_true_is_false. rewrite Qlt_bool_iff. lra. }
    cbn [andb].
    assert (0 <= y)%Q as Hy0.
    { unfold y. apply Qle_shift_div_l; [done |]. lra. }
    apply (round_half_even_ge _ 0) in Hy0.
    rewrite Zle_Qle in Hy0. change (inject_Z 0) with 0%Q in Hy0.
    transitivity 0.
    + apply Qfloor_unique.
      * change (inject_Z 0) with 0%Q. nra.
      * change (inject_Z (0 + 1)) with 1%Q. nra.
    + symmetry. apply Qfloor_unique.
      * change (inject_Z 0) with 0%Q. lra.
      * change (inject_Z (0 + 1)) with 1%Q. lra.
Qed.


(** Rounding up. *)
Lemma inject_Z_sub (a b : Z) : (inject_Z (a - b) == inject_Z a - inject_Z b)%Q.
Proof. unfold Z.sub. by rewrite inject_Z_plus, inject_Z_opp. Qed.

Lemma Qceiling_le_iff q (z : Z) : Qceiling q <= z ↔ (q <= inject_Z z)%Q.
Proof.
  split.
  - intros H. eapply Qle_trans; [apply Qle_ceiling |]. by rewrite <- Zle_Qle.
  - intros H. rewrite <- (Qceiling_Z z). by apply Qceiling_resp_le.
Qed.

Lemma Qceiling_gt_iff q (z : Z) : z < Qceiling q ↔ (inject_Z z < q)%Q.
Proof.
  pose proof (Qceiling_le_iff q z) as H. split.
  - intros Hlt. apply Qnot_le_lt. intros Hle. apply H in Hle. lia.
  - intros Hlt. apply Z.nle_gt. intros Hle. apply H in Hle. lra.
Qed.

Lemma Qceiling_minus q (k : Z) : Qceiling (q - inject_Z k) = Qceiling q - k.
Proof.
  apply Z.le_antisymm.
  - apply Qceiling_le_iff. rewrite inject_Z_sub.
    pose proof (Qle_ceiling q). lra.
  - assert (Qceiling q <= Qceiling (q - inject_Z k) + k); [| lia].
    apply Qceiling_le_iff. rewrite inject_Z_plus.
    pose proof (Qle_ceiling (q - inject_Z k)). lra.
Qed.

Lemma Qceiling_min q (n : Z) :
  Qceiling (Qmin q (inject_Z n)) = Z.min (Qceiling q) n.
Proof.
  destruct (Q.min_spec q (inject_Z n)) as [[Hlt He] | [Hle He]];
    rewrite (Qceiling_comp _ _ He).
  - assert (Qceiling q <= n) by (apply Qceiling_le_iff; lra). lia.
  - rewrite Qceiling_Z.
    destruct (Z.le_gt_cases n (Qceiling q)); [lia |].
    assert (Qceiling q <= n - 1) as H1 by lia.
    apply Qceiling_le_iff in H1. rewrite inject_Z_sub in H1.
    change (inject_Z 1) with 1%Q in H1.
    assert (q == inject_Z n)%Q as H2 by lra. rewrite H2 in H1. lra.
Qed.

(** The quotient of a double by 64 is exact in the normal range; below it,
    only a negative quotient of at most half the smallest double is rounded
    across a whole number, to [-0]. *)
Lemma floor_div64 x :
  is_double x →
  Qfloor (nearest (x / 64)) = if underflows x then 0 else Qfloor (x / 64).
Proof.
  intros Hrep.
  assert (2 ^ (-1069) == 2 ^ (-1075) * 64)%Q as H64
    by (by rewrite <- (pow2_plus (-1075) 6)).
  pose proof (pow2_lt (-1069) (-1016) ltac:(lia)) as Hp.
  assert (Qlt_bool (x / 64) 0 = Qlt_bool x 0) as Hsign.
  { apply eq_true_iff_eq. rewrite !Qlt_bool_iff. split; intros H.
    - assert (x == x / 64 * 64)%Q as -> by field. lra.
    - apply Qlt_shift_div_r; lra. }
  assert (Qle_bool (- 2 ^ (-1075)) (x / 64) = Qle_bool (- 2 ^ (-1069)) x) as Hsize.
  { apply eq_true_iff_eq. rewrite !Qle_bool_iff. split; intros H.
    - assert (x == x / 64 * 64)%Q as -> by field. lra.
    - apply Qle_shift_div_l; lra. }
  destruct (Z.le_gt_cases (-1022) (binade (x / 64))) as [Hb | Hb].
  - rewrite (Qfloor_comp _ _ (nearest_div64 x Hrep Hb)).
    assert (underflows x = false) as ->; [| done].
    unfold underflows. apply andb_false_iff.
    destruct (Qlt_bool x 0) eqn:En; [right | by left].
    apply Qlt_bool_iff in En.
    apply not_true_is_false. rewrite Qle_bool_iff. intros Hle.
    assert (¬ (x == 0)%Q) as Hx by lra.
    rewrite (binade_div64 x Hx) in Hb.
    pose proof (binade_lower x Hx) as Hl.
    pose proof (pow2_le (-1016) (binade x) ltac:(lia)) as Hp'.
    rewrite (Qabs_neg x) in Hl by lra.
    revert Hp Hp' Hl Hle. generalize (2 ^ (-1069))%Q (2 ^ (-1016))%Q (2 ^ binade x)%Q.
    intros. lra.
  - rewrite (floor_subnormal _ Hb). unfold underflows. by rewrite Hsign, Hsize.
Qed.

End NumFacts.

(** ** The arbiter *)

Module PeerManagerFacts.
Import Js PeerManager PeerManagerSpec JsFacts NumFacts.
#[local] Open Scope nat_scope.

(** The fourth loop takes a prefix of the candidates. *)
Lemma below_take {A} (bound : Q) (l : list A) : ∀ i,
  below bound i l = take (Z.to_nat (Qceiling bound) - i) l.
Proof.
  induction l as [| s l IH]; intros i; cbn [below]; [by rewrite take_nil |].
  destruct (Qlt_bool (inject_Z (Z.of_nat i)) bound) eqn:E.
  - apply Qlt_bool_iff, Qceiling_gt_iff in E.
    rewrite IH.
    replace (Z.to_nat (Qceiling bound) - i) with (S (Z.to_nat (Qceiling bound) - S i))
      by lia.
    done.
  - assert (¬ (Z.of_nat i < Qceiling bound)%Z) as Hn.
    { intros H. apply Qceiling_gt_iff, Qlt_bool_iff in H. congruence. }
    by replace (Z.to_nat (Qceiling bound) - i) with 0 by lia.
Qed.

(** The slots that are left, counted in whole peers. *)
Lemma remainingSlots_none (maxPeers : Q) (k : nat) :
  Qeq_bool (Qmax (maxPeers - inject_Z (Z.of_nat k)) 0) 0
  = (Z.to_nat (Qceiling maxPeers) - k =? 0).
Proof.
  apply eq_true_iff_eq. rewrite Qeq_bool_iff, Nat.eqb_eq.
  pose proof (Qceiling_le_iff maxPeers (Z.of_nat k)) as Hc.
  destruct (Q.max_spec (maxPeers - inject_Z (Z.of_nat k)) 0) as [[Hlt ->] | [Hle ->]].
  - split; [intros _ | done].
    assert (Qceiling maxPeers <= Z.of_nat k)%Z; [| lia]. apply Hc. lra.
  - split.
    + intros He. assert (Qceiling maxPeers <= Z.of_nat k)%Z; [| lia].
      apply Hc. lra.
    + intros Hz. assert (Qceiling maxPeers <= Z.of_nat k)%Z as H by lia.
      apply Hc in H. lra.
Qed.

Lemma remainingSlots_take {A} (maxPeers : Q) (k : nat) (l : list A) :
  Qeq_bool (Qmax (maxPeers - inject_Z (Z.of_nat k)) 0) 0 = false →
  below (Qmin (Qmax (maxPeers - inject_Z (Z.of_nat k)) 0)
              (inject_Z (Z.of_nat (length l)))) 0 l
  = take (Z.to_nat (Qceiling maxPeers) - k) l.
Proof.
  intros Hfree. rewrite below_take, Qceiling_min, Nat.sub_0_r.
  assert (Qmax (maxPeers - inject_Z (Z.of_nat k)) 0
          == maxPeers - inject_Z (Z.of_nat k))%Q as Hmax.
  { destruct (Q.max_spec (maxPeers - inject_Z (Z.of_nat k)) 0) as [[Hlt He] | [Hle He]];
      [| done].
    rewrite He in Hfree. done. }
  rewrite (Qceiling_comp _ _ Hmax), Qceiling_minus.
  set (c := Qceiling maxPeers).
  destruct (Z.le_gt_cases (c - Z.of_nat k) (Z.of_nat (length l))) as [H | H].
  - rewrite Z.min_l by done. f_equal. lia.
  - rewrite Z.min_r by lia. rewrite Nat2Z.id.
    rewrite firstn_all. symmetry. apply take_ge. lia.
Qed.

Lemma classify_fold m thr l k d :
  NoDup l → (∀ p, p ∈ l → p ∉ k) →
  fold_left
    (λ '(keepConnected, toDisconnect) peerId,
       if negb (JsSet.has peerId (candidateIds m))
       then (keepConnected, toDisconnect ++ [peerId])
       else
         let d := default PositiveInfinity (distance <$> peerStates m !! peerId) in
         if number_le d (Finite thr)
         then (JsSet.add peerId keepConnected, toDisconnect)
         else (keepConnected, toDisconnect ++ [peerId]))
    l (k, d)
  = (k ++ filter (λ p, keeps m thr p = true) l,
     d ++ filter (λ p, keeps m thr p = false) l).
Proof.
  intros Hnd. revert k d. induction Hnd as [| p l Hp Hnd IH]; intros k d Hk.
  - simpl. by rewrite !app_nil_r.
  - simpl. unfold keeps at 2 4.
    destruct (JsSet.has p (candidateIds m)) eqn:Ec; simpl.
    + destruct (number_le _ _) eqn:El; simpl.
      * rewrite IH.
        -- rewrite filter_cons_True by (unfold keeps; by rewrite Ec, El).
           rewrite filter_cons_False by (unfold keeps; by rewrite Ec, El).
           unfold JsSet.add.
           assert (JsSet.has p k = false) as ->
             by (apply has_false, Hk; left).
           by rewrite <- app_assoc.
        -- intros q Hq Hq'. apply elem_of_add in Hq' as [-> | Hq']; [done |].
           eapply Hk; [by right | done].
      * rewrite IH.
        -- rewrite filter_cons_False by (unfold keeps; rewrite Ec, El; done).
           rewrite filter_cons_True by (unfold keeps; by rewrite Ec, El).
           by rewrite <- app_assoc.
        -- intros q Hq. apply Hk. by right.
    + rewrite IH.
      * rewrite filter_cons_False by (unfold keeps; rewrite Ec; done).
        rewrite filter_cons_True by (unfold keeps; by rewrite Ec).
        by rewrite <- app_assoc.
      * intros q Hq. apply Hk. by right.
Qed.

Lemma classify_spec m thr :
  NoDup (connectedPeers m) →
  classify m thr
  = (filter (λ p, keeps m thr p = true) (connectedPeers m),
     filter (λ p, keeps m thr p = false) (connectedPeers m)).
Proof.
  intros Hnd. unfold classify. rewrite classify_fold; [done | done |].
  intros p _ Hp. by apply not_elem_of_nil in Hp.
Qed.

Lemma drop_all_fold ds : ∀ c ev,
  NoDup ds → (∀ d, d ∈ ds → d ∈ c) →
  fold_left
    (λ '(connected, events) peerId,
       if JsSet.has peerId connected
       then (JsSet.delete peerId connected, events ++ [Disconnect peerId])
       else (connected, events))
    ds (c, ev)
  = (filter (λ p, p ∉ ds) c, ev ++ (Disconnect <$> ds)).
Proof.
  induction ds as [| d ds IH]; intros c ev Hnd Hin.
  - simpl. rewrite app_nil_r. f_equal. symmetry.
    induction c as [| a c IHc]; [done |].
    rewrite filter_cons_True by apply not_elem_of_nil.
    f_equal. apply IHc. intros ? H. by apply not_elem_of_nil in H.
  - apply NoDup_cons in Hnd as [Hd Hnd]. simpl.
    assert (JsSet.has d c = true) as -> by (apply has_true, Hin; left).
    rewrite IH; [| done |].
    + f_equal.
      * unfold JsSet.delete. rewrite list_filter_filter.
        apply list_filter_iff. intros p. rewrite elem_of_cons. tauto.
      * by rewrite <- app_assoc.
    + intros e He. apply elem_of_delete. split; [| apply Hin; by right].
      intros ->. done.
Qed.

Lemma filter_complement (l : list string) (f : string → bool) :
  filter (λ p, p ∉ filter (λ q, f q = false) l) l = filter (λ p, f p = true) l.
Proof.
  apply filter_ext_in. intros p Hp. rewrite list_elem_of_filter.
  destruct (f p); split; intros; try done.
  - intros [? _]. done.
  - exfalso. tauto.
Qed.

Lemma drop_all_spec (f : string → bool) (c : list string) :
  NoDup c →
  drop_all (filter (λ q, f q = false) c) c
  = (filter (λ p, f p = true) c, Disconnect <$> filter (λ q, f q = false) c).
Proof.
  intros Hnd. unfold drop_all. rewrite drop_all_fold.
  - by rewrite filter_complement.
  - by apply NoDup_filter.
  - intros d Hd. by apply list_elem_of_filter in Hd as [_ ?].
Qed.

Lemma collect_fold m thr kept l : ∀ acc,
  fold_left
    (λ candidates peerId,
       if JsSet.has peerId kept || JsSet.has peerId kept
       then candidates
       else match peerStates m !! peerId with
            | None => candidates
            | Some state =>
                if number_gt (distance state) (Finite thr)
                then candidates
                else candidates ++ [state]
            end)
    l acc
  = acc ++ omap (admissible m thr kept) l.
Proof.
  induction l as [| p l IH]; intros acc; simpl.
  - by rewrite app_nil_r.
  - rewrite IH. unfold admissible at 2, number_gt.
    rewrite orb_diag.
    destruct (JsSet.has p kept); [done |].
    destruct (peerStates m !! p) as [st |]; [| done].
    destruct (number_le _ _); simpl; [| done].
    by rewrite <- app_assoc.
Qed.

Lemma collect_spec m thr kept :
  collect m thr kept kept = omap (admissible m thr kept) (candidateIds m).
Proof. unfold collect. by rewrite collect_fold. Qed.

Lemma connect_chosen_spec chosen : ∀ c ev,
  fold_left
    (λ '(connected, events) state,
       (JsSet.add (id state) connected, events ++ [Connect (id state)]))
    chosen (c, ev)
  = (connect_all chosen c, ev ++ (Connect <$> (id <$> chosen))).
Proof.
  induction chosen as [| s chosen IH]; intros c ev; simpl.
  - by rewrite app_nil_r.
  - unfold connect_all in *. simpl. rewrite IH. by rewrite <- app_assoc.
Qed.

Lemma connect_all_NoDup chosen : ∀ c, NoDup c → NoDup (connect_all chosen c).
Proof.
  induction chosen as [| s chosen IH]; intros c Hc; [done |].
  apply IH. by apply add_NoDup.
Qed.

Lemma connect_all_length chosen : ∀ c,
  length (connect_all chosen c) ≤ length c + length chosen.
Proof.
  induction chosen as [| s chosen IH]; intros c; simpl; [lia |].
  unfold connect_all in *. simpl.
  etransitivity; [apply IH |]. pose proof (length_add (id s) c). lia.
Qed.

Lemma elem_of_connect_all chosen : ∀ c p,
  p ∈ connect_all chosen c ↔ p ∈ c ∨ p ∈ id <$> chosen.
Proof.
  induction chosen as [| s chosen IH]; intros c p.
  - simpl. rewrite elem_of_nil. tauto.
  - unfold connect_all in *. simpl. rewrite IH, elem_of_add, elem_of_cons. tauto.
Qed.

Lemma number_le_refl a : number_le a a = true.
Proof. destruct a; simpl; [| done]. apply Qle_bool_iff. lra. Qed.

Lemma number_le_trans a b c :
  number_le a b = true → number_le b c = true → number_le a c = true.
Proof.
  destruct a, b, c; simpl; try done.
  rewrite !Qle_bool_iff. lra.
Qed.

Lemma number_le_total a b : number_le a b = false → number_le b a = true.
Proof.
  destruct a, b; simpl; try done.
  intros H. apply Qle_bool_iff.
  destruct (Qlt_le_dec q0 q) as [Hlt | Hle]; [lra |].
  apply Qle_bool_iff in Hle. congruence.
Qed.

Lemma sort_insert_perm s l : sort_insert s l ≡ₚ s :: l.
Proof.
  induction l as [| t l IH]; simpl; [done |].
  destruct (number_le _ _); [| done].
  rewrite IH. apply Permutation_swap.
Qed.

Lemma sort_insert_sorted s l :
  StronglySorted closer l → StronglySorted closer (sort_insert s l).
Proof.
  induction 1 as [| t l Hl IH Ht]; simpl.
  - repeat constructor.
  - destruct (number_le (distance t) (distance s)) eqn:E.
    + constructor; [done |].
      rewrite sort_insert_perm. constructor; [done | done].
    + apply number_le_total in E.
      constructor; [by constructor |].
      constructor; [done |].
      eapply Forall_impl; [apply Ht |]. intros u Hu.
      unfold closer in *. by eapply number_le_trans.
Qed.

Lemma sort_fold l : ∀ acc,
  StronglySorted closer acc →
  fold_left (λ acc s, sort_insert s acc) l acc ≡ₚ acc ++ l
  ∧ StronglySorted closer (fold_left (λ acc s, sort_insert s acc) l acc).
Proof.
  induction l as [| s l IH]; intros acc Hacc; simpl.
  - by rewrite app_nil_r.
  - destruct (IH (sort_insert s acc)) as [Hp Hs];
      [by apply sort_insert_sorted |].
    split; [| done].
    rewrite Hp, sort_insert_perm. simpl. apply Permutation_middle.
Qed.

Lemma sort_by_distance_perm l : sort_by_distance l ≡ₚ l.
Proof. unfold sort_by_distance. apply (sort_fold l []). constructor. Qed.

Lemma sort_by_distance_sorted l : StronglySorted closer (sort_by_distance l).
Proof. unfold sort_by_distance. apply (sort_fold l []). constructor. Qed.

Lemma evaluate_disposed now m : disposed m = true → evaluate now m = (m, []).
Proof. intros H. unfold evaluate. by rewrite H. Qed.

Lemma evaluate_spec now m :
  disposed m = false → NoDup (connectedPeers m) →
  (evaluate now m).2 = (Disconnect <$> dropped m) ++ (Connect <$> (id <$> chosen m))
  ∧ connectedPeers (evaluate now m).1 = connect_all (chosen m) (kept m)
  ∧ options (evaluate now m).1 = options m
  ∧ candidateIds (evaluate now m).1 = candidateIds m
  ∧ disposed (evaluate now m).1 = false
  ∧ evaluateTimer (evaluate now m).1 = evaluateTimer m
  ∧ localPosition (evaluate now m).1 = localPosition m
  ∧ (∀ p st, peerStates (evaluate now m).1 !! p = Some st → peerStates m !! p = Some st).
Proof.
  intros Hd Hnd. unfold evaluate. rewrite Hd.
  rewrite (classify_spec _ _ Hnd).
  rewrite (drop_all_spec _ _ Hnd).
  fold (disconnectThreshold m). fold (kept m). fold (dropped m).
  destruct (Qeq_bool _ 0) eqn:Es.
  - rewrite remainingSlots_none in Es. fold (cap m) in Es.
    apply Nat.eqb_eq in Es. unfold chosen. rewrite Es. simpl.
    by rewrite app_nil_r.
  - rewrite collect_spec. fold (candidates m).
    rewrite (remainingSlots_take _ _ _ Es). fold (cap m). fold (chosen m).
    unfold connect_chosen. rewrite connect_chosen_spec. simpl.
    split_and!; try done.
    intros p st Hp. by apply map_lookup_filter_Some in Hp as [? _].
Qed.

Lemma pres_refl m : pres m m.
Proof. by repeat split. Qed.

Lemma pres_trans m1 m2 m3 : pres m1 m2 → pres m2 m3 → pres m1 m3.
Proof.
  intros (?&?&?&?&?) (?&?&?&?&?). repeat split; try congruence. auto.
Qed.

Lemma pres_wf m m' : pres m m' → wf m → wf m'.
Proof.
  intros (Ho&Hc&Hd&Hk&Hi) [? ? ? ? ?].
  constructor; unfold cap in *; rewrite ?Ho, ?Hc, ?Hd, ?Hk; auto.
Qed.

Lemma pres_setDistance now p d e m : pres m (setDistance now p d e m).
Proof.
  repeat split; try done. intros Hi q st. unfold setDistance. simpl.
  destruct (decide (p = q)) as [<- | Hne].
  - rewrite lookup_insert_eq. intros [= <-]. simpl.
    destruct (peerStates m !! p) as [ex |] eqn:E; [by apply Hi | done].
  - rewrite lookup_insert_ne by done. apply Hi.
Qed.

Lemma pres_scheduleEvaluate m : pres m (scheduleEvaluate m).
Proof.
  unfold scheduleEvaluate.
  destruct (disposed m); [apply pres_refl |].
  destruct (evaluateTimer m); [apply pres_refl |]. by repeat split.
Qed.

Lemma pres_updatePeerDistance now p d m : pres m (updatePeerDistance now p d m).
Proof.
  unfold updatePeerDistance.
  eapply pres_trans; [apply pres_setDistance | apply pres_scheduleEvaluate].
Qed.

Lemma pres_updatePeerPosition `{Platform} now p v m :
  pres m (updatePeerPosition now p v m).
Proof.
  unfold updatePeerPosition. destruct v as [v |].
  - eapply pres_trans; [| apply pres_scheduleEvaluate].
    destruct (localPosition _);
      (eapply pres_trans; [| apply pres_setDistance]); by repeat split.
  - eapply pres_trans; [| apply pres_scheduleEvaluate].
    destruct (peerStates _ !! p);
      [eapply pres_trans; [| apply pres_setDistance] |]; by repeat split.
Qed.

Lemma pres_updateLocalPosition `{Platform} now v m :
  pres m (updateLocalPosition now v m).
Proof.
  unfold updateLocalPosition.
  eapply pres_trans; [| apply pres_scheduleEvaluate].
  eapply pres_trans with (set_localPosition (Some v) m); [by repeat split |].
  generalize (set_localPosition (Some v) m). intros m1.
  apply (map_fold_weak_ind (λ r _, pres m1 r)); [apply pres_refl |].
  intros i x mp r _ Hr. eapply pres_trans; [apply Hr | apply pres_setDistance].
Qed.

Lemma pres_fold {A} (f : VoicePeerManager → A → VoicePeerManager) (l : list A) :
  (∀ m a, pres m (f m a)) → ∀ m, pres m (fold_left f l m).
Proof.
  intros Hf. induction l as [| a l IH]; intros m; simpl; [apply pres_refl |].
  eapply pres_trans; [apply Hf | apply IH].
Qed.

Lemma fold_add_NoDup (l : list string) : ∀ c,
  NoDup c → NoDup (fold_left (λ acc p, JsSet.add p acc) l c).
Proof.
  induction l as [| p l IH]; intros c Hc; simpl; [done |].
  apply IH. by apply add_NoDup.
Qed.

Lemma fold_delete_NoDup (l : list string) : ∀ c,
  NoDup c → NoDup (fold_left (λ acc p, JsSet.delete p acc) l c).
Proof.
  induction l as [| p l IH]; intros c Hc; simpl; [done |].
  apply IH. by apply delete_NoDup.
Qed.

Lemma applyPeerDiff_frame `{Platform} now diff m :
  options (applyPeerDiff now diff m) = options m
  ∧ connectedPeers (applyPeerDiff now diff m) = connectedPeers m
  ∧ disposed (applyPeerDiff now diff m) = disposed m
  ∧ (ids_agree m → ids_agree (applyPeerDiff now diff m))
  ∧ (NoDup (candidateIds m) → NoDup (candidateIds (applyPeerDiff now diff m))).
Proof.
  unfold applyPeerDiff.
  match goal with
  | |- context [scheduleEvaluate (fold_left ?f4 ?l4 (fold_left ?f3 ?l3
                  (fold_left ?f2 ?l2 ?m1)))] =>
      assert (pres m1 (scheduleEvaluate (fold_left f4 l4 (fold_left f3 l3
                  (fold_left f2 l2 m1))))) as Hp;
      [| assert (options m1 = options m ∧ connectedPeers m1 = connectedPeers m
                 ∧ disposed m1 = disposed m ∧ peerStates m1 = peerStates m
                 ∧ (NoDup (candidateIds m) → NoDup (candidateIds m1))) as Hm1]
  end.
  - eapply pres_trans; [| apply pres_scheduleEvaluate].
    eapply pres_trans; [| apply pres_fold; intros; apply pres_updatePeerPosition].
    eapply pres_trans; [| apply pres_fold; intros ? [? ?]; apply pres_updatePeerPosition].
    apply pres_fold. intros ? [? ?]. apply pres_updatePeerDistance.
  - destruct (peers diff); simpl; split_and!; try done; intros Hnd.
    + apply fold_add_NoDup. by apply NoDup_filter.
    + apply fold_delete_NoDup. by apply fold_add_NoDup.
  - destruct Hp as (Ho&Hc&Hd&Hk&Hi). destruct Hm1 as (Ho'&Hc'&Hd'&Hs'&Hk').
    split_and!; try congruence.
    + intros Hm. apply Hi. unfold ids_agree. by rewrite Hs'.
    + intros Hnd. rewrite Hk. auto.
Qed.

Lemma wf_new o : wf (new o).
Proof.
  constructor; simpl;
    [done | apply NoDup_nil_2 | apply NoDup_nil_2 | | apply Nat.le_0_l].
  intros p st Hp. simpl in Hp. by apply lookup_empty_Some in Hp.
Qed.

Lemma wf_removePeer p m : wf m → wf (removePeer p m).1.
Proof.
  intros [Ha Hc Hk Hi Hcap]. unfold removePeer. simpl.
  assert (ids_agree
            {| options := options m;
               candidateIds := JsSet.delete p (candidateIds m);
               peerStates := delete p (peerStates m);
               connectedPeers := connectedPeers m;
               localPosition := localPosition m;
               peerPositions := delete p (peerPositions m);
               evaluateTimer := evaluateTimer m; disposed := disposed m |}) as Hi'.
  { intros q st. simpl. intros Hq. apply lookup_delete_Some in Hq as [_ Hq].
    by apply Hi. }
  destruct (JsSet.has p (connectedPeers m)); constructor; simpl; try done;
    try (by apply delete_NoDup).
  pose proof (length_delete p (connectedPeers m)). unfold cap in *. simpl. lia.
Qed.

Lemma length_chosen m :
  length (chosen m) ≤ cap m - length (kept m).
Proof. unfold chosen. rewrite length_take. lia. Qed.

Lemma length_kept m : length (kept m) ≤ length (connectedPeers m).
Proof. apply length_filter. Qed.

Lemma wf_evaluate now m : wf m → wf (evaluate now m).1.
Proof.
  intros [Ha Hc Hk Hi Hcap].
  destruct (evaluate_spec now m Ha Hc) as (_&Hc'&Ho'&Hk'&Hd'&_&_&Hs').
  constructor; unfold cap; rewrite ?Hc', ?Ho', ?Hk'; fold (cap m); try done.
  - apply connect_all_NoDup. by apply NoDup_filter.
  - intros p st Hp. by apply Hi, Hs'.
  - pose proof (connect_all_length (chosen m) (kept m)).
    pose proof (length_chosen m). pose proof (length_kept m). lia.
Qed.

Lemma wf_timerFires now m : wf m → wf (timerFires now m).1.
Proof.
  intros Hm. unfold timerFires. destruct (evaluateTimer m); [| done].
  apply wf_evaluate. by destruct Hm.
Qed.

Lemma wf_step `{Platform} now op m : wf m → wf (step now op m).1.
Proof.
  intros Hm. destruct op; simpl.
  - eapply pres_wf; [apply pres_updateLocalPosition | done].
  - eapply pres_wf; [apply pres_updatePeerPosition | done].
  - eapply pres_wf; [apply pres_updatePeerDistance | done].
  - destruct (applyPeerDiff_frame now diff m) as (Ho&Hc&Hd&Hi&Hk).
    destruct Hm. constructor; unfold cap in *; rewrite ?Ho, ?Hc, ?Hd; auto.
  - by apply wf_removePeer.
  - by apply wf_timerFires.
Qed.

Lemma run_app `{Platform} ops1 ops2 m :
  run (ops1 ++ ops2) m
  = ((run ops2 (run ops1 m).1).1, (run ops1 m).2 ++ (run ops2 (run ops1 m).1).2).
Proof.
  revert m. induction ops1 as [| [now op] ops1 IH]; intros m; simpl.
  - by destruct (run ops2 m).
  - destruct (step now op m) as [m1 e1]. rewrite IH.
    destruct (run ops1 m1) as [m2 e2]. simpl.
    destruct (run ops2 m2) as [m3 e3]. simpl. by rewrite app_assoc.
Qed.

Lemma wf_run `{Platform} ops : ∀ m, wf m → wf (run ops m).1.
Proof.
  induction ops as [| [now op] ops IH]; intros m Hm; simpl; [done |].
  pose proof (wf_step now op m Hm) as H1.
  destruct (step now op m) as [m1 e1]. simpl in H1.
  specialize (IH m1 H1). by destruct (run ops m1).
Qed.

Lemma options_step `{Platform} now op m :
  wf m → options (step now op m).1 = options m.
Proof.
  intros Hm. destruct op; simpl.
  - apply pres_updateLocalPosition.
  - apply pres_updatePeerPosition.
  - apply pres_updatePeerDistance.
  - apply applyPeerDiff_frame.
  - unfold removePeer. simpl. by destruct (JsSet.has _ _).
  - unfold timerFires. destruct (evaluateTimer m); [| done].
    destruct Hm as [Ha Hc _ _ _].
    by destruct (evaluate_spec now (set_evaluateTimer false m) Ha Hc)
      as (_&_&->&_).
Qed.

Lemma options_run `{Platform} ops : ∀ m,
  wf m → options (run ops m).1 = options m.
Proof.
  induction ops as [| [now op] ops IH]; intros m Hm; simpl; [done |].
  pose proof (wf_step now op m Hm) as H1.
  pose proof (options_step now op m Hm) as H2.
  destruct (step now op m) as [m1 e1]. simpl in *.
  specialize (IH m1 H1). destruct (run ops m1). simpl in *. congruence.
Qed.

Lemma cap_whole m (n : nat) :
  (maxPeers (options m) == inject_Z (Z.of_nat n))%Q → cap m = n.
Proof.
  intros Hn. unfold cap. by rewrite (Qceiling_comp _ _ Hn), Qceiling_Z, Nat2Z.id.
Qed.

(** C5, as amended. With a cap that is a whole number [n] of peers: however
    the arbiter is driven, at most [n] peers are connected (the connected
    set has no duplicates, so its length is its size), and an evaluation
    pass announces its disconnects first and then admits no more peers than
    [n] less the peers still connected after those disconnects. *)
Theorem arbiter_cap `{Platform} (o : VoicePeerManagerOptions)
    (ops : list (Z * Op)) (now : Z) (n : nat) :
  (default 8 (opt_maxPeers o) == inject_Z (Z.of_nat n))%Q →
  let m := (run ops (new o)).1 in
  NoDup (connectedPeers m)
  ∧ length (connectedPeers m) ≤ n
  ∧ maxPeers (options m) = default 8%Q (opt_maxPeers o)
  ∧ ∃ gone joined,
      (evaluate now m).2 = (Disconnect <$> gone) ++ (Connect <$> joined)
      ∧ gone ⊆ connectedPeers m ∧ NoDup gone
      ∧ length joined ≤ n - (length (connectedPeers m) - length gone).
Proof.
  intros Hn m.
  assert (wf m) as Hm by apply wf_run, wf_new.
  assert (options m = options (new o)) as Ho by apply options_run, wf_new.
  assert (cap m = n) as Hcapn by (apply cap_whole; by rewrite Ho).
  destruct Hm as [Ha Hc Hk Hi Hcap]. rewrite Hcapn in Hcap.
  split_and!; try done; [by rewrite Ho |].
  destruct (evaluate_spec now m Ha Hc) as (He&_).
  exists (dropped m), (id <$> chosen m). split_and!; [done | | |].
  - intros p Hp. by apply list_elem_of_filter in Hp as [_ ?].
  - by apply NoDup_filter.
  - rewrite length_fmap.
    pose proof (length_chosen m) as Hch. rewrite Hcapn in Hch.
    assert (length (kept m) + length (dropped m) = length (connectedPeers m)).
    { unfold kept, dropped.
      rewrite <- (Permutation_length
                    (filter_app_complement
                       (λ p, keeps m (disconnectThreshold m) p = true)
                       (connectedPeers m))).
      rewrite length_app. f_equal. f_equal.
      apply list_filter_iff. intros p. by destruct (keeps _ _ _). }
    lia.
Qed.

(** Two slots and three peers nearby: two are connected. *)
Lemma arbiter_cap_witness :
  length (connectedPeers (run (H := Scenario.platform) Scenario.three_near_ops
                              (new Scenario.two_slots)).1) ≤ 2.
Proof.
  refine (proj1 (proj2 (arbiter_cap (H := Scenario.platform) Scenario.two_slots
                          Scenario.three_near_ops 0 2 _))).
  reflexivity.
Defined.

(** C5 as stated fails when [maxPeers] is not a count of peers. With
    [maxPeers = 2.5] and three peers nearby, the admission loop runs for
    [i = 0, 1, 2]: three peers are connected, and the next pass keeps them.
    With [maxPeers = -1] nobody is ever connected, and the number of connected
    peers, zero, is above the cap all the same. *)
Lemma cap_is_exceeded :
  let m := (run (H := Scenario.platform) Scenario.three_near_ops
                (new Scenario.fractional_cap)).1 in
  let m' := (run (H := Scenario.platform) Scenario.three_near_ops
                 (new Scenario.negative_cap)).1 in
  ((maxPeers (options m) == 5 # 2)%Q
   ∧ connectedPeers m = ["p1"; "p2"; "p3"]
   ∧ connectedPeers (evaluate 500 m).1 = ["p1"; "p2"; "p3"]
   ∧ ¬ (inject_Z (Z.of_nat (length (connectedPeers m)))
        <= maxPeers (options m))%Q)
  ∧ ((maxPeers (options m') == -1)%Q
     ∧ connectedPeers m' = []
     ∧ ¬ (inject_Z (Z.of_nat (length (connectedPeers m')))
          <= maxPeers (options m'))%Q).
Proof.
  split; split_and!; try (vm_compute; reflexivity).
  - vm_compute. intros Hle. by apply Hle.
  - vm_compute. intros Hle. by apply Hle.
Qed.

(** Facts about the sorted admissible candidates. *)
Lemma elem_of_candidates m s :
  s ∈ candidates m ↔
  (∃ p, p ∈ candidateIds m
        ∧ admissible m (connectRadius (options m)) (kept m) p = Some s).
Proof.
  unfold candidates. rewrite sort_by_distance_perm, list_elem_of_omap. done.
Qed.

Lemma admissible_Some m thr c p s :
  admissible m thr c p = Some s ↔
  (p ∉ c) ∧ peerStates m !! p = Some s ∧ number_le (distance s) (Finite thr) = true.
Proof.
  unfold admissible. destruct (JsSet.has p c) eqn:E.
  - apply has_true in E. split; [done | tauto].
  - apply has_false in E. destruct (peerStates m !! p) as [st |]; [| split; [done | intros (?&?&?); done]].
    destruct (number_le _ _) eqn:El; split.
    + intros [= ->]. done.
    + intros (?&[= ->]&?). done.
    + done.
    + intros (?&[= ->]&?). congruence.
Qed.

Lemma candidates_ids_NoDup m :
  ids_agree m → NoDup (candidateIds m) → NoDup (id <$> candidates m).
Proof.
  intros Hi Hk. unfold candidates. rewrite sort_by_distance_perm.
  induction Hk as [| p l Hp Hk IH]; simpl; [apply NoDup_nil_2 |].
  destruct (admissible _ _ _ p) as [s |] eqn:E; [| done].
  simpl. apply NoDup_cons. split; [| done].
  apply admissible_Some in E as (_&Hs&_). rewrite (Hi _ _ Hs).
  intros Hin. apply list_elem_of_fmap in Hin as (t&Ht&Hin).
  apply list_elem_of_omap in Hin as (q&Hq&Hadm).
  apply admissible_Some in Hadm as (_&Hqt&_).
  rewrite (Hi _ _ Hqt) in Ht. by subst.
Qed.

Lemma chosen_sublist m : chosen m `sublist_of` candidates m.
Proof. unfold chosen. apply sublist_take. Qed.

Lemma elem_of_chosen m s :
  ids_agree m → s ∈ chosen m →
  peerStates m !! id s = Some s ∧ id s ∈ candidateIds m ∧ (id s ∉ kept m)
  ∧ number_le (distance s) (Finite (connectRadius (options m))) = true.
Proof.
  intros Hi Hs.
  assert (s ∈ candidates m) as Hc
    by (eapply elem_of_sublist; [done | apply chosen_sublist]).
  apply elem_of_candidates in Hc as (p&Hp&Hadm).
  apply admissible_Some in Hadm as (Hk&Hst&Hle).
  rewrite (Hi _ _ Hst). done.
Qed.

Lemma chosen_ids_NoDup m :
  ids_agree m → NoDup (candidateIds m) → NoDup (id <$> chosen m).
Proof.
  intros Hi Hk. eapply sublist_NoDup; [by apply candidates_ids_NoDup |].
  apply fmap_sublist, chosen_sublist.
Qed.

Lemma connect_all_disjoint chosen : ∀ c,
  NoDup (id <$> chosen) → (∀ s, s ∈ chosen → id s ∉ c) →
  connect_all chosen c = c ++ (id <$> chosen).
Proof.
  induction chosen as [| s chosen IH]; intros c Hnd Hc; simpl.
  - by rewrite app_nil_r.
  - unfold connect_all in *. simpl. simpl in Hnd.
    apply NoDup_cons in Hnd as [Hs Hnd].
    unfold JsSet.add at 2.
    assert (JsSet.has (id s) c = false) as -> by (apply has_false, Hc; left).
    rewrite IH; [by rewrite <- app_assoc | done |].
    intros t Ht. rewrite elem_of_app, list_elem_of_singleton.
    intros [Hin | Heq].
    + eapply Hc; [right; exact Ht | done].
    + apply Hs. rewrite <- Heq. by apply list_elem_of_fmap_2.
Qed.

Lemma connected_after now m :
  wf m →
  connectedPeers (evaluate now m).1 = kept m ++ (id <$> chosen m).
Proof.
  intros [Ha Hc Hk Hi Hcap].
  destruct (evaluate_spec now m Ha Hc) as (_&->&_).
  apply connect_all_disjoint; [by apply chosen_ids_NoDup |].
  intros s Hs. by apply elem_of_chosen in Hs as (_&_&?&_).
Qed.

Lemma left_out now m q st :
  wf m → q ∈ candidateIds m → peerStates m !! q = Some st →
  number_le (distance st) (Finite (connectRadius (options m))) = true →
  q ∉ connectedPeers (evaluate now m).1 →
  length (connectedPeers (evaluate now m).1) = cap m
  ∧ Forall (λ s, closer s st) (chosen m).
Proof.
  intros Hm Hq Hst Hle Hout. rewrite (connected_after now m Hm) in *.
  destruct Hm as [Ha Hc Hk Hi Hcap].
  apply not_elem_of_app in Hout as [Hkept Hch].
  assert (st ∈ candidates m) as Hcand.
  { apply elem_of_candidates. exists q. split; [done |].
    by apply admissible_Some. }
  assert (id st = q) as Hid by (by apply Hi).
  assert (st ∉ chosen m) as Hnot.
  { intros Hin. apply Hch. rewrite <- Hid. by apply list_elem_of_fmap_2. }
  pose proof (sort_by_distance_sorted
    (omap (admissible m (connectRadius (options m)) (kept m)) (candidateIds m)))
    as Hsorted.
  fold (candidates m) in Hsorted.
  set (n := cap m - length (kept m)) in *.
  rewrite <- (take_drop n (candidates m)) in Hcand, Hsorted.
  fold (chosen m) in Hcand, Hsorted. unfold chosen in Hnot. fold n in Hnot.
  apply elem_of_app in Hcand as [Hcand | Hcand]; [done |].
  assert (n < length (candidates m)) as Hlen.
  { destruct (decide (n < length (candidates m))); [done |].
    rewrite drop_ge in Hcand by lia. by apply elem_of_nil in Hcand. }
  split.
  - rewrite length_app, length_fmap. unfold chosen. fold n.
    rewrite length_take. pose proof (length_kept m). unfold n in *. lia.
  - apply Forall_forall. intros s Hs. unfold chosen. fold n.
    eapply StronglySorted_app_1_elem_of; [exact Hsorted | | done]. done.
Qed.

Lemma keeps_false m thr p :
  keeps m thr p = false ↔
  p ∉ candidateIds m ∨ number_gt (knownDistance m p) (Finite thr) = true.
Proof.
  unfold keeps, number_gt, knownDistance.
  destruct (JsSet.has p (candidateIds m)) eqn:E; simpl.
  - apply has_true in E. destruct (number_le _ _); simpl; split; try done.
    + intros [? | ?]; done.
    + by right.
  - apply has_false in E. split; [by left | done].
Qed.

Lemma chosen_sorted m : StronglySorted closer (chosen m).
Proof.
  pose proof (sort_by_distance_sorted
    (omap (admissible m (connectRadius (options m)) (kept m)) (candidateIds m)))
    as Hsorted.
  fold (candidates m) in Hsorted.
  rewrite <- (take_drop (cap m - length (kept m)) (candidates m))
    in Hsorted.
  by apply StronglySorted_app_1_l in Hsorted.
Qed.

Lemma kept_alt m :
  kept m = filter (λ p, p ∉ dropped m) (connectedPeers m).
Proof. unfold kept, dropped. by rewrite filter_complement. Qed.

Lemma removePeer_spec p m :
  (removePeer p m).2
  = (if bool_decide (p ∈ connectedPeers m) then [Disconnect p] else [])
  ∧ connectedPeers (removePeer p m).1 = JsSet.delete p (connectedPeers m)
  ∧ evaluateTimer (removePeer p m).1 = evaluateTimer m.
Proof.
  unfold removePeer. simpl. unfold JsSet.has.
  destruct (bool_decide (p ∈ connectedPeers m)) eqn:E; simpl; [done |].
  split_and!; try done.
  apply bool_decide_eq_false in E. unfold JsSet.delete.
  symmetry. induction (connectedPeers m) as [| a l IH]; [done |].
  apply not_elem_of_cons in E as [? ?].
  rewrite filter_cons_True by done. f_equal. by apply IH.
Qed.

(** C8, as amended. An evaluation pass first announces the peers it drops —
    the connected peers that are no longer candidates or whose distance
    exceeds the disconnect threshold — and then admits the admissible
    candidates closest first, in ascending order of distance: a candidate
    within the connect radius is left out only when the cap is reached (the
    connected peers then number [maxPeers], rounded up when it is not
    whole), and then nobody farther was joined.  [removePeer] announces its disconnect
    at once, admits nobody and arms no timer; the slot it frees is filled by
    the evaluation pass that follows. *)
Theorem arbiter_slot_fill `{Platform} (o : VoicePeerManagerOptions)
    (ops : list (Z * Op)) (now : Z) :
  let m := (run ops (new o)).1 in
  let m' := (evaluate now m).1 in
  (∃ gone joined,
     (evaluate now m).2 = (Disconnect <$> gone) ++ (Connect <$> (id <$> joined))
     ∧ (∀ p, p ∈ gone ↔
             p ∈ connectedPeers m
             ∧ (p ∉ candidateIds m
                ∨ number_gt (knownDistance m p)
                            (Finite (disconnectThreshold m)) = true))
     ∧ connectedPeers m'
       = filter (λ p, p ∉ gone) (connectedPeers m) ++ (id <$> joined)
     ∧ StronglySorted closer joined
     ∧ (∀ s, s ∈ joined →
             peerStates m !! id s = Some s ∧ id s ∈ candidateIds m
             ∧ number_le (distance s) (Finite (connectRadius (options m))) = true)
     ∧ (∀ q st, q ∈ candidateIds m → peerStates m !! q = Some st →
                number_le (distance st) (Finite (connectRadius (options m))) = true →
                q ∉ connectedPeers m' →
                length (connectedPeers m') = cap m
                ∧ Forall (λ s, closer s st) joined))
  ∧ (∀ p, (removePeer p m).2
          = (if bool_decide (p ∈ connectedPeers m) then [Disconnect p] else [])
          ∧ evaluateTimer (removePeer p m).1 = evaluateTimer m
          ∧ saturated (evaluate now (removePeer p m).1).1).
Proof.
  intros m m'.
  assert (wf m) as Hm by apply wf_run, wf_new.
  split.
  - exists (dropped m), (chosen m).
    pose proof Hm as [Ha Hc Hk Hi Hcap].
    destruct (evaluate_spec now m Ha Hc) as (He&_).
    split_and!.
    + done.
    + intros p. unfold dropped. rewrite list_elem_of_filter, keeps_false. tauto.
    + unfold m'. rewrite (connected_after now m Hm). by rewrite kept_alt.
    + apply chosen_sorted.
    + intros s Hs. apply elem_of_chosen in Hs; [tauto | done].
    + intros q st. by apply left_out.
  - intros p. destruct (removePeer_spec p m) as (He&_&Ht).
    split_and!; [done | done |].
    pose proof (wf_removePeer p m Hm) as Hr.
    set (r := (removePeer p m).1) in *.
    destruct (evaluate_spec now r) as (_&_&Ho&Hk&_&_&_&Hs);
      [by destruct Hr | by destruct Hr |].
    assert (cap (evaluate now r).1 = cap r) as Hcap
      by (unfold cap; by rewrite Ho).
    intros q st Hq Hst Hle. rewrite Ho, Hk in *.
    destruct (decide (q ∈ connectedPeers (evaluate now r).1)) as [? | Hout];
      [by left | right].
    rewrite Hcap. eapply left_out; eauto.
Qed.

Lemma about_disconnects p l :
  NoDup l →
  events_about p (Disconnect <$> l)
  = if bool_decide (p ∈ l) then [Disconnect p] else [].
Proof.
  unfold events_about. induction 1 as [| a l Ha Hl IH]; [done |].
  rewrite fmap_cons. destruct (decide (a = p)) as [-> | Hne].
  - rewrite filter_cons_True by (by right). rewrite IH.
    rewrite (bool_decide_eq_false_2 (p ∈ l)) by done.
    by rewrite bool_decide_eq_true_2 by (by left).
  - rewrite filter_cons_False by (intros [? | ?]; congruence). rewrite IH.
    rewrite (bool_decide_ext (p ∈ a :: l) (p ∈ l)); [done |].
    rewrite elem_of_cons. split; [intros [? | ?]; [congruence | done] | auto].
Qed.

Lemma about_connects p l :
  NoDup l →
  events_about p (Connect <$> l)
  = if bool_decide (p ∈ l) then [Connect p] else [].
Proof.
  unfold events_about. induction 1 as [| a l Ha Hl IH]; [done |].
  rewrite fmap_cons. destruct (decide (a = p)) as [-> | Hne].
  - rewrite filter_cons_True by (by left). rewrite IH.
    rewrite (bool_decide_eq_false_2 (p ∈ l)) by done.
    by rewrite bool_decide_eq_true_2 by (by left).
  - rewrite filter_cons_False by (intros [? | ?]; congruence). rewrite IH.
    rewrite (bool_decide_ext (p ∈ a :: l) (p ∈ l)); [done |].
    rewrite elem_of_cons. split; [intros [? | ?]; [congruence | done] | auto].
Qed.

Lemma about_pass now m p :
  wf m →
  events_about p (evaluate now m).2
  = (if bool_decide (p ∈ dropped m) then [Disconnect p] else [])
    ++ (if bool_decide (p ∈ id <$> chosen m) then [Connect p] else [])
  ∧ (p ∈ connectedPeers (evaluate now m).1 ↔ p ∈ kept m ∨ p ∈ id <$> chosen m).
Proof.
  intros Hm. rewrite (connected_after now m Hm).
  destruct Hm as [Ha Hc Hk Hi Hcap].
  destruct (evaluate_spec now m Ha Hc) as (->&_).
  split; [| apply elem_of_app].
  unfold events_about. rewrite filter_app.
  fold (events_about p (Disconnect <$> dropped m)).
  fold (events_about p (Connect <$> (id <$> chosen m))).
  rewrite about_disconnects by (by apply NoDup_filter).
  by rewrite about_connects by (by apply chosen_ids_NoDup).
Qed.

Lemma elem_of_chosen_ids m p :
  ids_agree m → p ∈ id <$> chosen m →
  p ∈ candidateIds m ∧ (p ∉ kept m)
  ∧ number_le (knownDistance m p) (Finite (connectRadius (options m))) = true.
Proof.
  intros Hi Hp. apply list_elem_of_fmap in Hp as (s&->&Hs).
  apply elem_of_chosen in Hs as (Hst&?&?&?); [| done].
  split_and!; try done. unfold knownDistance. by rewrite Hst.
Qed.

Lemma elem_of_kept m p :
  p ∈ kept m ↔
  p ∈ connectedPeers m ∧ p ∈ candidateIds m
  ∧ number_le (knownDistance m p) (Finite (disconnectThreshold m)) = true.
Proof.
  unfold kept, keeps, knownDistance. rewrite list_elem_of_filter.
  rewrite andb_true_iff, has_true. tauto.
Qed.

Lemma elem_of_dropped m p :
  p ∈ dropped m ↔ p ∈ connectedPeers m ∧ p ∉ kept m.
Proof.
  unfold dropped, kept. rewrite !list_elem_of_filter.
  destruct (keeps _ _ _); split.
  - intros [? _]. done.
  - intros [? Hn]. exfalso. by apply Hn.
  - intros [_ ?]. split; [done | intros [? _]; done].
  - intros [? _]. done.
Qed.









Section hysteresis.
Context `{Platform} (p : string).


End hysteresis.




(** C8 as stated fails for [removePeer]: with one slot, [p1] connected and
    [p2] a candidate at distance 10, removing [p1] announces the disconnect
    and leaves [p2] unconnected below the cap, with no evaluation pending. *)
Lemma removePeer_leaves_slot_empty :
  let m := (run (H := Scenario.platform) Scenario.one_slot_ops
                (new Scenario.one_slot)).1 in
  "p1" ∈ connectedPeers m
  ∧ (removePeer "p1" m).2 = [Disconnect "p1"]
  ∧ evaluateTimer (removePeer "p1" m).1 = false
  ∧ ¬ saturated (removePeer "p1" m).1.
Proof.
  split_and!.
  - vm_compute. apply list_elem_of_singleton. reflexivity.
  - vm_compute. reflexivity.
  - vm_compute. reflexivity.
  - intros Hs.
    destruct (Hs "p2" {| id := "p2"; distance := Finite 10; lastUpdated := 0;
                         hasExplicitDistance := true |}) as [Hin | Hlen].
    + vm_compute. apply list_elem_of_singleton. reflexivity.
    + vm_compute. reflexivity.
    + vm_compute. reflexivity.
    + vm_compute in Hin. by apply elem_of_nil in Hin.
    + vm_compute in Hlen. discriminate.
Qed.

(** *** Further properties of the arbiter *)

(** What a pass leaves of the peer states: the pruning loop is reached only
    when a slot is free, and it deletes the states that are stale. *)
Lemma evaluate_states now m p :
  disposed m = false → NoDup (connectedPeers m) →
  peerStates (evaluate now m).1 !! p
  = if (cap m - length (kept m) =? 0) || stale now m p
    then (if cap m - length (kept m) =? 0
          then peerStates m !! p else None)
    else peerStates m !! p.
Proof.
  intros Hd Hnd. unfold evaluate. rewrite Hd.
  rewrite (classify_spec _ _ Hnd), (drop_all_spec _ _ Hnd).
  fold (disconnectThreshold m). fold (kept m).
  rewrite remainingSlots_none. fold (cap m).
  destruct (cap m - length (kept m) =? 0); [done |].
  destruct (connect_chosen _ _) as [connected2 events2]. simpl.
  change (stale now (set_connectedPeers connected2 m)) with (stale now m).
  destruct (stale now m p) eqn:E.
  - apply map_lookup_filter_None. right. intros st _. simpl. rewrite E.
    intros Hn. by apply Hn.
  - destruct (peerStates m !! p) as [st |] eqn:Est.
    + apply map_lookup_filter_Some. split; [done |]. simpl. rewrite E.
      intros Hf. exact Hf.
    + apply map_lookup_filter_None. by left.
Qed.

Lemma stale_candidate now m p : p ∈ candidateIds m → stale now m p = false.
Proof.
  intros Hp. unfold stale. destruct (peerStates m !! p); [| done].
  apply has_true in Hp. rewrite Hp. by rewrite andb_false_r.
Qed.

Lemma evaluate_knownDistance now m p :
  wf m → p ∈ candidateIds m →
  knownDistance (evaluate now m).1 p = knownDistance m p.
Proof.
  intros [Ha Hc _ _ _] Hp. unfold knownDistance.
  rewrite (evaluate_states now m p Ha Hc), (stale_candidate now m p Hp).
  by destruct (_ =? 0).
Qed.

Lemma filter_all {A} (P : A → Prop) `{∀ x, Decision (P x)} (l : list A) :
  (∀ x, x ∈ l → P x) → filter P l = l.
Proof.
  induction l as [| a l IH]; intros Hall; [done |].
  rewrite filter_cons_True by (apply Hall; by left).
  f_equal. apply IH. intros x Hx. apply Hall. by right.
Qed.

Lemma filter_none {A} (P : A → Prop) `{∀ x, Decision (P x)} (l : list A) :
  (∀ x, x ∈ l → ¬ P x) → filter P l = [].
Proof.
  induction l as [| a l IH]; intros Hall; [done |].
  rewrite filter_cons_False by (apply Hall; by left).
  apply IH. intros x Hx. apply Hall. by right.
Qed.

Lemma number_le_Finite d (a b : Q) :
  number_le d (Finite a) = true → (a <= b)%Q → number_le d (Finite b) = true.
Proof.
  destruct d as [q |]; simpl; [| done].
  rewrite !Qle_bool_iff. intros ? ?. by eapply Qle_trans.
Qed.

(** A pass that follows a pass, with nothing reported in between, finds
    nothing to do. *)
Lemma settled now m :
  wf m → (connectRadius (options m) <= disconnectThreshold m)%Q →
  let m1 := (evaluate now m).1 in
  dropped m1 = [] ∧ chosen m1 = [] ∧ kept m1 = connectedPeers m1.
Proof.
  intros Hm Hr m1.
  pose proof (wf_evaluate now m Hm) as Hm1. fold m1 in Hm1.
  pose proof Hm as [Ha Hc Hk Hi Hcap].
  destruct (evaluate_spec now m Ha Hc) as (_&_&Ho&Hcand&_). fold m1 in Ho, Hcand.
  assert (disconnectThreshold m1 = disconnectThreshold m) as Hthr
    by (unfold disconnectThreshold; by rewrite Ho).
  assert (∀ p, p ∈ connectedPeers m1 → keeps m1 (disconnectThreshold m1) p = true)
    as Hkeep.
  { intros p Hp.
    destruct (about_pass now m p Hm) as [_ Hiff]. apply Hiff in Hp.
    assert (p ∈ candidateIds m
            ∧ number_le (knownDistance m p) (Finite (disconnectThreshold m)) = true)
      as [Hcp Hle].
    { destruct Hp as [Hp | Hp].
      - apply elem_of_kept in Hp. tauto.
      - apply elem_of_chosen_ids in Hp as (?&_&Hle); [| done].
        split; [done |]. by eapply number_le_Finite. }
    unfold keeps. rewrite Hcand. apply has_true in Hcp. rewrite Hcp. simpl.
    rewrite Hthr. fold (knownDistance m1 p). unfold m1.
    rewrite evaluate_knownDistance by (done || by apply has_true).
    done. }
  assert (kept m1 = connectedPeers m1) as Hkept.
  { unfold kept. by apply filter_all. }
  split_and!; [| | done].
  - unfold dropped. apply filter_none. intros p Hp. rewrite (Hkeep p Hp). done.
  - unfold chosen. rewrite Hkept.
    destruct (decide (length (connectedPeers m1) = cap m1))
      as [-> | Hlt]; [by rewrite Nat.sub_diag |].
    assert (candidates m1 = []) as ->; [| by rewrite take_nil].
    destruct (candidates m1) as [| s rest] eqn:E; [done | exfalso].
    assert (s ∈ candidates m1) as Hs by (rewrite E; by left).
    apply elem_of_candidates in Hs as (q&Hq&Hadm).
    apply admissible_Some in Hadm as (Hout&Hst&Hle). rewrite Hkept in Hout.
    rewrite Hcand in Hq. rewrite Ho in Hle.
    assert (peerStates m !! q = Some s) as Hst0.
    { destruct (evaluate_spec now m Ha Hc) as (_&_&_&_&_&_&_&Hsub).
      by apply Hsub. }
    destruct (left_out now m q s Hm Hq Hst0 Hle Hout) as [Hlen _].
    fold m1 in Hlen. unfold cap in Hlt, Hlen. rewrite Ho in Hlt. done.
Qed.

(** X1. Two passes in a row: the second has nothing to announce. *)
Theorem evaluate_settles `{Platform} (o : VoicePeerManagerOptions)
    (ops : list (Z * Op)) (now later : Z) :
  let m := (run ops (new o)).1 in
  (connectRadius (options m) <= disconnectThreshold m)%Q →
  let m1 := (evaluate now m).1 in
  (evaluate later m1).2 = []
  ∧ connectedPeers (evaluate later m1).1 = connectedPeers m1.
Proof.
  intros m Hr m1.
  assert (wf m) as Hm by apply wf_run, wf_new.
  destruct (settled now m Hm Hr) as (Hd&Hc&Hk). fold m1 in Hd, Hc, Hk.
  pose proof (wf_evaluate now m Hm) as [Ha1 Hc1 _ _ _]. fold m1 in Ha1, Hc1.
  destruct (evaluate_spec later m1 Ha1 Hc1) as (He&Hconn&_).
  rewrite He, Hconn, Hd, Hc, Hk. done.
Qed.

(** Two passes after the run with one slot. *)
Lemma evaluate_settles_witness :
  (evaluate 400
     (evaluate 300 (run (H := Scenario.platform) Scenario.one_slot_ops
                        (new Scenario.one_slot)).1).1).2 = [].
Proof.
  refine (proj1 (evaluate_settles (H := Scenario.platform) Scenario.one_slot
                   Scenario.one_slot_ops 300 400 _)).
  vm_compute. discriminate.
Defined.

Lemma has_delete_ne x y s : x ≠ y → JsSet.has x (JsSet.delete y s) = JsSet.has x s.
Proof.
  intros Hne. unfold JsSet.has. apply bool_decide_ext.
  rewrite elem_of_delete. tauto.
Qed.

(** X2. [removePeer] forgets the peer altogether, whatever the arbiter held,
    and touches no other peer; removing it again announces nothing. *)
Theorem removePeer_forgets (m : VoicePeerManager) (p : string) :
  let m' := (removePeer p m).1 in
  hasPeer p m' = false
  ∧ getPeerDistance p m' = None
  ∧ getPeerPosition p m' = None
  ∧ (p ∉ candidateIds m')
  ∧ (removePeer p m').2 = []
  ∧ ∀ q, q ≠ p →
      hasPeer q m' = hasPeer q m
      ∧ getPeerDistance q m' = getPeerDistance q m
      ∧ getPeerPosition q m' = getPeerPosition q m
      ∧ (q ∈ candidateIds m' ↔ q ∈ candidateIds m).
Proof.
  intros m'.
  assert (connectedPeers m' = JsSet.delete p (connectedPeers m)) as Hc
    by apply removePeer_spec.
  assert (peerStates m' = delete p (peerStates m)
          ∧ peerPositions m' = delete p (peerPositions m)
          ∧ candidateIds m' = JsSet.delete p (candidateIds m)) as (Hs&Hp&Hk).
  { unfold m', removePeer. simpl. by destruct (JsSet.has p (connectedPeers m)). }
  assert (p ∉ connectedPeers m') as Hout.
  { rewrite Hc, elem_of_delete. tauto. }
  split_and!.
  - unfold hasPeer. by apply has_false.
  - unfold getPeerDistance. by rewrite Hs, lookup_delete_eq.
  - unfold getPeerPosition. by rewrite Hp, lookup_delete_eq.
  - rewrite Hk, elem_of_delete. tauto.
  - destruct (removePeer_spec p m') as (->&_).
    by rewrite bool_decide_eq_false_2.
  - intros q Hne. split_and!.
    + unfold hasPeer. rewrite Hc. by apply has_delete_ne.
    + unfold getPeerDistance. by rewrite Hs, lookup_delete_ne.
    + unfold getPeerPosition. by rewrite Hp, lookup_delete_ne.
    + rewrite Hk, elem_of_delete. tauto.
Qed.

Lemma fold_add_elem (l : list string) : ∀ c x,
  x ∈ fold_left (λ acc p, JsSet.add p acc) l c ↔ x ∈ c ∨ x ∈ l.
Proof.
  induction l as [| p l IH]; intros c x; simpl.
  - rewrite elem_of_nil. tauto.
  - rewrite IH, elem_of_add, elem_of_cons. tauto.
Qed.

Lemma fold_delete_elem (l : list string) : ∀ c x,
  x ∈ fold_left (λ acc p, JsSet.delete p acc) l c ↔ x ∈ c ∧ x ∉ l.
Proof.
  induction l as [| p l IH]; intros c x; simpl.
  - rewrite elem_of_nil. tauto.
  - rewrite IH, elem_of_delete, not_elem_of_cons. tauto.
Qed.

Lemma applyPeerDiff_candidateIds `{Platform} now diff m :
  candidateIds (applyPeerDiff now diff m)
  = match peers diff with
    | Some ps =>
        fold_left (λ acc peerId, JsSet.add peerId acc) ps
                  (filter (λ peerId, peerId ∈ ps) (candidateIds m))
    | None =>
        fold_left (λ acc peerId, JsSet.delete peerId acc)
                  (default [] (removed diff))
                  (fold_left (λ acc peerId, JsSet.add peerId acc)
                             (default [] (added diff)) (candidateIds m))
    end.
Proof.
  unfold applyPeerDiff.
  match goal with
  | |- candidateIds (scheduleEvaluate
                       (fold_left ?f4 ?l4 (fold_left ?f3 ?l3
                         (fold_left ?f2 ?l2 ?m1)))) = _ =>
      destruct (pres_scheduleEvaluate
                  (fold_left f4 l4 (fold_left f3 l3 (fold_left f2 l2 m1))))
        as (_&_&_&->&_);
      destruct (pres_fold f4 l4
                  (λ a b, pres_updatePeerPosition now b None a)
                  (fold_left f3 l3 (fold_left f2 l2 m1))) as (_&_&_&->&_);
      assert (∀ a b, pres a (f3 a b)) as H3
        by (intros a [q v]; apply pres_updatePeerPosition);
      destruct (pres_fold f3 l3 H3 (fold_left f2 l2 m1)) as (_&_&_&->&_);
      assert (∀ a b, pres a (f2 a b)) as H2
        by (intros a [q d]; apply pres_updatePeerDistance);
      destruct (pres_fold f2 l2 H2 m1) as (_&_&_&->&_)
  end.
  by destruct (peers diff).
Qed.

(** X3. After [applyPeerDiff] the candidates are: the listed peers, when the
    message carries the full [peers] list ([added] and [removed] then do not
    matter); otherwise the former candidates and the [added] ones, less the
    [removed] ones, so that a peer both added and removed is no
    candidate. *)
Theorem applyPeerDiff_candidates `{Platform} (now : Z) (diff : PeerDiffMessage)
    (m : VoicePeerManager) (x : string) :
  x ∈ candidateIds (applyPeerDiff now diff m) ↔
  match peers diff with
  | Some ps => x ∈ ps
  | None =>
      (x ∈ candidateIds m ∨ x ∈ default [] (added diff))
      ∧ x ∉ default [] (removed diff)
  end.
Proof.
  rewrite applyPeerDiff_candidateIds. destruct (peers diff) as [ps |].
  - rewrite fold_add_elem, list_elem_of_filter. tauto.
  - rewrite fold_delete_elem, fold_add_elem. tauto.
Qed.

Lemma scheduleEvaluate_armed m :
  disposed m = false → evaluateTimer (scheduleEvaluate m) = true.
Proof.
  intros Hd. unfold scheduleEvaluate. rewrite Hd.
  by destruct (evaluateTimer m) eqn:E.
Qed.

Lemma scheduleEvaluate_disposed m : disposed m = true → scheduleEvaluate m = m.
Proof. intros Hd. unfold scheduleEvaluate. by rewrite Hd. Qed.

(** Every operation that reports something ends by arming the timer. *)
Lemma update_arms `{Platform} now op m :
  disposed m = false → op ≠ TimerFires → (∀ p, op ≠ RemovePeer p) →
  evaluateTimer (step now op m).1 = true.
Proof.
  intros Hd Ht Hr. destruct op; simpl; try done.
  - pose proof (pres_updateLocalPosition now position m) as (_&_&Hd'&_).
    unfold updateLocalPosition in *. apply scheduleEvaluate_armed.
    destruct (pres_scheduleEvaluate
                (map_fold
                   (λ peerId remotePosition acc,
                      setDistance now peerId
                        (Finite (distanceBetween position remotePosition))
                        false acc)
                   (set_localPosition (Some position) m)
                   (peerPositions (set_localPosition (Some position) m))))
      as (_&_&Hd''&_).
    congruence.
  - unfold updatePeerPosition. destruct position as [v |];
      apply scheduleEvaluate_armed.
    + by destruct (localPosition _).
    + by destruct (peerStates _ !! _).
  - by apply scheduleEvaluate_armed.
  - pose proof (applyPeerDiff_frame now diff m) as (_&_&Hd'&_).
    unfold applyPeerDiff in *. apply scheduleEvaluate_armed.
    match goal with
    | |- disposed ?x = false =>
        destruct (pres_scheduleEvaluate x) as (_&_&Hd''&_)
    end.
    congruence.
  - by destruct (Hr peerId).
Qed.

(** An operation other than the firing of the timer announces no [connect]
    and adds nobody to the connected peers. *)
Lemma other_ops_quiet `{Platform} now op m :
  op ≠ TimerFires →
  (∀ p, Connect p ∉ (step now op m).2)
  ∧ (∀ p, p ∈ connectedPeers (step now op m).1 → p ∈ connectedPeers m).
Proof.
  intros Ht. split.
  - intros p Hin. destruct op; simpl in Hin;
      try (by apply elem_of_nil in Hin); [| done].
    destruct (removePeer_spec peerId m) as (He&_). rewrite He in Hin.
    destruct (bool_decide _); [| by apply elem_of_nil in Hin].
    by apply list_elem_of_singleton in Hin.
  - intros p. destruct op; simpl; [| | | | | done].
    + by destruct (pres_updateLocalPosition now position m) as (_&->&_).
    + by destruct (pres_updatePeerPosition now peerId position m) as (_&->&_).
    + by destruct (pres_updatePeerDistance now peerId d m) as (_&->&_).
    + by destruct (applyPeerDiff_frame now diff m) as (_&->&_).
    + destruct (removePeer_spec peerId m) as (_&->&_).
      rewrite elem_of_delete. tauto.
Qed.

(** X4. Only the firing of the timer connects: every other operation
    announces no [connect] and adds nobody to the connected peers, and every
    one but [removePeer] leaves an evaluation pending on a live arbiter. *)
Theorem only_the_timer_connects `{Platform} (now : Z) (op : Op)
    (m : VoicePeerManager) :
  op ≠ TimerFires →
  (∀ p, Connect p ∉ (step now op m).2)
  ∧ (∀ p, p ∈ connectedPeers (step now op m).1 → p ∈ connectedPeers m)
  ∧ (disposed m = false → (∀ p, op ≠ RemovePeer p) →
     evaluateTimer (step now op m).1 = true).
Proof.
  intros Ht. destruct (other_ops_quiet now op m Ht) as [He Hc].
  split_and!; [done | done |].
  intros Hd Hr. by apply update_arms.
Qed.

(** A distance is reported to a fresh arbiter. *)
Lemma only_the_timer_connects_witness :
  evaluateTimer
    (step (H := Scenario.platform) 0
          (Scenario.distance_reported "p" 10) (new Scenario.two_slots)).1
  = true.
Proof.
  refine (proj2 (proj2 (only_the_timer_connects (H := Scenario.platform) 0
                          (Scenario.distance_reported "p" 10)
                          (new Scenario.two_slots) _)) _ _).
  - discriminate.
  - reflexivity.
  - intros p. discriminate.
Defined.

Lemma inert_updatePeerDistance now p d m :
  disposed m = true ∧ evaluateTimer m = false →
  disposed (updatePeerDistance now p d m) = true
  ∧ evaluateTimer (updatePeerDistance now p d m) = false.
Proof.
  intros [Hd Ht]. unfold updatePeerDistance.
  by rewrite scheduleEvaluate_disposed.
Qed.

Lemma inert_updatePeerPosition `{Platform} now p v m :
  disposed m = true ∧ evaluateTimer m = false →
  disposed (updatePeerPosition now p v m) = true
  ∧ evaluateTimer (updatePeerPosition now p v m) = false.
Proof.
  intros [Hd Ht]. unfold updatePeerPosition. destruct v as [v |].
  - rewrite scheduleEvaluate_disposed; by destruct (localPosition _).
  - rewrite scheduleEvaluate_disposed; by destruct (peerStates _ !! _).
Qed.

Lemma inert_step `{Platform} now op m :
  disposed m = true ∧ evaluateTimer m = false →
  disposed (step now op m).1 = true ∧ evaluateTimer (step now op m).1 = false.
Proof.
  intros [Hd Ht]. destruct op; simpl.
  - unfold updateLocalPosition.
    assert (disposed (set_localPosition (Some position) m) = true
            ∧ evaluateTimer (set_localPosition (Some position) m) = false)
      as Hm1 by done.
    revert Hm1. generalize (set_localPosition (Some position) m). intros m1 Hm1.
    assert (disposed
              (map_fold
                 (λ peerId remotePosition acc,
                    setDistance now peerId
                      (Finite (distanceBetween position remotePosition))
                      false acc) m1 (peerPositions m1)) = true
            ∧ evaluateTimer
                (map_fold
                   (λ peerId remotePosition acc,
                      setDistance now peerId
                        (Finite (distanceBetween position remotePosition))
                        false acc) m1 (peerPositions m1)) = false) as [? ?].
    { apply (map_fold_weak_ind
               (λ r _, disposed r = true ∧ evaluateTimer r = false));
        [done |]. by intros i x mp r _ [? ?]. }
    by rewrite scheduleEvaluate_disposed.
  - by apply inert_updatePeerPosition.
  - by apply inert_updatePeerDistance.
  - unfold applyPeerDiff.
    match goal with
    | |- context [scheduleEvaluate ?x] =>
        assert (disposed x = true ∧ evaluateTimer x = false) as [? ?]
    end.
    { apply fold_left_inv;
        [| intros b a _; by apply inert_updatePeerPosition].
      apply fold_left_inv;
        [| intros b [q v] _; by apply inert_updatePeerPosition].
      apply fold_left_inv;
        [| intros b [q d] _; by apply inert_updatePeerDistance].
      by destruct (peers diff). }
    by rewrite scheduleEvaluate_disposed.
  - unfold removePeer. simpl. by destruct (JsSet.has _ _).
  - unfold timerFires. by rewrite Ht.
Qed.

(** X5. [dispose] is final: whatever is done to a disposed arbiter, no
    [connect] is announced, nobody joins the connected peers and no
    evaluation is ever scheduled. *)
Theorem disposed_is_inert `{Platform} (ops : list (Z * Op))
    (m : VoicePeerManager) :
  let r := run ops (dispose m) in
  (∀ p, Connect p ∉ r.2)
  ∧ (∀ p, p ∈ connectedPeers r.1 → p ∈ connectedPeers m)
  ∧ evaluateTimer r.1 = false
  ∧ disposed r.1 = true.
Proof.
  assert (∀ m0, disposed m0 = true ∧ evaluateTimer m0 = false →
            (∀ p, Connect p ∉ (run ops m0).2)
            ∧ (∀ p, p ∈ connectedPeers (run ops m0).1 → p ∈ connectedPeers m0)
            ∧ evaluateTimer (run ops m0).1 = false
            ∧ disposed (run ops m0).1 = true) as Hrun.
  { induction ops as [| [now op] ops IH]; intros m0 Hm0.
    - simpl. split_and!; try tauto. intros p Hp. by apply elem_of_nil in Hp.
    - cbn [run].
      pose proof (inert_step now op m0 Hm0) as Hm1.
      destruct (step now op m0) as [m1 e1] eqn:Estep.
      destruct (IH m1 Hm1) as (He&Hc&Ht&Hd).
      destruct (run ops m1) as [m2 e2]. simpl in *.
      assert (op = TimerFires ∨ op ≠ TimerFires) as [-> | Hop]
        by (destruct op; (by left) || (by right)).
      + simpl in Estep. unfold timerFires in Estep.
        destruct Hm0 as [_ Ht0]. rewrite Ht0 in Estep.
        injection Estep as <- <-. simpl. split_and!; done.
      + destruct (other_ops_quiet now op m0 Hop) as (He1&Hc1).
        rewrite Estep in He1, Hc1. simpl in *.
        split_and!; try done.
        * intros p Hp. apply elem_of_app in Hp as [Hp | Hp];
            [by apply He1 in Hp | by apply He in Hp].
        * intros p Hp. by apply Hc1, Hc. }
  apply (Hrun (dispose m)). done.
Qed.

Lemma getPeerDistance_setDistance now p d e m q :
  getPeerDistance q (setDistance now p d e m)
  = if decide (q = p) then Some d else getPeerDistance q m.
Proof.
  unfold getPeerDistance, setDistance. simpl.
  destruct (decide (q = p)) as [-> | Hne].
  - by rewrite lookup_insert_eq.
  - by rewrite lookup_insert_ne.
Qed.

Lemma getPeerDistance_scheduleEvaluate m q :
  getPeerDistance q (scheduleEvaluate m) = getPeerDistance q m.
Proof.
  unfold scheduleEvaluate. destruct (disposed m); [done |].
  by destruct (evaluateTimer m).
Qed.

(** X6. A move of the local player re-measures every peer whose position is
    known, overwriting also a distance that was reported explicitly, and
    leaves the distance of every other peer alone. *)
Theorem updateLocalPosition_refreshes `{Platform} (now : Z) (position : Vector3)
    (m : VoicePeerManager) (p : string) :
  let m' := updateLocalPosition now position m in
  getPeerDistance p m'
  = match getPeerPosition p m with
    | Some remote => Some (Finite (distanceBetween position remote))
    | None => getPeerDistance p m
    end
  ∧ localPosition m' = Some position
  ∧ getPeerPosition p m' = getPeerPosition p m.
Proof.
  intros m'. unfold m', updateLocalPosition, getPeerPosition.
  set (m1 := set_localPosition (Some position) m).
  change (peerPositions m) with (peerPositions m1).
  change (getPeerDistance p m) with (getPeerDistance p m1).
  assert (localPosition m1 = Some position) as Hl by done.
  revert Hl. generalize m1. clear m1 m'. intros m1 Hl.
  set (f := λ (peerId : string) (remotePosition : Vector3) acc,
              setDistance now peerId
                (Finite (distanceBetween position remotePosition)) false acc).
  assert (∀ mp (r := map_fold f m1 mp),
            getPeerDistance p r
            = match mp !! p with
              | Some remote => Some (Finite (distanceBetween position remote))
              | None => getPeerDistance p m1
              end
            ∧ localPosition r = localPosition m1
            ∧ peerPositions r = peerPositions m1) as Hfold.
  { intros mp.
    apply (map_fold_weak_ind
             (λ r mp,
                getPeerDistance p r
                = match mp !! p with
                  | Some remote => Some (Finite (distanceBetween position remote))
                  | None => getPeerDistance p m1
                  end
                ∧ localPosition r = localPosition m1
                ∧ peerPositions r = peerPositions m1)).
    - by rewrite lookup_empty.
    - intros i x mp' r Hi (Hd&Hloc&Hpos). split_and!; [| done | done].
      unfold f. rewrite getPeerDistance_setDistance.
      destruct (decide (p = i)) as [-> | Hne].
      + by rewrite lookup_insert_eq.
      + by rewrite lookup_insert_ne. }
  destruct (Hfold (peerPositions m1)) as (Hd&Hloc&Hpos).
  rewrite getPeerDistance_scheduleEvaluate.
  split_and!; [done | |].
  - unfold scheduleEvaluate. destruct (disposed _); [congruence |].
    destruct (evaluateTimer _); simpl; congruence.
  - unfold scheduleEvaluate. destruct (disposed _); [by rewrite Hpos |].
    destruct (evaluateTimer _); simpl; by rewrite Hpos.
Qed.

(** X7. The distance the arbiter holds for a peer is the last one it was
    given: an explicit report, or the distance between the two positions
    once both are known, or [+Infinity] when a position arrives while the
    local one is unknown or when the position is withdrawn from a known
    peer; a peer never heard of stays unknown when its position is
    withdrawn. *)
Theorem distance_last_report `{Platform} (now : Z) (p q : string)
    (m : VoicePeerManager) :
  (∀ d, getPeerDistance q (updatePeerDistance now p d m)
        = if decide (q = p) then Some (default PositiveInfinity d)
          else getPeerDistance q m)
  ∧ (∀ v, getPeerDistance q (updatePeerPosition now p (Some v) m)
          = if decide (q = p)
            then Some (match localPosition m with
                       | Some l => Finite (distanceBetween l v)
                       | None => PositiveInfinity
                       end)
            else getPeerDistance q m)
  ∧ getPeerDistance q (updatePeerPosition now p None m)
    = if decide (q = p)
      then match getPeerDistance p m with
           | Some _ => Some PositiveInfinity
           | None => None
           end
      else getPeerDistance q m.
Proof.
  split_and!.
  - intros d. unfold updatePeerDistance.
    by rewrite getPeerDistance_scheduleEvaluate, getPeerDistance_setDistance.
  - intros v. unfold updatePeerPosition.
    rewrite getPeerDistance_scheduleEvaluate. simpl.
    destruct (localPosition m); rewrite getPeerDistance_setDistance;
      by destruct (decide (q = p)).
  - unfold updatePeerPosition. rewrite getPeerDistance_scheduleEvaluate. simpl.
    unfold getPeerDistance at 2.
    destruct (peerStates m !! p) as [st |] eqn:E; simpl.
    + rewrite getPeerDistance_setDistance. by destruct (decide (q = p)).
    + destruct (decide (q = p)) as [-> | Hne]; [| done].
      unfold getPeerDistance. simpl. by rewrite E.
Qed.

Lemma evaluate_positions now m p :
  disposed m = false → NoDup (connectedPeers m) →
  peerPositions (evaluate now m).1 !! p
  = if (cap m - length (kept m) =? 0) || negb (stale now m p)
    then peerPositions m !! p else None.
Proof.
  intros Hd Hnd. unfold evaluate. rewrite Hd.
  rewrite (classify_spec _ _ Hnd), (drop_all_spec _ _ Hnd).
  fold (disconnectThreshold m). fold (kept m).
  rewrite remainingSlots_none. fold (cap m).
  destruct (cap m - length (kept m) =? 0); [done |].
  destruct (connect_chosen _ _) as [connected2 events2]. simpl.
  change (stale now (set_connectedPeers connected2 m)) with (stale now m).
  destruct (stale now m p) eqn:E; simpl.
  - apply map_lookup_filter_None. right. intros st _. simpl. rewrite E.
    intros Hn. by apply Hn.
  - destruct (peerPositions m !! p) as [v |] eqn:Ev.
    + apply map_lookup_filter_Some. split; [done |]. simpl. rewrite E.
      intros Hf. exact Hf.
    + apply map_lookup_filter_None. by left.
Qed.

(** X8. What a pass forgets. It keeps the state and the position of every
    candidate; a state it deletes belonged to a peer that is no candidate
    and was last updated more than 60 s before; and whoever is connected
    after the pass is a candidate whose state is kept. *)
Theorem evaluate_prunes_safely `{Platform} (o : VoicePeerManagerOptions)
    (ops : list (Z * Op)) (now : Z) (p : string) :
  let m := (run ops (new o)).1 in
  let m' := (evaluate now m).1 in
  (p ∈ candidateIds m →
   peerStates m' !! p = peerStates m !! p
   ∧ getPeerPosition p m' = getPeerPosition p m)
  ∧ (∀ st, peerStates m !! p = Some st → peerStates m' !! p = None →
           (p ∉ candidateIds m) ∧ (60000 < now - lastUpdated st)%Z)
  ∧ (p ∈ connectedPeers m' → p ∈ candidateIds m)
  ∧ (∀ st, peerStates m' !! p = Some st → peerStates m !! p = Some st).
Proof.
  intros m m'.
  assert (wf m) as Hm by apply wf_run, wf_new.
  pose proof Hm as [Ha Hc Hk Hi Hcap].
  split_and!.
  - intros Hp. unfold m', getPeerPosition.
    rewrite (evaluate_states now m p Ha Hc), (evaluate_positions now m p Ha Hc).
    rewrite (stale_candidate now m p Hp). simpl.
    by destruct (_ =? 0).
  - intros st Hst Hnone. unfold m' in Hnone.
    rewrite (evaluate_states now m p Ha Hc), Hst in Hnone.
    destruct (_ =? 0); [done |]. simpl in Hnone.
    destruct (stale now m p) eqn:E; [| done].
    unfold stale in E. rewrite Hst in E.
    apply andb_true_iff in E as [E1 E2].
    apply bool_decide_eq_true in E1. apply negb_true_iff, has_false in E2.
    done.
  - intros Hp. destruct (about_pass now m p Hm) as [_ Hiff].
    apply Hiff in Hp as [Hp | Hp].
    + apply elem_of_kept in Hp. tauto.
    + by apply elem_of_chosen_ids in Hp as (?&_).
  - destruct (evaluate_spec now m Ha Hc) as (_&_&_&_&_&_&_&Hsub). apply Hsub.
Qed.

Lemma knownDistance_withdrawn `{Platform} now p q m :
  knownDistance (updatePeerPosition now q None m) p
  = if decide (p = q) then PositiveInfinity else knownDistance m p.
Proof.
  unfold knownDistance.
  change (distance <$> peerStates ?x !! p) with (getPeerDistance p x).
  unfold updatePeerPosition. rewrite getPeerDistance_scheduleEvaluate. simpl.
  destruct (peerStates m !! q) as [st |] eqn:E; simpl.
  - rewrite getPeerDistance_setDistance. by destruct (decide (p = q)).
  - destruct (decide (p = q)) as [-> | Hne]; [| done].
    unfold getPeerDistance. simpl. by rewrite E.
Qed.

Lemma withdrawn_fold `{Platform} now p (l : list string) : ∀ m,
  knownDistance
    (fold_left (λ acc peerId, updatePeerPosition now peerId None acc) l m) p
  = if bool_decide (p ∈ l) then PositiveInfinity else knownDistance m p.
Proof.
  induction l as [| q l IH]; intros m; [done |].
  cbn [fold_left]. rewrite IH, knownDistance_withdrawn.
  destruct (decide (p = q)) as [-> | Hne].
  - rewrite (bool_decide_eq_true_2 (q ∈ q :: l)) by (by left).
    by destruct (bool_decide _).
  - destruct (bool_decide (p ∈ l)) eqn:E.
    + apply bool_decide_eq_true in E.
      by rewrite bool_decide_eq_true_2 by (by right).
    + apply bool_decide_eq_false in E.
      rewrite bool_decide_eq_false_2; [done |].
      rewrite not_elem_of_cons. done.
Qed.

Lemma applyPeerDiff_removed `{Platform} now diff m p :
  p ∈ default [] (removed diff) →
  knownDistance (applyPeerDiff now diff m) p = PositiveInfinity.
Proof.
  intros Hp. unfold applyPeerDiff.
  match goal with
  | |- knownDistance (scheduleEvaluate ?x) p = _ =>
      assert (knownDistance (scheduleEvaluate x) p = knownDistance x p) as ->
        by (unfold knownDistance;
            change (distance <$> peerStates ?y !! p) with (getPeerDistance p y);
            by rewrite getPeerDistance_scheduleEvaluate)
  end.
  rewrite withdrawn_fold. by rewrite bool_decide_eq_true_2.
Qed.

(** X9. A peer the shard reports as [removed] is out after the next pass:
    [applyPeerDiff] sets its distance to [+Infinity], so the pass that
    follows disconnects it if it was connected and does not connect it
    otherwise, even when the same message lists it among [peers]. *)
Theorem removed_peer_is_dropped `{Platform} (o : VoicePeerManagerOptions)
    (ops : list (Z * Op)) (now later : Z) (diff : PeerDiffMessage) (p : string) :
  let m := (run ops (new o)).1 in
  p ∈ default [] (removed diff) →
  let m' := applyPeerDiff now diff m in
  knownDistance m' p = PositiveInfinity
  ∧ (p ∉ connectedPeers (evaluate later m').1)
  ∧ events_about p (evaluate later m').2
    = if bool_decide (p ∈ connectedPeers m) then [Disconnect p] else [].
Proof.
  intros m Hp m'.
  assert (wf m) as Hm by apply wf_run, wf_new.
  assert (wf m') as Hm' by apply (wf_step now (ApplyPeerDiff diff) m Hm).
  pose proof (applyPeerDiff_removed now diff m p Hp) as Hfar. fold m' in Hfar.
  assert (connectedPeers m' = connectedPeers m) as Hconn
    by apply applyPeerDiff_frame.
  assert (p ∉ kept m') as Hkept.
  { intros Hin. apply elem_of_kept in Hin as (_&_&Hle). by rewrite Hfar in Hle. }
  assert (p ∉ id <$> chosen m') as Hchosen.
  { intros Hin. apply elem_of_chosen_ids in Hin as (_&_&Hle); [| by destruct Hm'].
    by rewrite Hfar in Hle. }
  destruct (about_pass later m' p Hm') as [He Hiff].
  split_and!; [done | rewrite Hiff; tauto |].
  rewrite He, (bool_decide_eq_false_2 (p ∈ id <$> chosen m')) by done.
  rewrite app_nil_r.
  rewrite (bool_decide_ext (p ∈ dropped m') (p ∈ connectedPeers m)); [done |].
  rewrite elem_of_dropped, Hconn. tauto.
Qed.

(** The connected peer of the run with one slot is reported as removed. *)
Lemma removed_peer_is_dropped_witness :
  "p1" ∉ connectedPeers
           (evaluate 400
              (applyPeerDiff (H := Scenario.platform) 300
                 {| added := None; removed := Some ["p1"]; peers := None;
                    distances := None; positions := None |}
                 (run (H := Scenario.platform) Scenario.one_slot_ops
                      (new Scenario.one_slot)).1)).1.
Proof.
  refine (proj1 (proj2 (removed_peer_is_dropped (H := Scenario.platform)
                          Scenario.one_slot Scenario.one_slot_ops 300 400
                          {| added := None; removed := Some ["p1"];
                             peers := None; distances := None;
                             positions := None |} "p1" _))).
  apply list_elem_of_here.
Defined.

End PeerManagerFacts.

(** ** The shard *)

Module WorldShardFacts.
Import Js WorldShard WorldShardSpec JsFacts.
#[local] Open Scope nat_scope.

Lemma keys_mutate c f m : JsMap.keys (mutate c f m) = JsMap.keys m.
Proof.
  induction m as [| [k0 v0] m IH]; cbn [mutate]; [done |].
  destruct (String.eqb (id v0) c); rewrite !keys_cons; [done | by rewrite IH].
Qed.

Lemma elem_of_mutate c f m k v :
  (k, v) ∈ mutate c f m → ∃ v0, (k, v0) ∈ m ∧ (v = v0 ∨ v = f v0).
Proof.
  induction m as [| [k0 v0] m IH]; cbn [mutate].
  - intros H. by apply elem_of_nil in H.
  - destruct (String.eqb (id v0) c); rewrite elem_of_cons.
    + intros [[= -> ->] | H]; [exists v0; split; [by left | by right] |].
      exists v. split; [by right | by left].
    + intros [[= -> ->] | H]; [exists v0; split; [by left | by left] |].
      destruct (IH H) as (w&?&?). exists w. split; [by right | done].
Qed.

Lemma same_players_views_ok a b : same_players a b → views_ok a → views_ok b.
Proof.
  intros (Hc&Ha&Hv&Hd) [? ? ? ? ?]. constructor; rewrite ?Hc, ?Hv, ?Hd; done.
Qed.

Lemma same_players_refl a : same_players a a.
Proof. by repeat split. Qed.

Lemma same_players_trans a b c :
  same_players a b → same_players b c → same_players a c.
Proof. intros (?&?&?&?) (?&?&?&?). repeat split; congruence. Qed.

Lemma same_players_scheduleCleanup s : same_players s (scheduleCleanup s).
Proof. unfold scheduleCleanup. by destruct (cleanupTimer s). Qed.

Lemma same_players_scheduleProximityRecalc s :
  same_players s (scheduleProximityRecalc s).
Proof. unfold scheduleProximityRecalc. by destruct (proximityTimer s). Qed.

Lemma same_players_pruneExpiredSessions now s :
  same_players s (pruneExpiredSessions now s).
Proof. unfold pruneExpiredSessions. by destruct (map_fold _ _ _). Qed.

Lemma same_players_handlePrepare now body s :
  same_players s (handlePrepare now body s).1.
Proof.
  unfold handlePrepare. destruct body as [v |]; [| apply same_players_refl].
  destruct (is_object _); [| apply same_players_refl].
  destruct (as_string _) as [player |]; [| apply same_players_refl].
  destruct (as_string _) as [token |]; [| apply same_players_refl].
  pose proof (same_players_pruneExpiredSessions now s) as Hp.
  destruct (pendingSessionsByPlayer (pruneExpiredSessions now s) !! player)
    as [existing |]; [destruct (negb _) |]; simpl; exact Hp.
Qed.

Lemma views_ok_initial : views_ok initial.
Proof.
  constructor; simpl; try done; [apply NoDup_nil_2 | ..].
  - intros k c H. by apply elem_of_nil in H.
Qed.

Lemma views_ok_handleSocket now c s :
  views_ok s → views_ok (handleSocket now c s).1.
Proof. intros [? ? ? ? ?]. by constructor. Qed.

Lemma views_ok_mutate c f s :
  (∀ x, playerId (f x) = playerId x) →
  views_ok s →
  views_ok (set_connectionsByPlayer (mutate c f (connectionsByPlayer s)) s).
Proof.
  intros Hf [Hk Hp Hr Hs Hd]. constructor; simpl; try done.
  - by rewrite keys_mutate.
  - intros k v Hin. apply elem_of_mutate in Hin as (v0&Hin&[-> | ->]).
    + by apply Hp.
    + rewrite Hf. by apply Hp.
  - intros p view Hv. rewrite keys_mutate. by eapply Hr.
Qed.

Lemma views_ok_handleHeartbeat now c s :
  views_ok s → views_ok (handleHeartbeat now c s).1.
Proof.
  intros Hs. unfold handleHeartbeat. destruct (lookupConnection c s); [| done].
  by apply views_ok_mutate.
Qed.

Lemma views_ok_handlePosition now c message s :
  views_ok s → views_ok (handlePosition now c message s).1.
Proof.
  intros Hs. unfold handlePosition. destruct (lookupConnection c s); [| done].
  match goal with |- context [if ?b then _ else _] => destruct b end; simpl.
  - by apply views_ok_mutate.
  - eapply same_players_views_ok; [apply same_players_scheduleProximityRecalc |].
    by apply views_ok_mutate.
Qed.

Lemma handleSignalRelay_state c message s : (handleSignalRelay c message s).1 = s.
Proof.
  unfold handleSignalRelay. destruct (lookupConnection c s); [| done].
  by destruct (_ ≫= _).
Qed.

Lemma views_ok_handleRegister now c message s :
  views_ok s → views_ok (handleRegister now c message s).1.
Proof.
  intros Hs. unfold handleRegister.
  destruct (anonymousConnections s !! c) as [connection |]; [| done].
  match goal with |- context [match ?a with Some _ => _ | None => _ end] =>
    destruct a as [[player token] |] end; simpl.
  - eapply same_players_views_ok; [apply same_players_scheduleProximityRecalc |].
    eapply same_players_views_ok; [apply same_players_scheduleCleanup |].
    destruct Hs as [Hk Hp Hr Hv Hd]. constructor; simpl; try done.
    + by apply set_NoDup.
    + intros k v Hin. apply elem_of_set in Hin as [[= -> ->] | Hin]; [done |].
      by apply Hp.
    + intros p view Hview. rewrite keys_set.
      destruct (bool_decide _); [by eapply Hr |].
      apply elem_of_app. left. by eapply Hr.
  - destruct Hs. by constructor.
Qed.

Lemma find_Some_elem {A} (f : A → bool) l x :
  List.find f l = Some x → x ∈ l ∧ f x = true.
Proof.
  intros H. apply List.find_some in H as [? ?]. split; [| done].
  by apply list_elem_of_In.
Qed.

Lemma views_ok_handleDisconnect c s :
  views_ok s → views_ok (handleDisconnect c s).1.
Proof.
  intros Hs. unfold handleDisconnect.
  destruct (anonymousConnections s !! c); [destruct Hs; by constructor |].
  destruct (List.find _ _) as [[player connection] |] eqn:E; [| done].
  eapply same_players_views_ok; [apply same_players_scheduleProximityRecalc |].
  destruct Hs as [Hk Hp Hr Hv Hd]. constructor; simpl.
  - by apply delete_NoDup_map.
  - intros k v Hin. apply Hp. by eapply elem_of_delete_map.
  - intros p view Hview. apply lookup_delete_Some in Hview as [Hne Hview].
    apply keys_delete; [done |]. split; [done | by eapply Hr].
  - intros p view Hview. apply lookup_delete_Some in Hview as [Hne Hview].
    by eapply Hv.
  - intros p view Hview. apply lookup_delete_Some in Hview as [Hne Hview].
    rewrite lookup_delete_ne by done. by eapply Hd.
Qed.

Lemma distance_fold (prevD : gmap string Q) distances :
  ∀ (changed : bool) (next : gmap string Q),
  fold_left
    (λ '(changed, next) '(peerId, distance),
       (match prevD !! peerId with
        | None => true
        | Some prev =>
            if negb (Qle_bool (Qabs (prev - distance)) DISTANCE_CHANGE_EPSILON)
            then true else changed
        end,
        <[peerId := distance]> (next : gmap string Q)))
    distances (changed, next)
  = (changed || existsb (far prevD) distances,
     fold_left (λ (next : gmap string Q) '(peerId, distance),
                  <[peerId := distance]> next)
               distances next).
Proof.
  induction distances as [| [k d] l IH]; intros changed next; simpl.
  - by rewrite orb_false_r.
  - rewrite IH. f_equal. unfold far at 2. simpl.
    destruct (prevD !! k) as [prev |]; simpl; [| by rewrite orb_true_r].
    destruct (negb _); simpl; [by rewrite orb_true_r | done].
Qed.

Lemma filter_empty_forallb (f : string → bool) l :
  (length (filter (λ x, f x = false) l) =? 0) = forallb f l.
Proof.
  induction l as [| a l IH]; [done |]. simpl.
  destruct (f a) eqn:E.
  - by rewrite filter_cons_False by congruence.
  - by rewrite filter_cons_True by done.
Qed.

Lemma publishPeerDiff_spec player nextPeers distances positions s :
  publishPeerDiff player nextPeers distances positions s
  = match JsMap.get player (connectionsByPlayer s) with
    | None => (s, [])
    | Some connection =>
        let previousPeers := default [] (peerViewByPlayer s !! player) in
        let previousDistances := default ∅ (peerDistancesByPlayer s !! player) in
        if silent previousPeers previousDistances nextPeers distances
        then (s, [])
        else
          (set_views (<[player := nextPeers]> (peerViewByPlayer s))
             (<[player := distance_map distances]> (peerDistancesByPlayer s)) s,
           [Send (socket connection)
                 (peers_frame previousPeers nextPeers distances positions
                              (length (connectionsByPlayer s)))])
    end.
Proof.
  unfold publishPeerDiff. destruct (JsMap.get _ _) as [connection |]; [| done].
  rewrite distance_fold. simpl. rewrite !filter_empty_forallb. unfold silent.
  by destruct (_ && _ && _).
Qed.

Lemma distance_map_lookup distances x :
  is_Some (distance_map distances !! x) ↔ x ∈ JsMap.keys distances.
Proof.
  unfold distance_map.
  assert (∀ next : gmap string Q,
            is_Some (fold_left (λ (next : gmap string Q) '(peerId, distance),
                                  <[peerId := distance]> next) distances next !! x)
            ↔ is_Some (next !! x) ∨ x ∈ JsMap.keys distances) as H.
  { induction distances as [| [k d] l IH]; intros next; cbn [fold_left].
    - unfold JsMap.keys. simpl. rewrite elem_of_nil. tauto.
    - rewrite IH, keys_cons, elem_of_cons.
      destruct (decide (k = x)) as [-> | Hne].
      + rewrite lookup_insert_eq. split; [intros _; right; by left |].
        intros _. left. by eexists.
      + rewrite lookup_insert_ne by done. split; [tauto |].
        intros [? | [? | ?]]; [tauto | congruence | tauto]. }
  rewrite H, lookup_empty. split; [intros [[? ?] | ?]; done | by right].
Qed.

(** What [neighbours] collects. *)
Lemma neighbours_spec `{Platform} players player peers distances positions :
  neighbours players player = (peers, distances, positions) →
  (∀ x, x ∈ peers →
        x ≠ playerId player
        ∧ ∃ other, other ∈ players ∧ playerId other = x
                   ∧ truthy (position other) = true)
  ∧ (∀ x, x ∈ JsMap.keys distances ↔ x ∈ peers ∧ x ≠ "__proto__").
Proof.
  unfold neighbours.
  set (P := λ acc : list string * list (string * Q) * list (string * json),
         (∀ x, x ∈ acc.1.1 →
               x ≠ playerId player
               ∧ ∃ other, other ∈ players ∧ playerId other = x
                          ∧ truthy (position other) = true)
         ∧ (∀ x, x ∈ JsMap.keys acc.1.2 ↔ x ∈ acc.1.1 ∧ x ≠ "__proto__")).
  assert (P ([], [], [])) as Hnil.
  { split; simpl; intros x; [intros Hx; by apply elem_of_nil in Hx |].
    unfold JsMap.keys. simpl. rewrite elem_of_nil. tauto. }
  destruct (position player) as [here |];
    [| intros [= <- <- <-]; exact Hnil].
  destruct (truthy (Some here)); [| intros [= <- <- <-]; exact Hnil].
  intros Heq.
  match type of Heq with
  | fold_left ?f ?l ?b = _ => pose proof (fold_left_inv P f l b Hnil) as Hinv
  end.
  rewrite Heq in Hinv. apply Hinv. clear Hinv Heq.
  intros [[ps ds] qs] other Hother [HP1 HP2]. simpl in HP1, HP2.
  destruct (String.eqb (playerId other) (playerId player)) eqn:Eself; simpl;
    [by split |].
  destruct (truthy (position other)) eqn:Etruthy; simpl; [| by split].
  destruct (position other) as [there |] eqn:Epos; [| by split].
  destruct (distanceBetween here there) as [distance |]; [| by split].
  destruct (Qle_bool distance PROXIMITY_RADIUS_METERS); [| by split].
  apply String.eqb_neq in Eself.
  split; cbn [fst snd].
  - intros x Hx. unfold JsSet.add in Hx.
    destruct (JsSet.has (playerId other) ps); [by apply HP1 |].
    apply elem_of_app in Hx as [Hx | Hx]; [by apply HP1 |].
    apply list_elem_of_singleton in Hx as ->.
    split; [done |]. exists other. by rewrite Epos.
  - intros x. rewrite elem_of_add. unfold assign.
    destruct (String.eqb (playerId other) "__proto__") eqn:Eproto.
    + apply String.eqb_eq in Eproto. rewrite HP2. split; [tauto |].
      intros [[-> | ?] ?]; [congruence | tauto].
    + apply String.eqb_neq in Eproto. rewrite keys_set.
      destruct (bool_decide (playerId other ∈ JsMap.keys ds)) eqn:Ekey.
      * apply bool_decide_eq_true in Ekey. rewrite HP2. split; [tauto |].
        intros [[-> | ?] ?]; [by apply HP2 | done].
      * rewrite elem_of_app, list_elem_of_singleton, HP2.
        split; [intros [[? ?] | ->]; tauto |].
        intros [[-> | ?] ?]; tauto.
Qed.

Lemma views_ok_publishPeerDiff player nextPeers distances positions s :
  player ∉ nextPeers →
  (∀ x, x ∈ nextPeers → x ≠ "__proto__" → x ∈ JsMap.keys distances) →
  views_ok s →
  views_ok (publishPeerDiff player nextPeers distances positions s).1.
Proof.
  intros Hself Hkeys Hs. rewrite publishPeerDiff_spec.
  destruct (JsMap.get _ _) as [connection |] eqn:Eget; [| done]. simpl.
  destruct (silent _ _ _ _); [done |]. simpl.
  destruct Hs as [Hk Hp Hr Hv Hd]. constructor; simpl; try done.
  - intros p view Hview. apply lookup_insert_Some in Hview as [[<- _] | [_ ?]].
    + by eapply get_Some_key.
    + by eapply Hr.
  - intros p view Hview. apply lookup_insert_Some in Hview as [[<- <-] | [_ ?]].
    + done.
    + by eapply Hv.
  - intros p view Hview. apply lookup_insert_Some in Hview as [[<- <-] | [? ?]].
    + rewrite lookup_insert_eq. eexists. split; [done |].
      intros x Hx Hproto. by apply distance_map_lookup, Hkeys.
    + rewrite lookup_insert_ne by done. by eapply Hd.
Qed.

Lemma recalculateProximities_observe `{Platform} s :
  recalculateProximities s
  = fold_left
      (λ '(acc, out) player,
         ((observe (JsMap.values (connectionsByPlayer s)) player acc).1,
          out ++ (observe (JsMap.values (connectionsByPlayer s)) player acc).2))
      (JsMap.values (connectionsByPlayer s)) (s, []).
Proof.
  unfold recalculateProximities. apply fold_left_ext.
  intros [acc out] player. unfold observe.
  destruct (neighbours _ player) as [[peers distances] positions].
  by destruct (publishPeerDiff _ _ _ _ _).
Qed.

Lemma views_ok_observe `{Platform} players player s :
  views_ok s → views_ok (observe players player s).1.
Proof.
  intros Hs. unfold observe.
  destruct (neighbours players player) as [[peers distances] positions] eqn:E.
  apply neighbours_spec in E as [H1 H2].
  apply views_ok_publishPeerDiff; [| | done].
  - intros Hin. by apply H1 in Hin as [? _].
  - intros x Hx Hproto. by apply H2.
Qed.

Lemma observe_players `{Platform} players player s :
  connectionsByPlayer (observe players player s).1 = connectionsByPlayer s
  ∧ anonymousConnections (observe players player s).1 = anonymousConnections s
  ∧ pendingSessionsByToken (observe players player s).1 = pendingSessionsByToken s
  ∧ pendingSessionsByPlayer (observe players player s).1 = pendingSessionsByPlayer s
  ∧ proximityTimer (observe players player s).1 = proximityTimer s
  ∧ cleanupTimer (observe players player s).1 = cleanupTimer s.
Proof.
  unfold observe. destruct (neighbours _ _) as [[peers distances] positions].
  rewrite publishPeerDiff_spec. destruct (JsMap.get _ _); [| done]. simpl.
  by destruct (silent _ _ _ _).
Qed.

Lemma views_ok_recalculateProximities `{Platform} s :
  views_ok s → views_ok (recalculateProximities s).1.
Proof.
  intros Hs. rewrite recalculateProximities_observe.
  apply (fold_left_inv (λ acc : State * list Output, views_ok acc.1)); [done |].
  intros [acc out] player _ Hacc. simpl in *. by apply views_ok_observe.
Qed.

Lemma views_ok_pruneInactiveConnections now s :
  views_ok s → views_ok (pruneInactiveConnections now s).1.
Proof.
  intros Hs. unfold pruneInactiveConnections.
  apply (fold_left_inv (λ acc : State * list Output, views_ok acc.1)); [done |].
  intros [acc out] connection _ Hacc. simpl in *.
  destruct (bool_decide _); [| done].
  pose proof (views_ok_handleDisconnect (id connection) acc Hacc).
  by destruct (handleDisconnect _ _).
Qed.

Lemma views_ok_step `{Platform} now input s :
  views_ok s → views_ok (step now input s).1.
Proof.
  intros Hs. destruct input; simpl.
  - eapply same_players_views_ok; [apply same_players_handlePrepare | done].
  - by apply views_ok_handleSocket.
  - unfold onMessage. destruct data as [| parsed]; [done |].
    destruct (decodeSocketMessage parsed) as [message |]; [| done].
    unfold handleSocketMessage.
    repeat case_bool_decide; try done.
    + by apply views_ok_handleRegister.
    + by apply views_ok_handleHeartbeat.
    + by apply views_ok_handlePosition.
    + by rewrite handleSignalRelay_state.
  - by apply views_ok_handleDisconnect.
  - unfold proximityTimerFires. destruct (proximityTimer s); [| done].
    apply views_ok_recalculateProximities. destruct Hs. by constructor.
  - unfold cleanupTimerFires. destruct (cleanupTimer s); [| done].
    pose proof (views_ok_pruneInactiveConnections now (set_cleanupTimer false s)) as Hp.
    destruct (pruneInactiveConnections _ _) as [s1 out]. simpl in *.
    assert (views_ok s1) as H1 by (apply Hp; destruct Hs; by constructor).
    destruct (0 <? _); [| done].
    eapply same_players_views_ok; [apply same_players_scheduleCleanup | done].
Qed.

Lemma views_ok_run `{Platform} inputs : ∀ s, views_ok s → views_ok (run inputs s).1.
Proof.
  induction inputs as [| [now input] inputs IH]; intros s Hs; simpl; [done |].
  pose proof (views_ok_step now input s Hs) as H1.
  destruct (step now input s) as [s1 out1]. simpl in H1.
  specialize (IH s1 H1). by destruct (run inputs s1).
Qed.

Lemma forallb_elem (f : string → bool) l :
  forallb f l = true ↔ ∀ x, x ∈ l → f x = true.
Proof.
  rewrite forallb_forall. by setoid_rewrite <- list_elem_of_In.
Qed.

Lemma existsb_elem {A} (f : A → bool) l :
  existsb f l = false ↔ ∀ x, x ∈ l → f x = false.
Proof.
  induction l as [| a l IH]; simpl.
  - split; [intros _ x Hx; by apply elem_of_nil in Hx | done].
  - rewrite orb_false_iff, IH. split.
    + intros [Ha Hl] x Hx. apply elem_of_cons in Hx as [-> | Hx]; auto.
    + intros Hall. split; [apply Hall; by left |].
      intros x Hx. apply Hall. by right.
Qed.

Lemma silent_unchanged previousPeers (previousDistances : gmap string Q)
    nextPeers distances :
  (∀ x, x ∈ previousPeers → x ≠ "__proto__" →
        is_Some (previousDistances !! x)) →
  (∀ x, x ∈ JsMap.keys distances ↔ x ∈ nextPeers ∧ x ≠ "__proto__") →
  silent previousPeers previousDistances nextPeers distances = true
  ↔ unchanged previousPeers previousDistances nextPeers distances.
Proof.
  intros Hprev Hkeys. unfold silent, unchanged.
  rewrite !andb_true_iff, negb_true_iff, !forallb_elem, existsb_elem.
  setoid_rewrite has_true.
  split.
  - intros [[H1 H2] H3]. split; [split; auto |].
    intros x prev d Hx Hx' Hp Hd.
    specialize (H3 (x, d) Hd). unfold far in H3. simpl in H3.
    rewrite Hp in H3. apply negb_false_iff in H3. by apply Qle_bool_iff.
  - intros [H1 H2]. split; [split; intros x Hx; by apply H1 |].
    intros [x d] Hd. unfold far. simpl.
    assert (x ∈ nextPeers ∧ x ≠ "__proto__") as [Hx Hproto].
    { apply Hkeys. unfold JsMap.keys. apply list_elem_of_fmap. by exists (x, d). }
    assert (x ∈ previousPeers) as Hx' by (by apply H1).
    destruct (Hprev x Hx' Hproto) as [prev Hp]. rewrite Hp.
    apply negb_false_iff, Qle_bool_iff. by eapply H2.
Qed.

Lemma observe_other `{Platform} players player s q :
  q ≠ playerId player →
  peerViewByPlayer (observe players player s).1 !! q = peerViewByPlayer s !! q
  ∧ peerDistancesByPlayer (observe players player s).1 !! q
    = peerDistancesByPlayer s !! q.
Proof.
  intros Hne. unfold observe.
  destruct (neighbours _ _) as [[peers distances] positions].
  rewrite publishPeerDiff_spec. destruct (JsMap.get _ _); [| done]. simpl.
  destruct (silent _ _ _ _); [done |]. simpl.
  by rewrite !lookup_insert_ne by done.
Qed.

Lemma observe_local `{Platform} players player a b :
  connectionsByPlayer a = connectionsByPlayer b →
  peerViewByPlayer a !! playerId player = peerViewByPlayer b !! playerId player →
  peerDistancesByPlayer a !! playerId player
  = peerDistancesByPlayer b !! playerId player →
  (observe players player a).2 = (observe players player b).2
  ∧ peerViewByPlayer (observe players player a).1 !! playerId player
    = peerViewByPlayer (observe players player b).1 !! playerId player
  ∧ peerDistancesByPlayer (observe players player a).1 !! playerId player
    = peerDistancesByPlayer (observe players player b).1 !! playerId player.
Proof.
  intros Hc Hv Hd. unfold observe.
  destruct (neighbours _ _) as [[peers distances] positions].
  rewrite !publishPeerDiff_spec, Hc, Hv, Hd.
  destruct (JsMap.get _ _); [| done]. simpl.
  destruct (silent _ _ _ _); [done |]. simpl.
  by rewrite !lookup_insert_eq.
Qed.

Lemma pass_fold `{Platform} players l : ∀ acc out0,
  NoDup (playerId <$> l) →
  let r :=
    fold_left
      (λ '(acc, out) player,
         ((observe players player acc).1, out ++ (observe players player acc).2))
      l (acc, out0) in
  r.2 = out0 ++ flat_map (λ player, (observe players player acc).2) l
  ∧ connectionsByPlayer r.1 = connectionsByPlayer acc
  ∧ (∀ q, q ∉ playerId <$> l →
          peerViewByPlayer r.1 !! q = peerViewByPlayer acc !! q
          ∧ peerDistancesByPlayer r.1 !! q = peerDistancesByPlayer acc !! q)
  ∧ (∀ player, player ∈ l →
       peerViewByPlayer r.1 !! playerId player
       = peerViewByPlayer (observe players player acc).1 !! playerId player
       ∧ peerDistancesByPlayer r.1 !! playerId player
         = peerDistancesByPlayer (observe players player acc).1 !! playerId player).
Proof.
  induction l as [| a l IH]; intros acc out0 Hnd; simpl.
  - rewrite app_nil_r. split_and!; try done.
    intros player Hp. by apply elem_of_nil in Hp.
  - rewrite fmap_cons in Hnd. apply NoDup_cons in Hnd as [Ha Hnd].
    specialize (IH (observe players a acc).1 (out0 ++ (observe players a acc).2) Hnd).
    simpl in IH. destruct IH as (Hout&Hconn&Hother&Hmine).
    destruct (observe_players players a acc) as (Hca&_).
    assert (∀ player, player ∈ l →
              (observe players player (observe players a acc).1).2
              = (observe players player acc).2
              ∧ peerViewByPlayer (observe players player (observe players a acc).1).1
                  !! playerId player
                = peerViewByPlayer (observe players player acc).1 !! playerId player
              ∧ peerDistancesByPlayer
                  (observe players player (observe players a acc).1).1
                  !! playerId player
                = peerDistancesByPlayer (observe players player acc).1
                    !! playerId player) as Hloc.
    { intros player Hp.
      assert (playerId player ≠ playerId a) as Hne.
      { intros Heq. apply Ha. rewrite <- Heq. by apply list_elem_of_fmap_2. }
      destruct (observe_other players a acc (playerId player) Hne) as [Hv Hd].
      by apply observe_local. }
    split_and!.
    + rewrite Hout, <- app_assoc. f_equal. f_equal.
      clear -Hloc. induction l as [| b l IHl]; [done |]. simpl.
      rewrite (proj1 (Hloc b ltac:(by left))). f_equal.
      apply IHl. intros player Hp. apply Hloc. by right.
    + congruence.
    + intros q Hq. rewrite not_elem_of_cons in Hq. destruct Hq as [Hqa Hq].
      destruct (Hother q Hq) as [-> ->]. by apply observe_other.
    + intros player Hp. apply elem_of_cons in Hp as [-> | Hp].
      * by apply Hother.
      * destruct (Hmine player Hp) as [-> ->]. by apply Hloc.
Qed.

Lemma players_of_keys s :
  views_ok s →
  playerId <$> JsMap.values (connectionsByPlayer s)
  = JsMap.keys (connectionsByPlayer s).
Proof.
  intros [_ Hp _ _ _]. unfold JsMap.values, JsMap.keys.
  induction (connectionsByPlayer s) as [| [k c] m IH]; [done |].
  rewrite !fmap_cons. simpl. f_equal.
  - apply Hp. by left.
  - apply IH. intros k' c' Hin. apply Hp. by right.
Qed.

Lemma player_registered s player :
  views_ok s → player ∈ JsMap.values (connectionsByPlayer s) →
  JsMap.get (playerId player) (connectionsByPlayer s) = Some player.
Proof.
  intros Hs Hin. unfold JsMap.values in Hin.
  apply list_elem_of_fmap in Hin as ([k c]&->&Hin). simpl.
  destruct Hs as [Hk Hp _ _ _]. rewrite (Hp _ _ Hin). by apply elem_get.
Qed.

Lemma previous_distances_cover s p :
  views_ok s →
  ∀ x, x ∈ default [] (peerViewByPlayer s !! p) → x ≠ "__proto__" →
       is_Some (default ∅ (peerDistancesByPlayer s !! p) !! x).
Proof.
  intros [_ _ _ _ Hd] x Hx Hproto.
  destruct (peerViewByPlayer s !! p) as [view |] eqn:E; simpl in Hx.
  - destruct (Hd p view E) as (dm&->&Hdm). simpl. by apply Hdm.
  - by apply elem_of_nil in Hx.
Qed.

(** What one observer's turn does, in the claim's terms. *)
Lemma observe_spec `{Platform} s player peers distances positions :
  views_ok s →
  player ∈ JsMap.values (connectionsByPlayer s) →
  neighbours (JsMap.values (connectionsByPlayer s)) player
  = (peers, distances, positions) →
  let previousPeers := default [] (peerViewByPlayer s !! playerId player) in
  let previousDistances :=
    default ∅ (peerDistancesByPlayer s !! playerId player) in
  let r := observe (JsMap.values (connectionsByPlayer s)) player s in
  (unchanged previousPeers previousDistances peers distances →
   r.2 = []
   ∧ peerViewByPlayer r.1 !! playerId player
     = peerViewByPlayer s !! playerId player
   ∧ peerDistancesByPlayer r.1 !! playerId player
     = peerDistancesByPlayer s !! playerId player)
  ∧ (¬ unchanged previousPeers previousDistances peers distances →
     r.2 = [Send (socket player)
                 (peers_frame previousPeers peers distances positions
                              (length (connectionsByPlayer s)))]
     ∧ peerViewByPlayer r.1 !! playerId player = Some peers
     ∧ peerDistancesByPlayer r.1 !! playerId player
       = Some (distance_map distances)).
Proof.
  intros Hs Hin Hn previousPeers previousDistances r.
  pose proof (neighbours_spec _ _ _ _ _ Hn) as [_ Hkeys].
  pose proof (silent_unchanged previousPeers previousDistances peers distances
                (previous_distances_cover s (playerId player) Hs) Hkeys) as Hiff.
  subst r. unfold observe. rewrite Hn, publishPeerDiff_spec.
  rewrite (player_registered s player Hs Hin). simpl.
  fold previousPeers previousDistances.
  destruct (silent previousPeers previousDistances peers distances) eqn:E.
  - split; [done |]. intros Hnot. exfalso. by apply Hnot, Hiff.
  - split; [intros Hu; apply Hiff in Hu; congruence |].
    intros _. simpl. by rewrite !lookup_insert_eq.
Qed.

Lemma pass_spec `{Platform} now s :
  views_ok s → proximityTimer s = true →
  let players := JsMap.values (connectionsByPlayer s) in
  let s' := (step now ProximityTimer s).1 in
  (step now ProximityTimer s).2
  = flat_map (λ player, (observe players player s).2) players
  ∧ connectionsByPlayer s' = connectionsByPlayer s
  ∧ ∀ player, player ∈ players →
      peerViewByPlayer s' !! playerId player
      = peerViewByPlayer (observe players player s).1 !! playerId player
      ∧ peerDistancesByPlayer s' !! playerId player
        = peerDistancesByPlayer (observe players player s).1 !! playerId player.
Proof.
  intros Hs Harmed players s'.
  set (s0 := set_proximityTimer false s).
  assert (step now ProximityTimer s = recalculateProximities s0) as Hstep
    by (simpl; unfold proximityTimerFires; by rewrite Harmed).
  subst s'. rewrite Hstep, recalculateProximities_observe.
  change (connectionsByPlayer s0) with (connectionsByPlayer s). fold players.
  assert (NoDup (playerId <$> players)) as Hnd.
  { unfold players. rewrite players_of_keys by done. by destruct Hs. }
  destruct (pass_fold players players s0 [] Hnd) as (Hout&Hconn&_&Hmine).
  simpl in Hout, Hmine, Hconn.
  assert (∀ player,
            (observe players player s0).2 = (observe players player s).2
            ∧ peerViewByPlayer (observe players player s0).1 !! playerId player
              = peerViewByPlayer (observe players player s).1 !! playerId player
            ∧ peerDistancesByPlayer (observe players player s0).1 !! playerId player
              = peerDistancesByPlayer (observe players player s).1
                  !! playerId player) as Hsame
    by (intros player; by apply observe_local).
  split_and!.
  - rewrite Hout. simpl.
    assert (∀ l, flat_map (λ player, (observe players player s0).2) l
                 = flat_map (λ player, (observe players player s).2) l) as Hl;
      [| apply Hl].
    induction l as [| a l IH]; [done |].
    simpl. by rewrite (proj1 (Hsame a)), IH.
  - exact Hconn.
  - intros player Hin. destruct (Hmine player Hin) as [-> ->].
    by destruct (Hsame player) as (_&->&->).
Qed.

(** C6. In a recomputation pass the shard writes, observer by observer in
    registration order, what that observer's turn produces: nothing, leaving
    the stored view and distances as they were, when the new peer set equals
    the stored one and no distance of a peer of both moved by more than 0.5
    from the one sent before; otherwise exactly one [peers] frame, the new
    set and its distances becoming the stored view. *)
Theorem diff_suppression `{Platform} (inputs : list (Z * Input)) (now : Z) :
  let s := (run inputs initial).1 in
  proximityTimer s = true →
  let players := JsMap.values (connectionsByPlayer s) in
  let s' := (step now ProximityTimer s).1 in
  (step now ProximityTimer s).2
  = flat_map (λ player, (observe players player s).2) players
  ∧ ∀ player peers distances positions,
      player ∈ players →
      neighbours players player = (peers, distances, positions) →
      let previousPeers := default [] (peerViewByPlayer s !! playerId player) in
      let previousDistances :=
        default ∅ (peerDistancesByPlayer s !! playerId player) in
      (unchanged previousPeers previousDistances peers distances →
       (observe players player s).2 = []
       ∧ peerViewByPlayer s' !! playerId player
         = peerViewByPlayer s !! playerId player
       ∧ peerDistancesByPlayer s' !! playerId player
         = peerDistancesByPlayer s !! playerId player)
      ∧ (¬ unchanged previousPeers previousDistances peers distances →
         (observe players player s).2
         = [Send (socket player)
                 (peers_frame previousPeers peers distances positions
                              (length (connectionsByPlayer s)))]
         ∧ peerViewByPlayer s' !! playerId player = Some peers
         ∧ peerDistancesByPlayer s' !! playerId player
           = Some (distance_map distances)).
Proof.
  intros s Harmed players s'.
  assert (views_ok s) as Hs by apply views_ok_run, views_ok_initial.
  destruct (pass_spec now s Hs Harmed) as (Hout&_&Hmine).
  split; [exact Hout |].
  intros player peers distances positions Hin Hn previousPeers previousDistances.
  subst s'. destruct (Hmine player Hin) as [-> ->].
  by apply observe_spec.
Qed.

Lemma values_cons {V} k (v : V) m : JsMap.values ((k, v) :: m) = v :: JsMap.values m.
Proof. done. Qed.

Lemma values_set_elem {V} k (v : V) m x :
  x ∈ JsMap.values (JsMap.set k v m) → x = v ∨ x ∈ JsMap.values m.
Proof.
  unfold JsMap.values. intros Hx. apply list_elem_of_fmap in Hx as ([k' v']&->&Hin).
  apply elem_of_set in Hin as [[= -> ->] | Hin]; [by left | right].
  apply list_elem_of_fmap. by exists (k', v').
Qed.

Lemma values_set_NoDup {V} (f : V → string) k (v : V) m :
  NoDup (f <$> JsMap.values m) → f v ∉ f <$> JsMap.values m →
  NoDup (f <$> JsMap.values (JsMap.set k v m)).
Proof.
  induction m as [| [k0 v0] m IH]; cbn [JsMap.set]; intros Hnd Hv.
  - rewrite values_cons, fmap_cons. apply NoDup_singleton.
  - rewrite values_cons, fmap_cons in Hnd, Hv.
    apply NoDup_cons in Hnd as [Hv0 Hnd].
    apply not_elem_of_cons in Hv as [Hne Hv].
    destruct (String.eqb k0 k); rewrite values_cons, fmap_cons.
    + apply NoDup_cons. by split.
    + apply NoDup_cons. split; [| by apply IH].
      intros Hin. apply list_elem_of_fmap in Hin as (y&Hy&Hin).
      apply values_set_elem in Hin as [-> | Hin]; [congruence |].
      apply Hv0. rewrite Hy. by apply list_elem_of_fmap_2.
Qed.

Lemma values_delete_sublist {V} k (m : list (string * V)) :
  JsMap.values (JsMap.delete k m) `sublist_of` JsMap.values m.
Proof. unfold JsMap.values. apply fmap_sublist, delete_sublist. Qed.

Lemma ids_mutate c f m :
  (∀ x, id (f x) = id x) →
  id <$> JsMap.values (mutate c f m) = id <$> JsMap.values m.
Proof.
  intros Hf. induction m as [| [k0 v0] m IH]; cbn [mutate]; [done |].
  destruct (String.eqb (id v0) c); rewrite !values_cons, !fmap_cons.
  - by rewrite Hf.
  - by rewrite IH.
Qed.

Lemma same_players_ids_ok a b : same_players a b → ids_ok a → ids_ok b.
Proof.
  intros (Hc&Ha&_&_) [? ? ? ?].
  constructor; unfold registered_ids in *; rewrite ?Hc, ?Ha; done.
Qed.

Lemma same_players_ids_within used a b :
  same_players a b → ids_within used a → ids_within used b.
Proof.
  intros (Hc&Ha&_&_) H. unfold ids_within, registered_ids in *.
  by rewrite Hc, Ha.
Qed.

Lemma ids_ok_mutate c f s :
  (∀ x, id (f x) = id x) → (∀ x, socket (f x) = socket x) →
  ids_ok s →
  ids_ok (set_connectionsByPlayer (mutate c f (connectionsByPlayer s)) s)
  ∧ registered_ids (set_connectionsByPlayer (mutate c f (connectionsByPlayer s)) s)
    = registered_ids s.
Proof.
  intros Hf Hsock [Hnd Han Hs Ha].
  assert (registered_ids
            (set_connectionsByPlayer (mutate c f (connectionsByPlayer s)) s)
          = registered_ids s) as Hids
    by (unfold registered_ids; simpl; by apply ids_mutate).
  split; [| done].
  constructor; rewrite ?Hids; try done. simpl.
  intros k conn Hin. apply elem_of_mutate in Hin as (v0&Hin&[-> | ->]).
  - by eapply Hs.
  - rewrite Hf, Hsock. by eapply Hs.
Qed.

Lemma handleDisconnect_ids c s :
  ids_ok s →
  ids_ok (handleDisconnect c s).1
  ∧ (∀ x, x ∈ registered_ids (handleDisconnect c s).1 → x ∈ registered_ids s)
  ∧ (∀ x, is_Some (anonymousConnections (handleDisconnect c s).1 !! x) →
          is_Some (anonymousConnections s !! x)).
Proof.
  intros Hok. pose proof Hok as [Hnd Han Hs Ha]. unfold handleDisconnect.
  destruct (anonymousConnections s !! c) eqn:Ec.
  - simpl. split_and!; [| done |].
    + constructor; try done; simpl.
      * intros x Hx. apply Han. rewrite lookup_delete_is_Some in Hx. tauto.
      * intros x a' Hx. apply lookup_delete_Some in Hx as [_ Hx]. by eapply Ha.
    + intros x Hx. rewrite lookup_delete_is_Some in Hx. tauto.
  - destruct (List.find _ _) as [[player connection] |] eqn:E;
      [| by split_and!].
    assert (∀ x, x ∈ registered_ids
                   (set_connectionsByPlayer
                      (JsMap.delete player (connectionsByPlayer s)) s)
                 → x ∈ registered_ids s) as Hsub.
    { intros x Hx. unfold registered_ids in *. simpl in Hx.
      eapply elem_of_sublist; [done |].
      apply fmap_sublist, values_delete_sublist. }
    simpl. split_and!.
    + eapply same_players_ids_ok; [apply same_players_scheduleProximityRecalc |].
      constructor; simpl.
      * eapply sublist_NoDup; [exact Hnd |].
        apply fmap_sublist, values_delete_sublist.
      * intros x Hx Hin. eapply Han; [done |]. by apply Hsub.
      * intros k conn Hin. eapply Hs. by eapply elem_of_delete_map.
      * done.
    + intros x Hx. apply Hsub. unfold scheduleProximityRecalc in Hx.
      by destruct (proximityTimer _).
    + intros x Hx. unfold scheduleProximityRecalc in Hx.
      by destruct (proximityTimer _).
Qed.

Lemma handleRegister_ids now c message s :
  ids_ok s →
  ids_ok (handleRegister now c message s).1
  ∧ (∀ x, x ∈ registered_ids (handleRegister now c message s).1 →
          x ∈ registered_ids s ∨ (x = c ∧ is_Some (anonymousConnections s !! c)))
  ∧ (∀ x, is_Some (anonymousConnections (handleRegister now c message s).1 !! x) →
          is_Some (anonymousConnections s !! x)).
Proof.
  intros Hok. pose proof Hok as [Hnd Han Hs Ha]. unfold handleRegister.
  destruct (anonymousConnections s !! c) as [connection |] eqn:Ec;
    [| split_and!; [done | by left | done]].
  assert (ids_ok (set_anonymousConnections (delete c (anonymousConnections s)) s)
          ∧ ∀ x, is_Some (delete c (anonymousConnections s) !! x) →
                 is_Some (anonymousConnections s !! x)) as [Hrej Hrej'].
  { split.
    - constructor; try done; simpl.
      + intros x Hx. apply Han. rewrite lookup_delete_is_Some in Hx. tauto.
      + intros x a' Hx. apply lookup_delete_Some in Hx as [_ Hx]. by eapply Ha.
    - intros x Hx. rewrite lookup_delete_is_Some in Hx. tauto. }
  match goal with |- context [match ?a with Some _ => _ | None => _ end] =>
    destruct a as [[player token] |] end; simpl;
    [| split_and!; [done | by left | done]].
  set (conn := {| id := c; playerId := player; sessionToken := token;
                  socket := anon_socket connection; lastSeen := now;
                  lastPositionAt := None; position := None |}).
  assert (c ∉ registered_ids s) as Hc by (apply Han; by rewrite Ec).
  match goal with
  | |- context [scheduleProximityRecalc (scheduleCleanup ?s3)] =>
      pose proof (same_players_trans _ _ _ (same_players_scheduleCleanup s3)
                    (same_players_scheduleProximityRecalc _)) as Hsame;
      set (s3' := s3) in *
  end.
  assert (ids_ok s3') as Hs3.
  { constructor; simpl.
    + unfold registered_ids. simpl. by apply values_set_NoDup.
    + intros x Hx Hin. unfold registered_ids in Hin. simpl in Hin.
      apply list_elem_of_fmap in Hin as (y&->&Hin).
      rewrite lookup_delete_is_Some in Hx. destruct Hx as [Hne Hx].
      apply values_set_elem in Hin as [-> | Hin]; [done |].
      eapply Han; [exact Hx |]. by apply list_elem_of_fmap_2.
    + intros k v Hin. apply elem_of_set in Hin as [[= -> ->] | Hin].
      * simpl. by eapply Ha.
      * by eapply Hs.
    + intros x a' Hx. apply lookup_delete_Some in Hx as [_ Hx]. by eapply Ha. }
  pose proof Hsame as (Hconn&Hanon&_&_).
  split_and!.
  - eapply same_players_ids_ok; [exact Hsame | exact Hs3].
  - intros x Hx. unfold registered_ids in Hx. rewrite Hconn in Hx. simpl in Hx.
    apply list_elem_of_fmap in Hx as (y&->&Hin).
    apply values_set_elem in Hin as [-> | Hin]; [right; split; [done | by eexists] |].
    left. by apply list_elem_of_fmap_2.
  - intros x Hx. rewrite Hanon in Hx. by apply Hrej'.
Qed.

Lemma no_new_ids_refl a : no_new_ids a a.
Proof. split; [by left | done]. Qed.

Lemma no_new_ids_trans a b c : no_new_ids a b → no_new_ids b c → no_new_ids a c.
Proof.
  intros [H1 H2] [H3 H4]. split.
  - intros x Hx. destruct (H3 x Hx) as [? | ?]; [auto | right; auto].
  - auto.
Qed.

Lemma no_new_ids_same a b : same_players a b → no_new_ids a b.
Proof.
  intros (Hc&Ha&_&_). unfold no_new_ids, registered_ids. rewrite Hc, Ha.
  split; [by left | done].
Qed.

Lemma no_new_ids_within used a b :
  no_new_ids a b → ids_within used a → ids_within used b.
Proof.
  intros [H1 H2] Hu c [Hc | Hc].
  - apply Hu. left. by apply H2.
  - apply Hu. destruct (H1 c Hc); [by right | by left].
Qed.

Lemma recalculateProximities_players `{Platform} s :
  connectionsByPlayer (recalculateProximities s).1 = connectionsByPlayer s
  ∧ anonymousConnections (recalculateProximities s).1 = anonymousConnections s.
Proof.
  rewrite recalculateProximities_observe.
  apply (fold_left_inv
           (λ acc : State * list Output,
              connectionsByPlayer acc.1 = connectionsByPlayer s
              ∧ anonymousConnections acc.1 = anonymousConnections s));
    [done |].
  intros [acc out] player _ [Hc Ha]. simpl in *.
  destruct (observe_players (JsMap.values (connectionsByPlayer s)) player acc)
    as (->&->&_). done.
Qed.

Lemma pruneInactiveConnections_ids now s :
  ids_ok s →
  ids_ok (pruneInactiveConnections now s).1
  ∧ no_new_ids s (pruneInactiveConnections now s).1.
Proof.
  intros Hs. unfold pruneInactiveConnections.
  apply (fold_left_inv
           (λ acc : State * list Output, ids_ok acc.1 ∧ no_new_ids s acc.1));
    [split; [done | apply no_new_ids_refl] |].
  intros [acc out] connection _ [Hacc Hnew]. simpl in *.
  destruct (bool_decide _); [| done].
  destruct (handleDisconnect_ids (id connection) acc Hacc) as (H1&H2&H3).
  destruct (handleDisconnect _ _) as [acc1 out1]. simpl in *.
  split; [done |]. eapply no_new_ids_trans; [exact Hnew |].
  split; [intros x Hx; left; by apply H2 | done].
Qed.

Lemma ids_step `{Platform} now input s used :
  ids_ok s → ids_within used s →
  (∀ c, input = Socket c → c ∉ used) →
  ids_ok (step now input s).1
  ∧ ids_within (match input with Socket c => c :: used | _ => used end)
               (step now input s).1.
Proof.
  intros Hs Hu Hfresh.
  assert (∀ s', ids_ok s' → no_new_ids s s' →
                ids_ok s' ∧ ids_within used s') as Hold
    by (intros s' ? ?; split; [done | by eapply no_new_ids_within]).
  destruct input; simpl.
  - apply Hold.
    + eapply same_players_ids_ok; [apply same_players_handlePrepare | done].
    + apply no_new_ids_same, same_players_handlePrepare.
  - specialize (Hfresh connectionId eq_refl).
    destruct Hs as [Hnd Han Hsock Ha]. split.
    + constructor; simpl; try done.
      * intros c Hc. apply lookup_insert_is_Some in Hc as [<- | [_ Hc]].
        -- intros Hin. apply Hfresh, Hu. by right.
        -- by apply Han.
      * intros c a Hc. apply lookup_insert_Some in Hc as [[<- <-] | [_ Hc]].
        -- done.
        -- by eapply Ha.
    + intros c [Hc | Hc]; simpl in Hc.
      * apply lookup_insert_is_Some in Hc as [<- | [_ Hc]]; [by left |].
        right. apply Hu. by left.
      * right. apply Hu. by right.
  - unfold onMessage. destruct data as [| parsed]; [by apply Hold, no_new_ids_refl |].
    destruct (decodeSocketMessage parsed) as [message |];
      [| by apply Hold, no_new_ids_refl].
    unfold handleSocketMessage.
    repeat case_bool_decide; try (by apply Hold, no_new_ids_refl).
    + destruct (handleRegister_ids now connectionId message s Hs) as (H1&H2&H3).
      apply Hold; [done |]. split; [| done].
      intros x Hx. destruct (H2 x Hx) as [? | [-> ?]]; [by left | by right].
    + unfold handleHeartbeat.
      destruct (lookupConnection _ _); [| by apply Hold, no_new_ids_refl].
      simpl.
      match goal with |- context [mutate ?c ?f _] =>
        destruct (ids_ok_mutate c f s) as [Hm Hids]; [done | done | done |] end.
      apply Hold; [done |]. split; [intros x; rewrite Hids; by left | done].
    + unfold handlePosition.
      destruct (lookupConnection _ _); [| by apply Hold, no_new_ids_refl].
      match goal with |- context [if ?b then _ else _] => destruct b end; simpl.
      * match goal with |- context [mutate ?c ?f _] =>
          destruct (ids_ok_mutate c f s) as [Hm Hids]; [done | done | done |] end.
        apply Hold; [done |]. split; [intros x; rewrite Hids; by left | done].
      * match goal with |- context [mutate ?c ?f _] =>
          destruct (ids_ok_mutate c f s) as [Hm Hids]; [done | done | done |] end.
        apply Hold.
        -- eapply same_players_ids_ok;
             [apply same_players_scheduleProximityRecalc | done].
        -- eapply no_new_ids_trans;
             [| apply no_new_ids_same, same_players_scheduleProximityRecalc].
           split; [intros x; rewrite Hids; by left | done].
    + rewrite handleSignalRelay_state. by apply Hold, no_new_ids_refl.
  - destruct (handleDisconnect_ids connectionId s Hs) as (H1&H2&H3).
    apply Hold; [done |]. split; [intros x Hx; left; by apply H2 | done].
  - unfold proximityTimerFires.
    destruct (proximityTimer s) eqn:E; [| by apply Hold, no_new_ids_refl].
    destruct (recalculateProximities_players (set_proximityTimer false s))
      as [Hc Ha].
    apply Hold.
    + destruct Hs. constructor; unfold registered_ids; rewrite ?Hc, ?Ha; done.
    + unfold no_new_ids, registered_ids. rewrite Hc, Ha.
      split; [by left | done].
  - unfold cleanupTimerFires.
    destruct (cleanupTimer s) eqn:E; [| by apply Hold, no_new_ids_refl].
    destruct (pruneInactiveConnections_ids now (set_cleanupTimer false s))
      as [H1 H2]; [destruct Hs; by constructor |].
    destruct (pruneInactiveConnections _ _) as [s1 out]. simpl in *.
    destruct (0 <? _); [| by apply Hold].
    apply Hold.
    + eapply same_players_ids_ok; [apply same_players_scheduleCleanup | done].
    + eapply no_new_ids_trans; [exact H2 |].
      apply no_new_ids_same, same_players_scheduleCleanup.
Qed.

Lemma ids_ok_initial : ids_ok initial ∧ ids_within [] initial.
Proof.
  split.
  - constructor; simpl; try done.
    + apply NoDup_nil_2.
    + intros c [? Hc]. simpl in Hc. by rewrite lookup_empty in Hc.
    + intros k conn Hin. by apply elem_of_nil in Hin.
  - intros c [[? Hc] | Hc]; [simpl in Hc; by rewrite lookup_empty in Hc |].
    by apply elem_of_nil in Hc.
Qed.

Lemma ids_run `{Platform} inputs : ∀ s used,
  ids_ok s → ids_within used s →
  NoDup (accepted inputs) → (∀ c, c ∈ accepted inputs → c ∉ used) →
  ids_ok (run inputs s).1.
Proof.
  induction inputs as [| [now input] inputs IH]; intros s used Hs Hu Hnd Hfresh;
    simpl; [done |].
  destruct (ids_step now input s used Hs Hu) as [H1 H2].
  { intros c ->. apply Hfresh. simpl. by left. }
  destruct (step now input s) as [s1 out1]. simpl in H1, H2.
  assert (ids_ok (run inputs s1).1) as Hrun; [| by destruct (run inputs s1)].
  destruct input; simpl in Hnd, Hfresh;
    try (by apply (IH s1 used)).
  apply NoDup_cons in Hnd as [Hc Hnd].
  apply (IH s1 (connectionId :: used)); [done | done | done |].
  intros c Hin. rewrite not_elem_of_cons. split.
  - by intros ->.
  - apply Hfresh. by right.
Qed.

Lemma find_by_id m k c :
  NoDup (id <$> JsMap.values m) → (k, c) ∈ m →
  List.find (λ '(_, c'), String.eqb (id c') (id c)) m = Some (k, c).
Proof.
  induction m as [| [k0 c0] m IH]; intros Hnd Hin.
  - by apply elem_of_nil in Hin.
  - rewrite values_cons, fmap_cons in Hnd. apply NoDup_cons in Hnd as [Hc0 Hnd].
    cbn [List.find]. apply elem_of_cons in Hin as [[= -> ->] | Hin].
    + by rewrite String.eqb_refl.
    + destruct (String.eqb (id c0) (id c)) eqn:E; [| by apply IH].
      apply String.eqb_eq in E. exfalso. apply Hc0. rewrite E.
      apply list_elem_of_fmap. exists c. split; [done |].
      unfold JsMap.values. apply list_elem_of_fmap. by exists (k, c).
Qed.

Lemma delete_middle {V} k (v : V) kept rest :
  k ∉ JsMap.keys kept →
  JsMap.delete k (kept ++ (k, v) :: rest) = kept ++ rest.
Proof.
  induction kept as [| [k0 v0] kept IH]; intros Hk; cbn [JsMap.delete app].
  - by rewrite String.eqb_refl.
  - rewrite keys_cons in Hk. apply not_elem_of_cons in Hk as [Hne Hk].
    assert (String.eqb k0 k = false) as -> by (apply String.eqb_neq; congruence).
    by rewrite IH.
Qed.

Lemma handleDisconnect_registered acc k c kept rest :
  connectionsByPlayer acc = kept ++ (k, c) :: rest →
  anonymousConnections acc !! id c = None →
  NoDup (id <$> JsMap.values (kept ++ (k, c) :: rest)) →
  k ∉ JsMap.keys kept →
  ∃ acc1,
    handleDisconnect (id c) acc
    = (acc1, [Close (socket c) 1001 "Connection closed"])
    ∧ connectionsByPlayer acc1 = kept ++ rest
    ∧ anonymousConnections acc1 = anonymousConnections acc.
Proof.
  intros Hc Ha Hi Hk. unfold handleDisconnect.
  rewrite Ha, Hc, (find_by_id _ k c); [| done | apply elem_of_app; right; by left].
  rewrite delete_middle by done.
  eexists. split; [done |].
  match goal with |- context [scheduleProximityRecalc ?s2] =>
    pose proof (same_players_scheduleProximityRecalc s2) as (Hc2&Ha2&_&_) end.
  by rewrite Hc2, Ha2.
Qed.

Lemma prune_fold now : ∀ todo kept acc out0,
  connectionsByPlayer acc = kept ++ todo →
  NoDup (JsMap.keys (kept ++ todo)) →
  NoDup (id <$> JsMap.values (kept ++ todo)) →
  (∀ c, c ∈ id <$> JsMap.values (kept ++ todo) →
        anonymousConnections acc !! c = None) →
  let r :=
    fold_left
      (λ '(acc, out) connection,
         if bool_decide (lastSeen connection < now - HEARTBEAT_TIMEOUT_MS)%Z
         then let '(acc1, out1) := handleDisconnect (id connection) acc in
              (acc1, out ++ out1)
         else (acc, out))
      (JsMap.values todo) (acc, out0) in
  connectionsByPlayer r.1 = kept ++ filter (λ kc, stale now kc.2 = false) todo
  ∧ anonymousConnections r.1 = anonymousConnections acc
  ∧ r.2 = out0 ++ flat_map
                    (λ conn, if stale now conn
                             then [Close (socket conn) 1001 "Connection closed"]
                             else [])
                    (JsMap.values todo).
Proof.
  induction todo as [| [k c] todo IH]; intros kept acc out0 Hc Hk Hi Ha.
  - simpl. by rewrite !app_nil_r in *.
  - rewrite values_cons. cbn [fold_left flat_map].
    destruct (bool_decide (lastSeen c < now - HEARTBEAT_TIMEOUT_MS)%Z) eqn:E.
    + assert (k ∉ JsMap.keys kept) as Hkk.
      { unfold JsMap.keys in *. rewrite fmap_app, fmap_cons in Hk.
        apply NoDup_app in Hk as (_&Hk&_). intros Hin.
        apply (Hk k Hin). by left. }
      destruct (handleDisconnect_registered acc k c kept todo)
        as (acc1&->&Hc2&Ha2); [done | | done | done |].
      { apply Ha. apply list_elem_of_fmap_2. unfold JsMap.values.
        apply list_elem_of_fmap. exists (k, c).
        split; [done |]. apply elem_of_app. right. by left. }
      destruct (IH kept acc1 (out0 ++ [Close (socket c) 1001 "Connection closed"]))
        as (H1&H2&H3).
      * done.
      * eapply sublist_NoDup; [exact Hk |]. unfold JsMap.keys.
        apply fmap_sublist, sublist_app; [done | by apply sublist_cons].
      * eapply sublist_NoDup; [exact Hi |]. unfold JsMap.values.
        do 2 apply fmap_sublist. apply sublist_app; [done | by apply sublist_cons].
      * intros x Hx. rewrite Ha2. apply Ha.
        eapply elem_of_sublist; [exact Hx |]. unfold JsMap.values.
        do 2 apply fmap_sublist. apply sublist_app; [done | by apply sublist_cons].
      * rewrite filter_cons_False by (unfold stale; simpl; rewrite E; done).
        cbv beta iota zeta in *.
        split_and!.
        -- exact H1.
        -- exact (eq_trans H2 Ha2).
        -- refine (eq_trans H3 _).
           assert (stale now c = true) as -> by exact E.
           by rewrite <- app_assoc.
    + destruct (IH (kept ++ [(k, c)]) acc out0) as (H1&H2&H3);
        rewrite <- ?app_assoc; try done.
      rewrite filter_cons_True by (unfold stale; simpl; by rewrite E).
      cbv beta iota zeta in *.
      assert (stale now c = false) as Es by exact E. rewrite Es.
      rewrite <- app_assoc in H1. by split_and!.
Qed.

Lemma pruneInactiveConnections_spec now s :
  views_ok s → ids_ok s →
  connectionsByPlayer (pruneInactiveConnections now s).1
  = filter (λ kc, stale now kc.2 = false) (connectionsByPlayer s)
  ∧ anonymousConnections (pruneInactiveConnections now s).1
    = anonymousConnections s
  ∧ (pruneInactiveConnections now s).2
    = flat_map (λ conn, if stale now conn
                        then [Close (socket conn) 1001 "Connection closed"]
                        else [])
               (JsMap.values (connectionsByPlayer s)).
Proof.
  intros [Hk _ _ _ _] [Hnd Han _ _]. unfold pruneInactiveConnections.
  apply (prune_fold now (connectionsByPlayer s) [] s []); try done.
  intros c Hc. destruct (anonymousConnections s !! c) eqn:E; [| done].
  exfalso. eapply Han; [by rewrite E | done].
Qed.

Lemma recalculateProximities_outputs `{Platform} s o :
  o ∈ (recalculateProximities s).2 →
  ∃ conn frame, conn ∈ JsMap.values (connectionsByPlayer s)
                ∧ o = Send (socket conn) frame.
Proof.
  rewrite recalculateProximities_observe.
  set (P := λ acc : State * list Output,
         connectionsByPlayer acc.1 = connectionsByPlayer s
         ∧ ∀ o, o ∈ acc.2 →
                ∃ conn frame, conn ∈ JsMap.values (connectionsByPlayer s)
                              ∧ o = Send (socket conn) frame).
  intros Ho.
  assert (P (fold_left
               (λ '(acc, out) player,
                  ((observe (JsMap.values (connectionsByPlayer s)) player acc).1,
                   out ++ (observe (JsMap.values (connectionsByPlayer s))
                                   player acc).2))
               (JsMap.values (connectionsByPlayer s)) (s, []))) as [_ HP];
    [| by apply HP].
  apply fold_left_inv.
  - split; [done |]. intros o' Ho'. by apply elem_of_nil in Ho'.
  - intros [acc out] player _ [Hc Hout]. simpl in *.
    destruct (observe_players (JsMap.values (connectionsByPlayer s)) player acc)
      as (Hc'&_).
    split; [exact (eq_trans Hc' Hc) |].
    intros o' Ho'. apply elem_of_app in Ho' as [Ho' | Ho']; [by apply Hout |].
    unfold observe in Ho'.
    destruct (neighbours _ _) as [[peers distances] positions].
    rewrite publishPeerDiff_spec in Ho'.
    destruct (JsMap.get _ _) as [connection |] eqn:Eg;
      [| by apply elem_of_nil in Ho'].
    simpl in Ho'. destruct (silent _ _ _ _); [by apply elem_of_nil in Ho' |].
    apply list_elem_of_singleton in Ho' as ->.
    exists connection. eexists. split; [| done].
    apply get_Some_elem in Eg. rewrite Hc in Eg.
    unfold JsMap.values. apply list_elem_of_fmap. by eexists (_, _).
Qed.

Lemma lookupConnection_elem c s conn :
  lookupConnection c s = Some conn →
  conn ∈ JsMap.values (connectionsByPlayer s) ∧ id conn = c.
Proof.
  unfold lookupConnection. intros Hf. apply find_Some_elem in Hf as [Hin Hid].
  split; [done | by apply String.eqb_eq].
Qed.

Lemma lookupConnection_None c s :
  c ∉ registered_ids s → lookupConnection c s = None.
Proof.
  intros Hc. destruct (lookupConnection c s) as [conn |] eqn:E; [| done].
  apply lookupConnection_elem in E as [Hin <-]. exfalso. apply Hc.
  by apply list_elem_of_fmap_2.
Qed.

Lemma lookupConnection_set c player conn s :
  id conn = c →
  is_Some (List.find (λ x, String.eqb (id x) c)
             (JsMap.values (JsMap.set player conn (connectionsByPlayer s)))).
Proof.
  intros Hid.
  destruct (List.find _ _) as [x |] eqn:E; [by eexists |].
  exfalso. eapply List.find_none in E.
  - rewrite Hid, String.eqb_refl in E. done.
  - apply list_elem_of_In. unfold JsMap.values. apply list_elem_of_fmap.
    exists (player, conn). split; [done |].
    apply get_Some_elem. apply get_set_eq.
Qed.

(** C10. Provided [uuid()] never repeats: no timer removes an anonymous
    connection or writes to its socket; the cleanup timer closes (code 1001)
    and removes exactly the registered connections whose [lastSeen] is more
    than 30 s old; and an anonymous connection leaves the anonymous set only
    on its own socket's close or error, or on its own [register] frame, which
    either promotes it or closes it with code 4001. *)
Theorem anonymous_outlives_timers `{Platform} (inputs : list (Z * Input))
    (now : Z) (c : string) (input : Input) :
  let s := (run inputs initial).1 in
  NoDup (accepted inputs) →
  is_Some (anonymousConnections s !! c) →
  (∀ timer, timer = ProximityTimer ∨ timer = CleanupTimer →
     anonymousConnections (step now timer s).1 = anonymousConnections s
     ∧ ∀ o, o ∈ (step now timer s).2 → on_socket c o = false)
  ∧ (cleanupTimer s = true →
     connectionsByPlayer (step now CleanupTimer s).1
     = filter (λ kc, stale now kc.2 = false) (connectionsByPlayer s)
     ∧ (step now CleanupTimer s).2
       = flat_map (λ conn, if stale now conn
                           then [Close (socket conn) 1001 "Connection closed"]
                           else [])
                  (JsMap.values (connectionsByPlayer s)))
  ∧ (anonymousConnections (step now input s).1 !! c = None →
     input = SocketClosed c
     ∨ ∃ message,
         input = Message c (Text (Some message))
         ∧ as_string (prop (Some message) "type") = Some "register"
         ∧ (is_Some (lookupConnection c (step now input s).1)
            ∨ Close c 4001 "Invalid session token" ∈ (step now input s).2)).
Proof.
  intros s Hfresh Hanon.
  assert (views_ok s) as Hv by apply views_ok_run, views_ok_initial.
  assert (ids_ok s) as Hi.
  { destruct ids_ok_initial as [H0 H1].
    apply (ids_run inputs initial [] H0 H1 Hfresh).
    intros x _. apply not_elem_of_nil. }
  assert (∀ conn, conn ∈ JsMap.values (connectionsByPlayer s) →
                  String.eqb (socket conn) c = false) as Hsock.
  { intros conn Hin. apply String.eqb_neq. intros Heq.
    destruct Hi as [_ Han Hs _]. apply (Han c Hanon).
    unfold JsMap.values in Hin. apply list_elem_of_fmap in Hin as ([k v]&->&Hin).
    simpl in Heq. rewrite (Hs _ _ Hin) in Heq. subst c.
    apply list_elem_of_fmap_2. unfold JsMap.values.
    apply list_elem_of_fmap. by exists (k, v). }
  assert (cleanupTimer s = true →
          connectionsByPlayer (step now CleanupTimer s).1
          = filter (λ kc, stale now kc.2 = false) (connectionsByPlayer s)
          ∧ anonymousConnections (step now CleanupTimer s).1
            = anonymousConnections s
          ∧ (step now CleanupTimer s).2
            = flat_map (λ conn, if stale now conn
                                then [Close (socket conn) 1001 "Connection closed"]
                                else [])
                       (JsMap.values (connectionsByPlayer s))) as Hclean.
  { intros Harmed. simpl. unfold cleanupTimerFires. rewrite Harmed.
    destruct (pruneInactiveConnections_spec now (set_cleanupTimer false s))
      as (H1&H2&H3); [by destruct Hv | by destruct Hi |].
    destruct (pruneInactiveConnections _ _) as [s1 out]. cbn [fst snd] in *.
    destruct (0 <? _); [unfold scheduleCleanup; destruct (cleanupTimer s1) |];
      by split_and!. }
  split_and!.
  - intros timer [-> | ->].
    + simpl. unfold proximityTimerFires.
      destruct (proximityTimer s);
        [| split; [done | intros o Ho; by apply elem_of_nil in Ho]].
      destruct (recalculateProximities_players (set_proximityTimer false s))
        as [_ Ha].
      split; [done |]. intros o Ho.
      apply recalculateProximities_outputs in Ho as (conn&frame&Hin&->).
      simpl. by apply Hsock.
    + destruct (cleanupTimer s) eqn:Harmed.
      * destruct (Hclean eq_refl) as (_&Ha&Ho). split; [done |].
        intros o. rewrite Ho. intros Hin.
        apply list_elem_of_In, in_flat_map in Hin as (conn&Hconn&Hin).
        apply list_elem_of_In in Hconn.
        destruct (stale now conn); [| done].
        destruct Hin as [<- | []]. simpl. by apply Hsock.
      * simpl. unfold cleanupTimerFires. rewrite Harmed.
        split; [done | intros o Ho; by apply elem_of_nil in Ho].
  - intros Harmed. by destruct (Hclean Harmed) as (?&_&?).
  - destruct Hanon as [a Ha]. intros Hgone.
    destruct input; simpl in Hgone.
    + destruct (same_players_handlePrepare now body s) as (_&Heq&_).
      rewrite Heq, Ha in Hgone. done.
    + apply lookup_insert_None in Hgone as [Hgone _]. congruence.
    + right. unfold step, onMessage in *.
      destruct data as [| parsed]; [simpl in Hgone; congruence |].
      destruct (decodeSocketMessage parsed) as [message |] eqn:Ed;
        [| simpl in Hgone; congruence].
      assert (parsed = Some message) as ->.
      { unfold decodeSocketMessage in Ed. destruct parsed as [v |]; [| done].
        destruct (negb _); [done |]. destruct (as_string _); [| done].
        congruence. }
      unfold handleSocketMessage in *.
      case_bool_decide as Ereg.
      * assert (connectionId = c) as ->.
        { destruct (decide (connectionId = c)) as [? | Hne]; [done |].
          exfalso. unfold handleRegister in Hgone.
          destruct (anonymousConnections s !! connectionId); [| simpl in Hgone; congruence].
          match type of Hgone with
          | context [match ?x with Some _ => _ | None => _ end] =>
              destruct x as [[player token] |] end; simpl in Hgone.
          - unfold scheduleProximityRecalc, scheduleCleanup in Hgone.
            repeat match type of Hgone with
                   | context [if ?b then _ else _] => destruct b
                   end; simpl in Hgone;
              rewrite lookup_delete_ne in Hgone by done; congruence.
          - rewrite lookup_delete_ne in Hgone by done. congruence. }
        exists message. split_and!; [done | done |].
        unfold handleRegister in *. rewrite Ha in *.
        match goal with
        | |- context [match ?x with Some _ => _ | None => _ end] =>
            destruct x as [[player token] |] end; simpl.
        -- left.
           match goal with
           | |- context [scheduleProximityRecalc (scheduleCleanup ?s3)] =>
               pose proof (same_players_trans _ _ _
                             (same_players_scheduleCleanup s3)
                             (same_players_scheduleProximityRecalc _))
                 as (Hc&_)
           end.
           unfold lookupConnection. rewrite Hc. simpl.
           by apply lookupConnection_set.
        -- right. destruct Hi as [_ _ _ Hnamed]. rewrite (Hnamed _ _ Ha).
           right. by left.
      * exfalso. repeat case_bool_decide.
        -- unfold handleHeartbeat in Hgone.
           destruct (lookupConnection _ _); simpl in Hgone; congruence.
        -- unfold handlePosition in Hgone.
           destruct (lookupConnection _ _); [| simpl in Hgone; congruence].
           match type of Hgone with
           | context [if ?b then _ else _] => destruct b end; simpl in Hgone;
             [simpl in Hgone; congruence |].
           unfold scheduleProximityRecalc in Hgone.
           destruct (proximityTimer _); simpl in Hgone; congruence.
        -- rewrite handleSignalRelay_state in Hgone. congruence.
        -- simpl in Hgone. congruence.
    + left. destruct (decide (connectionId = c)) as [-> | Hne]; [done |].
      exfalso. unfold handleDisconnect in Hgone.
      destruct (anonymousConnections s !! connectionId); simpl in Hgone.
      * rewrite lookup_delete_ne in Hgone by done. congruence.
      * destruct (List.find _ _) as [[player conn] |]; [| simpl in Hgone; congruence].
        unfold scheduleProximityRecalc in Hgone.
        destruct (proximityTimer _); simpl in Hgone; congruence.
    + unfold proximityTimerFires in Hgone.
      destruct (proximityTimer s); [| simpl in Hgone; congruence].
      destruct (recalculateProximities_players (set_proximityTimer false s))
        as [_ Heq].
      rewrite Heq in Hgone. simpl in Hgone. congruence.
    + destruct (cleanupTimer s) eqn:Harmed.
      * destruct (Hclean eq_refl) as (_&Heq&_). simpl in Heq.
        rewrite Heq in Hgone. congruence.
      * unfold cleanupTimerFires in Hgone. rewrite Harmed in Hgone.
        simpl in Hgone. congruence.
Qed.

Lemma observe_view `{Platform} s player peers distances positions view x :
  views_ok s → player ∈ JsMap.values (connectionsByPlayer s) →
  neighbours (JsMap.values (connectionsByPlayer s)) player
  = (peers, distances, positions) →
  peerViewByPlayer (observe (JsMap.values (connectionsByPlayer s)) player s).1
    !! playerId player = Some view →
  x ∈ view → x ∈ peers.
Proof.
  intros Hs Hin Hn. unfold observe. rewrite Hn, publishPeerDiff_spec.
  rewrite (player_registered s player Hs Hin). simpl.
  destruct (silent _ _ _ _) eqn:E; simpl.
  - intros Hv Hx. unfold silent in E. rewrite Hv in E. simpl in E.
    apply andb_true_iff in E as [E _]. apply andb_true_iff in E as [_ E].
    rewrite forallb_elem in E. by apply has_true, E.
  - rewrite lookup_insert_eq. by intros [= <-].
Qed.

(** C7, as amended. At every point a stored peer view belongs to a
    registered player and does not contain its observer; right after a
    recomputation pass every stored view lists only players that have a
    registered connection with a stored position. *)
Theorem peer_view_invariant `{Platform} (inputs : list (Z * Input)) (now : Z) :
  let s := (run inputs initial).1 in
  (∀ p view, peerViewByPlayer s !! p = Some view →
             (p ∉ view) ∧ p ∈ JsMap.keys (connectionsByPlayer s))
  ∧ (proximityTimer s = true →
     let s' := (step now ProximityTimer s).1 in
     ∀ p view x, peerViewByPlayer s' !! p = Some view → x ∈ view →
       x ≠ p
       ∧ ∃ conn, JsMap.get x (connectionsByPlayer s') = Some conn
                 ∧ truthy (position conn) = true).
Proof.
  intros s.
  assert (views_ok s) as Hs by apply views_ok_run, views_ok_initial.
  split.
  - intros p view Hv. destruct Hs as [_ _ Hr Hself _]. split; eauto.
  - intros Harmed s' p view x Hv Hx.
    assert (views_ok s') as Hs' by (by apply views_ok_step).
    destruct (pass_spec now s Hs Harmed) as (_&Hconn&Hmine).
    fold s' in Hconn, Hmine.
    pose proof (view_registered s' Hs' p view Hv) as Hp.
    rewrite Hconn, <- players_of_keys in Hp by done.
    apply list_elem_of_fmap in Hp as (player&->&Hin).
    destruct (Hmine player Hin) as [Hview _]. rewrite Hv in Hview.
    destruct (neighbours (JsMap.values (connectionsByPlayer s)) player)
      as [[peers distances] positions] eqn:Hn.
    assert (x ∈ peers) as Hpeer
      by (apply (observe_view s player peers distances positions view x Hs Hin Hn);
          [by symmetry | done]).
    destruct (neighbours_spec _ _ _ _ _ Hn) as [H1 _].
    destruct (H1 x Hpeer) as (Hne&other&Hother&<-&Htruthy).
    split; [done |]. exists other. rewrite Hconn.
    split; [by apply player_registered | done].
Qed.

Lemma decode_ok message t :
  is_object (Some message) = true →
  as_string (prop (Some message) "type") = Some t →
  decodeSocketMessage (Some message) = Some message.
Proof. intros Ho Ht. unfold decodeSocketMessage. by rewrite Ho, Ht. Qed.

Lemma decode_Some parsed message :
  decodeSocketMessage parsed = Some message →
  parsed = Some message ∧ is_object (Some message) = true
  ∧ is_Some (as_string (prop (Some message) "type")).
Proof.
  unfold decodeSocketMessage. destruct parsed as [v |]; [| done].
  destruct (is_object (Some v)) eqn:Ho; [| done]. simpl.
  destruct (as_string _) eqn:Et; [| done]. intros [= <-]. by rewrite Et.
Qed.

Lemma step_register `{Platform} now c message s :
  is_object (Some message) = true →
  as_string (prop (Some message) "type") = Some "register" →
  step now (Message c (Text (Some message))) s = handleRegister now c message s.
Proof.
  intros Ho Ht. unfold step, onMessage. rewrite (decode_ok _ _ Ho Ht).
  unfold handleSocketMessage. rewrite Ht. by rewrite bool_decide_eq_true_2.
Qed.

Lemma step_position `{Platform} now c message s :
  is_object (Some message) = true →
  as_string (prop (Some message) "type") = Some "position" →
  step now (Message c (Text (Some message))) s = handlePosition now c message s.
Proof.
  intros Ho Ht. unfold step, onMessage. rewrite (decode_ok _ _ Ho Ht).
  unfold handleSocketMessage. rewrite Ht.
  rewrite !bool_decide_eq_false_2 by done. by rewrite bool_decide_eq_true_2.
Qed.

Lemma step_signal `{Platform} now c message s :
  is_object (Some message) = true →
  as_string (prop (Some message) "type") = Some "signal" →
  step now (Message c (Text (Some message))) s = handleSignalRelay c message s.
Proof.
  intros Ho Ht. unfold step, onMessage. rewrite (decode_ok _ _ Ho Ht).
  unfold handleSocketMessage. rewrite Ht.
  rewrite !bool_decide_eq_false_2 by done. by rewrite bool_decide_eq_true_2.
Qed.

(** C1, as amended. When a player is already registered and a second socket
    registers for the same player with a valid pending session, the shard
    only answers [registered] on the later socket — the earlier socket gets
    no close — and the later connection is the one registered connection of
    that player. *)
Theorem duplicate_register `{Platform} (inputs : list (Z * Input)) (now : Z)
    (c : string) (message : json) (player token : string)
    (earlier : PlayerConnection) (later : AnonymousConnection)
    (pending : PendingSession) :
  let s := (run inputs initial).1 in
  JsMap.get player (connectionsByPlayer s) = Some earlier →
  anonymousConnections s !! c = Some later →
  is_object (Some message) = true →
  as_string (prop (Some message) "type") = Some "register" →
  as_string (prop (Some message) "playerId") = Some player →
  as_string (prop (Some message) "sessionToken") = Some token →
  pendingSessionsByToken s !! token = Some pending →
  ps_playerId pending = player →
  let r := step now (Message c (Text (Some message))) s in
  let registered :=
    {| id := c; playerId := player; sessionToken := token;
       socket := anon_socket later; lastSeen := now;
       lastPositionAt := None; position := None |} in
  r.2 = [Send (anon_socket later) (RegisteredFrame player)]
  ∧ JsMap.get player (connectionsByPlayer r.1) = Some registered
  ∧ JsMap.keys (connectionsByPlayer r.1) = JsMap.keys (connectionsByPlayer s)
  ∧ ∀ k conn, (k, conn) ∈ connectionsByPlayer r.1 → playerId conn = player →
              conn = registered.
Proof.
  intros s Hearlier Hlater Hobj Htype Hplayer Htoken Hpending Hmatch r registered.
  assert (views_ok s) as Hs by apply views_ok_run, views_ok_initial.
  assert (views_ok r.1) as Hr by (by apply views_ok_step).
  assert (r = (scheduleProximityRecalc
                 (scheduleCleanup
                    (set_connectionsByPlayer
                       (JsMap.set player registered (connectionsByPlayer s))
                       (set_anonymousConnections
                          (delete c (anonymousConnections s))
                          (set_pending (delete token (pendingSessionsByToken s))
                             (delete player (pendingSessionsByPlayer s)) s)))),
               [Send (anon_socket later) (RegisteredFrame player)])) as Hreq.
  { subst r. rewrite (step_register now c message s Hobj Htype).
    unfold handleRegister. rewrite Hlater, Htoken, Hplayer. simpl.
    rewrite Hpending, Hmatch, String.eqb_refl. done. }
  assert (connectionsByPlayer r.1
          = JsMap.set player registered (connectionsByPlayer s)) as Hconn.
  { rewrite Hreq. cbn [fst].
    match goal with
    | |- context [scheduleProximityRecalc (scheduleCleanup ?s3)] =>
        destruct (same_players_trans _ _ _ (same_players_scheduleCleanup s3)
                    (same_players_scheduleProximityRecalc _)) as (->&_)
    end.
    done. }
  split_and!.
  - by rewrite Hreq.
  - rewrite Hconn. apply get_set_eq.
  - rewrite Hconn, keys_set. rewrite bool_decide_eq_true_2; [done |].
    by eapply get_Some_key.
  - intros k conn Hin Hp.
    assert (k = player) as -> by (rewrite <- Hp; symmetry; by eapply keys_playerId).
    assert (JsMap.get player (connectionsByPlayer r.1) = Some conn) as Hget
      by (apply elem_get; [by destruct Hr | done]).
    rewrite Hconn, get_set_eq in Hget. congruence.
Qed.

(** C2, as amended. A [signal] frame changes nothing in the shard, so nothing
    is queued. Its payload reaches the target, as
    [signal { from, payload }], exactly when the sender is registered and
    the target id names a registered player; a registered sender whose
    target is not registered gets [signal-delivery-failed]; a sender that is
    not registered gets no answer. *)
Theorem signal_relay `{Platform} (s : State) (now : Z) (c : string)
    (message : json) :
  is_object (Some message) = true →
  as_string (prop (Some message) "type") = Some "signal" →
  let r := step now (Message c (Text (Some message))) s in
  let target :=
    as_string (prop (Some message) "targetId")
      ≫= λ t, JsMap.get t (connectionsByPlayer s) in
  r.1 = s
  ∧ (∀ sock from payload,
       Send sock (SignalFrame from payload) ∈ r.2 ↔
       ∃ source destination,
         lookupConnection c s = Some source ∧ target = Some destination
         ∧ sock = socket destination ∧ from = playerId source
         ∧ payload = prop (Some message) "payload")
  ∧ (∀ source, lookupConnection c s = Some source → target = None →
               r.2 = [Send (socket source)
                           (SignalDeliveryFailedFrame
                              (prop (Some message) "targetId"))])
  ∧ (lookupConnection c s = None → r.2 = []).
Proof.
  intros Hobj Htype r target. subst r.
  rewrite (step_signal now c message s Hobj Htype).
  unfold handleSignalRelay. fold target.
  destruct (lookupConnection c s) as [source |] eqn:Es.
  - destruct target as [destination |] eqn:Et; simpl.
    + split_and!; [done | | done | done].
      intros sock from payload. rewrite list_elem_of_singleton. split.
      * intros [= -> -> ->]. by exists source, destination.
      * intros (?&?&[= <-]&[= <-]&->&->&->). done.
    + split_and!; [done | | by intros ? [= <-] | done].
      intros sock from payload. rewrite list_elem_of_singleton. split.
      * intros [=].
      * intros (?&?&_&[=]&_).
  - simpl. split_and!; [done | | done | done].
    intros sock from payload. split.
    + intros Hin. by apply elem_of_nil in Hin.
    + intros (?&?&[=]&_).
Qed.

Lemma lookupConnection_mutate c f s :
  (∀ x, id (f x) = id x) →
  lookupConnection c
    (set_connectionsByPlayer (mutate c f (connectionsByPlayer s)) s)
  = f <$> lookupConnection c s.
Proof.
  intros Hf. unfold lookupConnection. simpl.
  induction (connectionsByPlayer s) as [| [k v] m IH]; [done |].
  cbn [mutate]. destruct (String.eqb (id v) c) eqn:E.
  - rewrite !values_cons. cbn [List.find]. by rewrite Hf, E.
  - rewrite !values_cons. cbn [List.find]. by rewrite E.
Qed.


(** The second register of the scenario, taken from the state the first five
    inputs lead to. *)
Lemma duplicate_register_witness :
  (step (H := Scenario.platform) 5
        (Scenario.sends "c2" (Scenario.register_message "A" "t2"))
        (run (H := Scenario.platform) (take 5 Scenario.duplicate_register)
             initial).1).2
  = [Send "c2" (RegisteredFrame "A")].
Proof.
  refine (proj1 (duplicate_register (H := Scenario.platform)
                   (take 5 Scenario.duplicate_register) 5 "c2"
                   (Scenario.register_message "A" "t2") "A" "t2"
                   {| id := "c1"; playerId := "A"; sessionToken := "t1";
                      socket := "c1"; lastSeen := 2; lastPositionAt := None;
                      position := None |}
                   {| anon_id := "c2"; anon_socket := "c2"; anon_lastSeen := 4 |}
                   {| ps_playerId := "A"; ps_sessionToken := "t2"; createdAt := 3 |}
                   _ _ _ _ _ _ _ _));
    vm_compute; reflexivity.
Defined.

(** C1 as stated fails: over the whole scenario the shard closes no socket,
    and the earlier socket [c1] gets nothing after its own [registered]. *)
Lemma duplicate_register_closes_nothing :
  (run (H := Scenario.platform) Scenario.duplicate_register initial).2
  = [Response 200; Response 101; Send "c1" (RegisteredFrame "A");
     Response 200; Response 101; Send "c2" (RegisteredFrame "A")]
  ∧ Close "c1" 1001 "Connection closed"
    ∉ (run (H := Scenario.platform) Scenario.duplicate_register initial).2.
Proof.
  split; [vm_compute; reflexivity |].
  intros Hin. vm_compute in Hin.
  repeat (apply elem_of_cons in Hin as [Hin | Hin]; [discriminate |]).
  by apply elem_of_nil in Hin.
Qed.

(** A registered player signals another registered player. *)
Lemma signal_relay_witness :
  (step (H := Scenario.platform) 10
        (Scenario.sends "c1" (Scenario.signal_message "B"))
        (run (H := Scenario.platform) Scenario.two_players initial).1).1
  = (run (H := Scenario.platform) Scenario.two_players initial).1.
Proof.
  refine (proj1 (signal_relay (H := Scenario.platform)
                   (run (H := Scenario.platform) Scenario.two_players initial).1
                   10 "c1" (Scenario.signal_message "B") _ _));
    reflexivity.
Defined.

(** C2 as stated fails: a socket that never registered sends a [signal] and
    gets no [signal-delivery-failed], nor anything else. *)
Lemma unregistered_sender_gets_no_answer :
  let s := (run (H := Scenario.platform) Scenario.lone_socket initial).1 in
  is_Some (anonymousConnections s !! "c1")
  ∧ lookupConnection "c1" s = None
  ∧ step (H := Scenario.platform) 2
         (Scenario.sends "c1" (Scenario.signal_message "zzz")) s
    = (s, []).
Proof.
  split_and!.
  - vm_compute. by eexists.
  - vm_compute. reflexivity.
  - vm_compute. reflexivity.
Qed.


(** The pass that follows the two players' first positions. *)
Lemma diff_suppression_witness :
  let s := (run (H := Scenario.platform) Scenario.two_players initial).1 in
  (step (H := Scenario.platform) 60 ProximityTimer s).2
  = flat_map
      (λ player,
         (observe (H := Scenario.platform)
                  (JsMap.values (connectionsByPlayer s)) player s).2)
      (JsMap.values (connectionsByPlayer s)).
Proof.
  refine (proj1 (diff_suppression (H := Scenario.platform)
                   Scenario.two_players 60 _)).
  vm_compute. reflexivity.
Defined.

(** C7 as stated fails: once [B]'s socket has closed, and until the next
    recomputation, [A]'s stored view still lists [B], who has no connection
    any more. *)
Lemma departed_player_stays_in_view :
  let s := (run (H := Scenario.platform) Scenario.neighbour_leaves initial).1 in
  peerViewByPlayer s !! "A" = Some ["B"]
  ∧ JsMap.get "B" (connectionsByPlayer s) = None
  ∧ proximityTimer s = true.
Proof. split_and!; vm_compute; reflexivity. Qed.

(** A silent third socket, and a cleanup timer firing long after. *)
Lemma anonymous_outlives_timers_witness :
  let s := (run (H := Scenario.platform) Scenario.silent_socket initial).1 in
  anonymousConnections (step (H := Scenario.platform) 100000 CleanupTimer s).1
  = anonymousConnections s.
Proof.
  refine (proj1 (proj1 (anonymous_outlives_timers (H := Scenario.platform)
                          Scenario.silent_socket 100000 "c3" CleanupTimer _ _)
                   CleanupTimer (or_intror eq_refl))).
  - apply (@bool_decide_unpack _ (NoDup_dec _)). vm_compute. exact I.
  - vm_compute. by eexists.
Defined.

(** *** Further properties of the shard *)

Lemma lookupConnection_same a b c :
  connectionsByPlayer b = connectionsByPlayer a →
  lookupConnection c b = lookupConnection c a.
Proof. intros Hc. unfold lookupConnection. by rewrite Hc. Qed.

(** X10. The 10 Hz guard: a [position] frame that arrives less than 100 ms
    after the last accepted one is dropped; it only refreshes [lastSeen],
    schedules no recomputation and is not answered. *)
Theorem position_rate_limit `{Platform} (s : State) (now : Z) (c : string)
    (message : json) (connection : PlayerConnection) :
  is_object (Some message) = true →
  as_string (prop (Some message) "type") = Some "position" →
  lookupConnection c s = Some connection →
  rate_limited now connection = true →
  let r := step now (Message c (Text (Some message))) s in
  r.2 = []
  ∧ lookupConnection c r.1
    = Some {| id := id connection; playerId := playerId connection;
              sessionToken := sessionToken connection;
              socket := socket connection; lastSeen := now;
              lastPositionAt := lastPositionAt connection;
              position := position connection |}
  ∧ proximityTimer r.1 = proximityTimer s
  ∧ JsMap.keys (connectionsByPlayer r.1) = JsMap.keys (connectionsByPlayer s).
Proof.
  intros Hobj Htype Hconn Hlim r. subst r.
  rewrite (step_position now c message s Hobj Htype).
  unfold handlePosition. rewrite Hconn.
  change (match lastPositionAt connection with
          | Some at_ =>
              negb (at_ =? 0)%Z
              && bool_decide (now - at_ < POSITION_UPDATE_MIN_INTERVAL_MS)%Z
          | None => false
          end) with (rate_limited now connection).
  rewrite Hlim. simpl. split_and!; [done | | done | apply keys_mutate].
  rewrite lookupConnection_mutate by done. by rewrite Hconn.
Qed.

Lemma position_rate_limit_witness :
  (step (H := Scenario.platform) 50
        (Scenario.sends "c1" (Scenario.position_message (Scenario.vector 9 9 9)))
        (run (H := Scenario.platform) Scenario.two_players initial).1).2 = [].
Proof.
  refine (proj1 (position_rate_limit (H := Scenario.platform)
                   (run (H := Scenario.platform) Scenario.two_players initial).1
                   50 "c1"
                   (Scenario.position_message (Scenario.vector 9 9 9))
                   {| id := "c1"; playerId := "A"; sessionToken := "ta";
                      socket := "c1"; lastSeen := 3; lastPositionAt := Some 3%Z;
                      position := Some (Scenario.vector 0 0 0) |}
                   _ _ _ _)); vm_compute; reflexivity.
Defined.

Lemma mutate_nil c f m : mutate c f m = [] → m = [].
Proof.
  destruct m as [| [k v] m]; [done |]. simpl. by destruct (String.eqb _ _).
Qed.

Lemma handleDisconnect_cleanupTimer c s :
  cleanupTimer (handleDisconnect c s).1 = cleanupTimer s
  ∧ (connectionsByPlayer (handleDisconnect c s).1 ≠ [] →
     connectionsByPlayer s ≠ []).
Proof.
  unfold handleDisconnect.
  destruct (anonymousConnections s !! c); [done |].
  destruct (List.find _ _) as [[player connection] |] eqn:E; [| done].
  simpl. split.
  - unfold scheduleProximityRecalc. simpl. by destruct (proximityTimer s).
  - intros _ Hnil. by rewrite Hnil in E.
Qed.

Lemma recalculateProximities_cleanupTimer `{Platform} s :
  cleanupTimer (recalculateProximities s).1 = cleanupTimer s.
Proof.
  rewrite recalculateProximities_observe.
  apply (fold_left_inv
           (λ r : State * list Output, cleanupTimer r.1 = cleanupTimer s));
    [done |].
  intros [acc out] player _ Hacc. simpl in *.
  destruct (observe_players (JsMap.values (connectionsByPlayer s)) player acc)
    as (_&_&_&_&_&->). done.
Qed.

Lemma pruneInactiveConnections_cleanupTimer now s :
  cleanupTimer (pruneInactiveConnections now s).1 = cleanupTimer s.
Proof.
  unfold pruneInactiveConnections.
  apply (fold_left_inv
           (λ r : State * list Output, cleanupTimer r.1 = cleanupTimer s));
    [done |].
  intros [acc out] connection _ Hacc. simpl in *.
  destruct (bool_decide _); [| done].
  pose proof (handleDisconnect_cleanupTimer (id connection) acc) as [Ht _].
  destruct (handleDisconnect (id connection) acc) as [acc1 out1]. simpl in *.
  congruence.
Qed.

Lemma pruneExpiredSessions_timers now s :
  cleanupTimer (pruneExpiredSessions now s) = cleanupTimer s
  ∧ proximityTimer (pruneExpiredSessions now s) = proximityTimer s.
Proof. unfold pruneExpiredSessions. by destruct (map_fold _ _ _). Qed.

Lemma handlePrepare_timers now body s :
  cleanupTimer (handlePrepare now body s).1 = cleanupTimer s
  ∧ proximityTimer (handlePrepare now body s).1 = proximityTimer s.
Proof.
  unfold handlePrepare. destruct body as [b |]; [| done].
  destruct (is_object (Some b)); [| done].
  destruct (as_string (prop (Some b) "playerId")) as [player |]; [| done].
  destruct (as_string (prop (Some b) "sessionToken")) as [token |]; [| done].
  destruct (pruneExpiredSessions_timers now s) as [Hc Hp].
  destruct (pendingSessionsByPlayer (pruneExpiredSessions now s) !! player)
    as [existing |]; [destruct (negb _) |]; simpl; by rewrite Hc, Hp.
Qed.

(** The sweep stays scheduled for as long as a player is registered. *)
Lemma cleanup_armed_step `{Platform} now input s :
  (connectionsByPlayer s ≠ [] → cleanupTimer s = true) →
  connectionsByPlayer (step now input s).1 ≠ [] →
  cleanupTimer (step now input s).1 = true.
Proof.
  intros Hinv. destruct input as [body | c | c data | c | |]; simpl.
  - destruct (same_players_handlePrepare now body s) as (->&_).
    by destruct (handlePrepare_timers now body s) as [-> _].
  - done.
  - unfold onMessage. destruct data as [| parsed]; [done |].
    destruct (decodeSocketMessage parsed) as [message |]; [| done].
    unfold handleSocketMessage.
    repeat (destruct (bool_decide _)).
    + unfold handleRegister.
      destruct (anonymousConnections s !! c) as [anon |]; [| done].
      match goal with
      | |- context [match ?a with Some _ => _ | None => _ end] =>
          destruct a as [[player token] |]
      end; [| done].
      intros _. unfold scheduleProximityRecalc, scheduleCleanup. simpl.
      destruct (cleanupTimer s) eqn:E; simpl;
        destruct (proximityTimer s); simpl; done.
    + unfold handleHeartbeat. destruct (lookupConnection c s); [| done].
      simpl. intros Hne. apply Hinv. intros Hnil. apply Hne. by rewrite Hnil.
    + unfold handlePosition. destruct (lookupConnection c s); [| done].
      match goal with |- context [if ?b then _ else _] => destruct b end;
        simpl; intros Hne.
      * apply Hinv. intros Hnil. apply Hne. by rewrite Hnil.
      * replace (cleanupTimer (scheduleProximityRecalc _)) with (cleanupTimer s)
          by (unfold scheduleProximityRecalc; simpl; by destruct (proximityTimer s)).
        apply Hinv. intros Hnil. apply Hne.
        unfold scheduleProximityRecalc. simpl.
        destruct (proximityTimer s); simpl; by rewrite Hnil.
    + rewrite handleSignalRelay_state. done.
    + done.
  - destruct (handleDisconnect_cleanupTimer c s) as [-> Hne]. auto.
  - unfold proximityTimerFires. destruct (proximityTimer s); [| done].
    rewrite recalculateProximities_cleanupTimer.
    destruct (recalculateProximities_players (set_proximityTimer false s))
      as [-> _]. done.
  - unfold cleanupTimerFires. destruct (cleanupTimer s) eqn:E;
      [| intros Hne; simpl in Hne; specialize (Hinv Hne); congruence].
    destruct (pruneInactiveConnections now (set_cleanupTimer false s))
      as [s1 out] eqn:Ep. simpl.
    destruct (0 <? length (connectionsByPlayer s1)) eqn:El.
    + intros _. unfold scheduleCleanup. by destruct (cleanupTimer s1) eqn:E1.
    + apply Nat.ltb_ge in El. intros Hne.
      destruct (connectionsByPlayer s1); [done | simpl in El; lia].
Qed.

(** X11. In every state the shard reaches, the cleanup sweep is scheduled
    whenever a player is registered: no registered connection is ever left
    without the timer that would close it once it falls silent. *)
Theorem cleanup_stays_scheduled `{Platform} (inputs : list (Z * Input)) :
  let s := (run inputs initial).1 in
  connectionsByPlayer s ≠ [] → cleanupTimer s = true.
Proof.
  assert (∀ s0, (connectionsByPlayer s0 ≠ [] → cleanupTimer s0 = true) →
            connectionsByPlayer (run inputs s0).1 ≠ [] →
            cleanupTimer (run inputs s0).1 = true) as Hrun.
  { induction inputs as [| [now input] inputs IH]; intros s0 Hinv; [done |].
    cbn [run].
    pose proof (cleanup_armed_step now input s0 Hinv) as Hstep.
    destruct (step now input s0) as [s1 out1].
    specialize (IH s1 Hstep). destruct (run inputs s1) as [s2 out2]. done. }
  apply Hrun. done.
Qed.

Lemma cleanup_stays_scheduled_witness :
  cleanupTimer (run (H := Scenario.platform) Scenario.two_players initial).1
  = true.
Proof.
  apply (cleanup_stays_scheduled (H := Scenario.platform) Scenario.two_players).
  vm_compute. discriminate.
Defined.

(** The frame of the client's [register], as the shard reads it. *)
Lemma register_frame now c player token frame s `{Platform} :
  Client.register true (Client.new player token) = Some frame →
  step now (Message c (Text (Some frame))) s
  = match anonymousConnections s !! c with
    | None =>
        (s, sendToConnection c (ErrorFrame "Connection not found") s)
    | Some connection =>
        match pendingSessionsByToken s !! token with
        | Some expected =>
            if String.eqb (ps_playerId expected) player
            then
              (scheduleProximityRecalc
                 (scheduleCleanup
                    (set_connectionsByPlayer
                       (JsMap.set player
                          {| id := c; playerId := player; sessionToken := token;
                             socket := anon_socket connection; lastSeen := now;
                             lastPositionAt := None; position := None |}
                          (connectionsByPlayer s))
                       (set_anonymousConnections
                          (delete c (anonymousConnections s))
                          (set_pending
                             (delete token (pendingSessionsByToken s))
                             (delete player (pendingSessionsByPlayer s)) s)))),
               [Send (anon_socket connection) (RegisteredFrame player)])
            else
              (set_anonymousConnections (delete c (anonymousConnections s)) s,
               [Send (anon_socket connection) (ErrorFrame "Invalid session token");
                Close (anon_socket connection) 4001 "Invalid session token"])
        | None =>
            (set_anonymousConnections (delete c (anonymousConnections s)) s,
             [Send (anon_socket connection) (ErrorFrame "Invalid session token");
              Close (anon_socket connection) 4001 "Invalid session token"])
        end
    end.
Proof.
  intros [= <-]. rewrite step_register by done.
  unfold handleRegister. destruct (anonymousConnections s !! c); [| done].
  change (as_string (prop (Some (JObj _)) "sessionToken")) with (Some token).
  change (as_string (prop (Some (JObj _)) "playerId")) with (Some player).
  simpl. destruct (pendingSessionsByToken s !! token) as [expected |]; [| done].
  by destruct (String.eqb _ _).
Qed.

(** X12. A session token registers once. After the register that uses it, the
    same token is refused on any other socket, which is closed with code
    4001, whichever player the second frame names; and a second [register]
    on the socket that is now registered is answered with an error and
    changes nothing. *)
Theorem session_token_registers_once `{Platform} (s : State) (now later : Z)
    (c : string) (player token : string) (frame : json)
    (connection : AnonymousConnection) (pending : PendingSession) :
  Client.register true (Client.new player token) = Some frame →
  anonymousConnections s !! c = Some connection →
  pendingSessionsByToken s !! token = Some pending →
  ps_playerId pending = player →
  let r := step now (Message c (Text (Some frame))) s in
  r.2 = [Send (anon_socket connection) (RegisteredFrame player)]
  ∧ pendingSessionsByToken r.1 !! token = None
  ∧ (∀ c' other frame' connection',
       Client.register true (Client.new other token) = Some frame' →
       anonymousConnections r.1 !! c' = Some connection' →
       step later (Message c' (Text (Some frame'))) r.1
       = (set_anonymousConnections (delete c' (anonymousConnections r.1)) r.1,
          [Send (anon_socket connection') (ErrorFrame "Invalid session token");
           Close (anon_socket connection') 4001 "Invalid session token"]))
  ∧ ∃ registered,
      lookupConnection c r.1 = Some registered
      ∧ step later (Message c (Text (Some frame))) r.1
        = (r.1, [Send (socket registered) (ErrorFrame "Connection not found")]).
Proof.
  intros Hframe Hanon Hpending Hplayer r.
  assert (pendingSessionsByToken r.1 = delete token (pendingSessionsByToken s)
          ∧ anonymousConnections r.1 = delete c (anonymousConnections s)
          ∧ connectionsByPlayer r.1
            = JsMap.set player
                {| id := c; playerId := player; sessionToken := token;
                   socket := anon_socket connection; lastSeen := now;
                   lastPositionAt := None; position := None |}
                (connectionsByPlayer s)
          ∧ r.2 = [Send (anon_socket connection) (RegisteredFrame player)])
    as (Hp&Ha&Hc&Hout).
  { subst r. rewrite (register_frame now c player token frame s Hframe).
    rewrite Hanon, Hpending, Hplayer, String.eqb_refl.
    unfold scheduleProximityRecalc, scheduleCleanup. simpl.
    destruct (cleanupTimer s); simpl; by destruct (proximityTimer s). }
  split_and!.
  - done.
  - by rewrite Hp, lookup_delete_eq.
  - intros c' other frame' connection' Hframe' Hanon'.
    rewrite (register_frame later c' other token frame' r.1 Hframe').
    by rewrite Hanon', Hp, lookup_delete_eq.
  - destruct (lookupConnection_set c player
                {| id := c; playerId := player; sessionToken := token;
                   socket := anon_socket connection; lastSeen := now;
                   lastPositionAt := None; position := None |} s eq_refl)
      as [registered Hreg].
    exists registered.
    assert (lookupConnection c r.1 = Some registered) as Hlook
      by (unfold lookupConnection; by rewrite Hc).
    split; [done |].
    rewrite (register_frame later c player token frame r.1 Hframe).
    rewrite Ha, lookup_delete_eq. unfold sendToConnection.
    by rewrite Ha, lookup_delete_eq, Hlook.
Qed.

Lemma session_token_registers_once_witness :
  pendingSessionsByToken
    (step (H := Scenario.platform) 2
          (Scenario.sends "c1" (Scenario.register_message "A" "t1"))
          (run (H := Scenario.platform) (take 2 Scenario.duplicate_register)
               initial).1).1 !! "t1" = None.
Proof.
  refine (proj1 (proj2 (session_token_registers_once (H := Scenario.platform)
                          (run (H := Scenario.platform)
                               (take 2 Scenario.duplicate_register) initial).1
                          2 3 "c1" "A" "t1" (Scenario.register_message "A" "t1")
                          {| anon_id := "c1"; anon_socket := "c1";
                             anon_lastSeen := 1 |}
                          {| ps_playerId := "A"; ps_sessionToken := "t1";
                             createdAt := 0 |}
                          _ _ _ _))); vm_compute; reflexivity.
Defined.

Lemma reachable_ok `{Platform} inputs :
  NoDup (accepted inputs) →
  views_ok (run inputs initial).1 ∧ ids_ok (run inputs initial).1.
Proof.
  intros Hfresh. split; [apply views_ok_run, views_ok_initial |].
  destruct ids_ok_initial as [H0 H1].
  apply (ids_run inputs initial [] H0 H1 Hfresh).
  intros x _. apply not_elem_of_nil.
Qed.

(** What the firing of the cleanup timer does. *)
Lemma sweep_spec `{Platform} now s :
  views_ok s → ids_ok s → cleanupTimer s = true →
  connectionsByPlayer (step now CleanupTimer s).1
  = filter (λ kc, stale now kc.2 = false) (connectionsByPlayer s)
  ∧ anonymousConnections (step now CleanupTimer s).1 = anonymousConnections s
  ∧ (step now CleanupTimer s).2
    = flat_map (λ conn, if stale now conn
                        then [Close (socket conn) 1001 "Connection closed"]
                        else [])
               (JsMap.values (connectionsByPlayer s)).
Proof.
  intros Hv Hi Harmed. simpl. unfold cleanupTimerFires. rewrite Harmed.
  destruct (pruneInactiveConnections_spec now (set_cleanupTimer false s))
    as (H1&H2&H3); [by destruct Hv | by destruct Hi |].
  destruct (pruneInactiveConnections _ _) as [s1 out]. cbn [fst snd] in *.
  destruct (0 <? _); [unfold scheduleCleanup; destruct (cleanupTimer s1) |];
    by split_and!.
Qed.

Lemma values_filter now (m : list (string * PlayerConnection)) :
  JsMap.values (filter (λ kc, stale now kc.2 = false) m)
  = filter (λ conn, stale now conn = false) (JsMap.values m).
Proof.
  induction m as [| [k v] m IH]; [done |].
  rewrite values_cons. destruct (stale now v) eqn:E.
  - by rewrite !filter_cons_False by (simpl; congruence).
  - rewrite !filter_cons_True by done. by rewrite values_cons, IH.
Qed.

Lemma find_filter {A} (f : A → bool) (P : A → Prop) `{∀ x, Decision (P x)}
    (l : list A) x :
  List.find f l = Some x → P x → List.find f (filter P l) = Some x.
Proof.
  induction l as [| a l IH]; [done |]. cbn [List.find].
  destruct (f a) eqn:E.
  - intros [= ->] Hx. rewrite filter_cons_True by done. cbn [List.find].
    by rewrite E.
  - intros Hfind Hx. destruct (decide (P a)).
    + rewrite filter_cons_True by done. cbn [List.find]. rewrite E. by apply IH.
    + rewrite filter_cons_False by done. by apply IH.
Qed.

Lemma same_id (l : list PlayerConnection) a b :
  NoDup (id <$> l) → a ∈ l → b ∈ l → id a = id b → a = b.
Proof.
  induction l as [| x l IH]; intros Hnd Ha Hb Heq.
  - by apply elem_of_nil in Ha.
  - rewrite fmap_cons in Hnd. apply NoDup_cons in Hnd as [Hx Hnd].
    apply elem_of_cons in Ha as [-> | Ha]; apply elem_of_cons in Hb as [-> | Hb].
    + done.
    + exfalso. apply Hx. rewrite Heq. by apply list_elem_of_fmap_2.
    + exfalso. apply Hx. rewrite <- Heq. by apply list_elem_of_fmap_2.
    + by apply IH.
Qed.

(** A registered connection whose [lastSeen] is recent survives the sweep,
    and its socket is not closed. *)
Lemma survives_sweep `{Platform} now s c conn :
  views_ok s → ids_ok s →
  lookupConnection c s = Some conn → stale now conn = false →
  lookupConnection c (step now CleanupTimer s).1 = Some conn
  ∧ Close (socket conn) 1001 "Connection closed" ∉ (step now CleanupTimer s).2.
Proof.
  intros Hv Hi Hlook Hfresh.
  destruct (cleanupTimer s) eqn:Harmed; cycle 1.
  { simpl. unfold cleanupTimerFires. rewrite Harmed. simpl.
    split; [done | apply not_elem_of_nil]. }
  destruct (sweep_spec now s Hv Hi Harmed) as (Hc&_&Hout). split.
  - unfold lookupConnection in *. rewrite Hc.
    rewrite values_filter. by apply find_filter.
  - rewrite Hout. intros Hin. apply list_elem_of_In, in_flat_map in Hin
      as (other&Hother&Hin).
    apply list_elem_of_In in Hother.
    destruct (stale now other) eqn:Hstale; [| by destruct Hin].
    destruct Hin as [[= Hsock] | []].
    apply lookupConnection_elem in Hlook as [Hconn Hid].
    assert (other = conn) as ->; [| congruence].
    destruct Hi as [Hnd _ Hnamed _].
    apply (same_id (JsMap.values (connectionsByPlayer s))); try done.
    unfold JsMap.values in Hother, Hconn.
    apply list_elem_of_fmap in Hother as ([k1 v1]&->&H1).
    apply list_elem_of_fmap in Hconn as ([k2 v2]&->&H2). simpl in *.
    rewrite <- (Hnamed _ _ H1), <- (Hnamed _ _ H2). done.
Qed.

(** X13. A heartbeat keeps a connection alive: after a [heartbeat] frame at
    time [t] the connection's [lastSeen] is [t], and a sweep up to 30 s
    later neither removes the connection nor closes its socket. *)
Theorem heartbeat_keeps_alive `{Platform} (inputs : list (Z * Input))
    (t now : Z) (c : string) (conn : PlayerConnection) (frame : json) :
  let s := (run inputs initial).1 in
  NoDup (accepted inputs) →
  lookupConnection c s = Some conn →
  Client.sendHeartbeat true = [frame] →
  (now <= t + HEARTBEAT_TIMEOUT_MS)%Z →
  let s1 := (step t (Message c (Text (Some frame))) s).1 in
  lastSeen <$> lookupConnection c s1 = Some t
  ∧ is_Some (lookupConnection c (step now CleanupTimer s1).1)
  ∧ Close (socket conn) 1001 "Connection closed"
    ∉ (step now CleanupTimer s1).2.
Proof.
  intros s Hfresh Hlook [= <-] Hnow s1.
  destruct (reachable_ok inputs Hfresh) as [Hv Hi]. fold s in Hv, Hi.
  set (beat := λ x : PlayerConnection,
         {| id := id x; playerId := playerId x; sessionToken := sessionToken x;
            socket := socket x; lastSeen := t;
            lastPositionAt := lastPositionAt x; position := position x |}).
  assert (s1 = set_connectionsByPlayer
                 (mutate c beat (connectionsByPlayer s)) s) as Hs1.
  { unfold s1. simpl. unfold handleSocketMessage. simpl.
    unfold handleHeartbeat. by rewrite Hlook. }
  assert (lookupConnection c s1 = Some (beat conn)) as Hlook1.
  { rewrite Hs1, lookupConnection_mutate by done. by rewrite Hlook. }
  assert (views_ok s1) as Hv1 by (rewrite Hs1; by apply views_ok_mutate).
  assert (ids_ok s1) as Hi1 by (rewrite Hs1; by apply ids_ok_mutate).
  assert (stale now (beat conn) = false) as Hfresh1.
  { unfold stale. simpl. apply bool_decide_eq_false.
    unfold HEARTBEAT_TIMEOUT_MS in *. lia. }
  destruct (survives_sweep now s1 c (beat conn) Hv1 Hi1 Hlook1 Hfresh1)
    as [Hkept Hopen].
  split_and!; [by rewrite Hlook1 | by rewrite Hkept | done].
Qed.

Lemma heartbeat_keeps_alive_witness :
  let s := (run (H := Scenario.platform) Scenario.two_players initial).1 in
  is_Some
    (lookupConnection "c1"
       (step (H := Scenario.platform) 30010 CleanupTimer
             (step (H := Scenario.platform) 10
                   (Scenario.sends "c1" (JObj [("type", JStr "heartbeat")]))
                   s).1).1).
Proof.
  refine (proj1 (proj2 (heartbeat_keeps_alive (H := Scenario.platform)
                          Scenario.two_players 10 30010 "c1"
                          {| id := "c1"; playerId := "A"; sessionToken := "ta";
                             socket := "c1"; lastSeen := 3;
                             lastPositionAt := Some 3%Z;
                             position := Some (Scenario.vector 0 0 0) |}
                          (JObj [("type", JStr "heartbeat")]) _ _ _ _))).
  - apply (@bool_decide_unpack _ (NoDup_dec _)). vm_compute. exact I.
  - vm_compute. reflexivity.
  - reflexivity.
  - vm_compute. discriminate.
Defined.

Lemma find_entry_None c (m : list (string * PlayerConnection)) :
  c ∉ id <$> JsMap.values m →
  List.find (λ '(_, c'), String.eqb (id c') c) m = None.
Proof.
  induction m as [| [k v] m IH]; [done |]. rewrite values_cons, fmap_cons.
  intros Hout. apply not_elem_of_cons in Hout as [Hne Hout]. cbn [List.find].
  destruct (String.eqb (id v) c) eqn:E; [| by apply IH].
  apply String.eqb_eq in E. congruence.
Qed.

Lemma find_delete_other (f : PlayerConnection → bool) k v
    (m : list (string * PlayerConnection)) :
  JsMap.get k m = Some v → f v = false →
  List.find f (JsMap.values (JsMap.delete k m)) = List.find f (JsMap.values m).
Proof.
  induction m as [| [k0 v0] m IH]; [done |]. cbn [JsMap.get JsMap.delete].
  destruct (String.eqb k0 k).
  - intros [= ->] Hf. rewrite values_cons. cbn [List.find]. by rewrite Hf.
  - intros Hget Hf. rewrite !values_cons. cbn [List.find].
    destruct (f v0); [done | by apply IH].
Qed.

(** X14. Closing is final and local. Once the shard has handled the close of
    a socket, the connection it named is gone, registered or not; a second
    close or error event of the same socket does nothing; and every other
    connection is as it was. *)
Theorem socket_close_is_final `{Platform} (inputs : list (Z * Input))
    (now later : Z) (c : string) :
  let s := (run inputs initial).1 in
  NoDup (accepted inputs) →
  let s1 := (step now (SocketClosed c) s).1 in
  anonymousConnections s1 !! c = None
  ∧ lookupConnection c s1 = None
  ∧ step later (SocketClosed c) s1 = (s1, [])
  ∧ ∀ x, x ≠ c →
      anonymousConnections s1 !! x = anonymousConnections s !! x
      ∧ lookupConnection x s1 = lookupConnection x s.
Proof.
  intros s Hfresh s1.
  destruct (reachable_ok inputs Hfresh) as [Hv Hi]. fold s in Hv, Hi.
  assert (anonymousConnections s1 !! c = None
          ∧ (c ∉ registered_ids s1)
          ∧ ∀ x, x ≠ c →
              anonymousConnections s1 !! x = anonymousConnections s !! x
              ∧ lookupConnection x s1 = lookupConnection x s) as (Ha&Hr&Hx).
  { unfold s1. simpl. unfold handleDisconnect.
    destruct (anonymousConnections s !! c) as [anon |] eqn:Eanon.
    - simpl. split_and!.
      + apply lookup_delete_eq.
      + apply (anonymous_not_registered s Hi). by eexists.
      + intros x Hne. split; [by apply lookup_delete_ne | done].
    - destruct (List.find _ _) as [[player conn] |] eqn:Efind; cycle 1.
      { split_and!; [done | | done].
        intros Hin. apply list_elem_of_fmap in Hin as (conn&->&Hin).
        unfold JsMap.values in Hin.
        apply list_elem_of_fmap in Hin as ([k v]&->&Hin). simpl in *.
        destruct Hi as [Hnd _ _ _].
        by rewrite (find_by_id _ k v Hnd Hin) in Efind. }
      apply find_Some_elem in Efind as [Hin Hid]. apply String.eqb_eq in Hid.
      pose proof Hv as [Hkeys Hplayer _ _ _].
      pose proof Hi as [Hnd _ _ _].
      assert (JsMap.get player (connectionsByPlayer s) = Some conn) as Hget
        by (by apply elem_get).
      match goal with
      | |- context [scheduleProximityRecalc ?s2] =>
          destruct (same_players_scheduleProximityRecalc s2) as (Hc2&Ha2&_);
          set (s3 := scheduleProximityRecalc s2) in *
      end.
      simpl in Hc2, Ha2. cbn [fst snd]. unfold registered_ids, lookupConnection.
      rewrite Hc2, Ha2. clearbody s3.
      split_and!; [done | |].
      + intros Hc. apply list_elem_of_fmap in Hc as (conn'&Hid'&Hin').
        unfold JsMap.values in Hin'.
        apply list_elem_of_fmap in Hin' as ([k' v']&->&Hin'). simpl in *.
        pose proof (elem_of_delete_map _ _ _ Hin') as Hin0.
        assert (v' = conn) as ->.
        { apply (same_id (JsMap.values (connectionsByPlayer s))); try done.
          - unfold JsMap.values. apply list_elem_of_fmap. by exists (k', v').
          - unfold JsMap.values. apply list_elem_of_fmap. by exists (player, conn).
          - congruence. }
        assert (k' = player) as ->.
        { rewrite <- (Hplayer _ _ Hin0). by apply Hplayer. }
        assert (player ∈ JsMap.keys (JsMap.delete player (connectionsByPlayer s)))
          as Hk.
        { unfold JsMap.keys. apply list_elem_of_fmap. by exists (player, conn). }
        apply keys_delete in Hk; [tauto | done].
      + intros x Hne. split; [done |].
        apply (find_delete_other _ player conn); [done |].
        apply String.eqb_neq. congruence. }
  split_and!; [done | by apply lookupConnection_None | | done].
  simpl. unfold handleDisconnect. rewrite Ha.
  by rewrite (find_entry_None c _ Hr).
Qed.

Lemma socket_close_is_final_witness :
  let s := (run (H := Scenario.platform) Scenario.two_players initial).1 in
  lookupConnection "c2" (step (H := Scenario.platform) 100 (SocketClosed "c2") s).1
  = None.
Proof.
  refine (proj1 (proj2 (socket_close_is_final (H := Scenario.platform)
                          Scenario.two_players 100 200 "c2" _))).
  apply (@bool_decide_unpack _ (NoDup_dec _)). vm_compute. exact I.
Defined.

(** What [pruneExpiredSessions] leaves. *)
Lemma pruneExpiredSessions_spec now s :
  let s' := pruneExpiredSessions now s in
  (∀ t, pendingSessionsByToken s' !! t
        = match pendingSessionsByToken s !! t with
          | Some session =>
              if bool_decide (createdAt session < now - SESSION_TTL_MS)%Z
              then None else Some session
          | None => None
          end)
  ∧ (∀ p t, pendingSessionsByPlayer s' !! p = Some t →
            pendingSessionsByPlayer s !! p = Some t)
  ∧ (∀ p t, pendingSessionsByPlayer s !! p = Some t →
            pendingSessionsByPlayer s' !! p = None →
            pendingSessionsByToken s' !! t = None).
Proof.
  unfold pruneExpiredSessions.
  set (bt0 := pendingSessionsByToken s). set (bp0 := pendingSessionsByPlayer s).
  set (f := λ (token : string) (session : PendingSession)
              '((byToken, byPlayer) : gmap string PendingSession * gmap string string),
              if bool_decide (createdAt session < now - SESSION_TTL_MS)%Z
              then (delete token byToken,
                    if bool_decide (byPlayer !! ps_playerId session = Some token)
                    then delete (ps_playerId session) byPlayer
                    else byPlayer)
              else (byToken, byPlayer)).
  assert (∀ mp (r := map_fold f (bt0, bp0) mp),
            (∀ t, r.1 !! t
                  = match mp !! t with
                    | Some session =>
                        if bool_decide (createdAt session < now - SESSION_TTL_MS)%Z
                        then None else bt0 !! t
                    | None => bt0 !! t
                    end)
            ∧ (∀ p t, r.2 !! p = Some t → bp0 !! p = Some t)
            ∧ (∀ p t, bp0 !! p = Some t → r.2 !! p = None →
                      ∃ session, mp !! t = Some session
                                 ∧ (createdAt session < now - SESSION_TTL_MS)%Z))
    as Hfold.
  { intros mp.
    apply (map_fold_weak_ind
             (λ (r : gmap string PendingSession * gmap string string) mp,
                (∀ t, r.1 !! t
                      = match mp !! t with
                        | Some session =>
                            if bool_decide
                                 (createdAt session < now - SESSION_TTL_MS)%Z
                            then None else bt0 !! t
                        | None => bt0 !! t
                        end)
                ∧ (∀ p t, r.2 !! p = Some t → bp0 !! p = Some t)
                ∧ (∀ p t, bp0 !! p = Some t → r.2 !! p = None →
                          ∃ session, mp !! t = Some session
                                     ∧ (createdAt session
                                        < now - SESSION_TTL_MS)%Z))).
    - split_and!; [intros t; by rewrite lookup_empty | done |].
      intros p t Hp Hn. simpl in Hn. congruence.
    - intros i x mp' [bt bp] Hi (H1&H2&H3). simpl in H1, H2, H3. unfold f.
      destruct (bool_decide (createdAt x < now - SESSION_TTL_MS)%Z) eqn:Ex.
      + apply bool_decide_eq_true in Ex. split_and!; simpl.
        * intros t. destruct (decide (t = i)) as [-> | Hne].
          -- rewrite lookup_delete_eq, lookup_insert_eq.
             by rewrite bool_decide_eq_true_2.
          -- rewrite lookup_delete_ne, lookup_insert_ne by done. apply H1.
        * intros p t. destruct (bool_decide _); [| apply H2].
          intros Hl. apply lookup_delete_Some in Hl as [_ Hl]. by apply H2.
        * intros p t Hp Hn.
          destruct (bool_decide (bp !! ps_playerId x = Some i)) eqn:Eb.
          -- apply bool_decide_eq_true in Eb.
             destruct (decide (p = ps_playerId x)) as [-> | Hne].
             ++ apply H2 in Eb. assert (t = i) as -> by congruence.
                exists x. by rewrite lookup_insert_eq.
             ++ rewrite lookup_delete_ne in Hn by done.
                destruct (H3 p t Hp Hn) as (session&Hs&He). exists session.
                split; [| done]. rewrite lookup_insert_ne; [done |].
                intros <-. congruence.
          -- destruct (H3 p t Hp Hn) as (session&Hs&He). exists session.
             split; [| done]. rewrite lookup_insert_ne; [done |].
             intros <-. congruence.
      + apply bool_decide_eq_false in Ex. split_and!; simpl.
        * intros t. destruct (decide (t = i)) as [-> | Hne].
          -- rewrite lookup_insert_eq. rewrite bool_decide_eq_false_2 by done.
             rewrite H1, Hi. done.
          -- rewrite lookup_insert_ne by done. apply H1.
        * done.
        * intros p t Hp Hn. destruct (H3 p t Hp Hn) as (session&Hs&He).
          exists session. split; [| done]. rewrite lookup_insert_ne; [done |].
          intros <-. congruence. }
  destruct (Hfold bt0) as (H1&H2&H3).
  change (map_fold _ (bt0, bp0) bt0) with (map_fold f (bt0, bp0) bt0).
  destruct (map_fold f (bt0, bp0) bt0) as [bt bp]. simpl in *.
  assert (∀ t, bt !! t
               = match bt0 !! t with
                 | Some session =>
                     if bool_decide (createdAt session < now - SESSION_TTL_MS)%Z
                     then None else Some session
                 | None => None
                 end) as H1'.
  { intros t. rewrite H1. destruct (bt0 !! t) as [session |] eqn:E; [| done].
    by destruct (bool_decide _). }
  split_and!; [done | done |].
  intros p t Hp Hn. destruct (H3 p t Hp Hn) as (session&Hs&He).
  rewrite H1', Hs. by rewrite bool_decide_eq_true_2.
Qed.

(** X15. [/prepare] with a well-formed body always answers 200 and makes the
    new token the player's pending session. The token that was pending for
    the player before, unless it is the empty string, is no longer pending;
    and every session left pending is the new one or one that was created
    no more than 60 s ago. *)
Theorem prepare_supersedes (now : Z) (body : json) (player token : string)
    (s : State) :
  is_object (Some body) = true →
  as_string (prop (Some body) "playerId") = Some player →
  as_string (prop (Some body) "sessionToken") = Some token →
  let r := handlePrepare now (Some body) s in
  r.2 = [Response 200]
  ∧ pendingSessionsByToken r.1 !! token
    = Some {| ps_playerId := player; ps_sessionToken := token; createdAt := now |}
  ∧ pendingSessionsByPlayer r.1 !! player = Some token
  ∧ (∀ old, pendingSessionsByPlayer s !! player = Some old →
            old ≠ "" → old ≠ token →
            pendingSessionsByToken r.1 !! old = None)
  ∧ (∀ t session, pendingSessionsByToken r.1 !! t = Some session →
                  (now - SESSION_TTL_MS <= createdAt session)%Z
                  ∧ (t = token ∨ pendingSessionsByToken s !! t = Some session)).
Proof.
  intros Hobj Hplayer Htoken r.
  destruct (pruneExpiredSessions_spec now s) as (H1&H2&H3).
  set (s1 := pruneExpiredSessions now s) in *.
  set (fresh := {| ps_playerId := player; ps_sessionToken := token;
                   createdAt := now |}).
  assert (∃ bt bp,
            r = (set_pending (<[token := fresh]> bt) (<[player := token]> bp) s1,
                 [Response 200])
            ∧ (∀ t session, bt !! t = Some session →
                            pendingSessionsByToken s1 !! t = Some session)
            ∧ (∀ old, pendingSessionsByPlayer s !! player = Some old →
                      old ≠ "" → bt !! old = None)) as (bt&bp&Hr&Hsub&Hold).
  { unfold r, handlePrepare. rewrite Hobj, Hplayer, Htoken. fold s1.
    destruct (pendingSessionsByPlayer s1 !! player) as [existing |] eqn:E.
    - destruct (negb (String.eqb existing "")) eqn:En.
      + eexists _, _. split_and!; [done | |].
        * intros t session Hl. by apply lookup_delete_Some in Hl as [_ ?].
        * intros old Hp _. apply H2 in E. assert (existing = old) as -> by congruence.
          apply lookup_delete_eq.
      + eexists _, _. split_and!; [done | done |].
        intros old Hp Hne. apply H2 in E. assert (existing = old) as -> by congruence.
        apply negb_false_iff, String.eqb_eq in En. done.
    - eexists _, _. split_and!; [done | done |].
      intros old Hp _. by apply (H3 player old). }
  rewrite Hr. simpl. split_and!.
  - done.
  - apply lookup_insert_eq.
  - apply lookup_insert_eq.
  - intros old Hp Hne Hnt. rewrite lookup_insert_ne by done. by apply Hold.
  - intros t session Hl. apply lookup_insert_Some in Hl as [[<- <-] | [Hne Hl]].
    + split; [| by left]. unfold fresh, SESSION_TTL_MS. simpl. lia.
    + apply Hsub in Hl. rewrite H1 in Hl.
      destruct (pendingSessionsByToken s !! t) as [session0 |]; [| done].
      destruct (bool_decide _) eqn:Ex; [done |].
      apply bool_decide_eq_false in Ex. injection Hl as <-.
      split; [lia | by right].
Qed.

Lemma prepare_supersedes_witness :
  pendingSessionsByToken
    (handlePrepare 3
       (Some (JObj [("playerId", JStr "A"); ("sessionToken", JStr "t2")]))
       (run (H := Scenario.platform) (take 1 Scenario.duplicate_register)
            initial).1).1 !! "t1" = None.
Proof.
  refine (proj1 (proj2 (proj2 (proj2
            (prepare_supersedes 3
               (JObj [("playerId", JStr "A"); ("sessionToken", JStr "t2")])
               "A" "t2"
               (run (H := Scenario.platform) (take 1 Scenario.duplicate_register)
                    initial).1 _ _ _)))) "t1" _ _ _).
  - reflexivity.
  - reflexivity.
  - reflexivity.
  - vm_compute. reflexivity.
  - discriminate.
  - discriminate.
Defined.

Lemma handlePrepare_accepts now body player token s :
  is_object (Some body) = true →
  as_string (prop (Some body) "playerId") = Some player →
  as_string (prop (Some body) "sessionToken") = Some token →
  (handlePrepare now (Some body) s).2 = [Response 200]
  ∧ pendingSessionsByToken (handlePrepare now (Some body) s).1 !! token
    = Some {| ps_playerId := player; ps_sessionToken := token; createdAt := now |}.
Proof.
  intros Hobj Hplayer Htoken. unfold handlePrepare.
  rewrite Hobj, Hplayer, Htoken.
  destruct (pendingSessionsByPlayer _ !! player) as [existing |];
    [destruct (negb _) |]; simpl; by rewrite lookup_insert_eq.
Qed.

Lemma find_set_fresh c player conn (m : list (string * PlayerConnection)) :
  id conn = c → c ∉ id <$> JsMap.values m →
  List.find (λ x, String.eqb (id x) c) (JsMap.values (JsMap.set player conn m))
  = Some conn.
Proof.
  intros Hid. induction m as [| [k v] m IH]; intros Hout.
  - cbn [JsMap.set]. rewrite values_cons. cbn [List.find].
    by rewrite Hid, String.eqb_refl.
  - rewrite values_cons, fmap_cons in Hout.
    apply not_elem_of_cons in Hout as [Hne Hout]. cbn [JsMap.set].
    destruct (String.eqb k player).
    + rewrite values_cons. cbn [List.find]. by rewrite Hid, String.eqb_refl.
    + rewrite values_cons. cbn [List.find].
      assert (String.eqb (id v) c = false) as -> by (apply String.eqb_neq; congruence).
      by apply IH.
Qed.

Lemma get_mutate_set c f player conn (m : list (string * PlayerConnection)) :
  id conn = c → c ∉ id <$> JsMap.values m →
  JsMap.get player (mutate c f (JsMap.set player conn m)) = Some (f conn).
Proof.
  intros Hid. induction m as [| [k v] m IH]; intros Hout.
  - cbn [JsMap.set mutate]. rewrite Hid, String.eqb_refl. cbn [JsMap.get].
    by rewrite String.eqb_refl.
  - rewrite values_cons, fmap_cons in Hout.
    apply not_elem_of_cons in Hout as [Hne Hout]. cbn [JsMap.set].
    destruct (String.eqb k player) eqn:Ek.
    + cbn [mutate]. rewrite Hid, String.eqb_refl. cbn [JsMap.get].
      by rewrite String.eqb_refl.
    + cbn [mutate].
      assert (String.eqb (id v) c = false) as -> by (apply String.eqb_neq; congruence).
      cbn [JsMap.get]. rewrite Ek. by apply IH.
Qed.

Lemma scheduleProximityRecalc_armed s :
  proximityTimer (scheduleProximityRecalc s) = true.
Proof. unfold scheduleProximityRecalc. by destruct (proximityTimer s) eqn:E. Qed.

(** Who [neighbours] collects. *)
Lemma neighbours_peers `{Platform} players player x :
  x ∈ (neighbours players player).1.1 ↔ in_reach players player x.
Proof.
  unfold neighbours, in_reach.
  destruct (position player) as [here |] eqn:Ehere; cycle 1.
  { simpl. rewrite elem_of_nil. split; [done |].
    by intros (?&?&?&?&_&_&_&?&_). }
  destruct (truthy (Some here)) eqn:Etruthy; cycle 1.
  { cbn [fst]. rewrite elem_of_nil. split; [done |].
    intros (?&?&?&?&_&_&_&[= <-]&?&_). congruence. }
  set (f := λ '(peers, distances, positions) (other : PlayerConnection),
              if String.eqb (playerId other) (playerId player)
                 || negb (truthy (position other))
              then (peers, distances, positions)
              else
                match position other with
                | None => (peers, distances, positions)
                | Some there =>
                    match distanceBetween here there with
                    | Some distance =>
                        if Qle_bool distance PROXIMITY_RADIUS_METERS
                        then (JsSet.add (playerId other) peers,
                              assign (playerId other) distance distances,
                              assign (playerId other) there positions)
                        else (peers, distances, positions)
                    | None => (peers, distances, positions)
                    end
                end).
  assert (∀ l acc,
            x ∈ (fold_left f l acc).1.1 ↔
            x ∈ acc.1.1
            ∨ ∃ other there d,
                other ∈ l ∧ playerId other = x ∧ x ≠ playerId player
                ∧ position other = Some there ∧ truthy (Some there) = true
                ∧ distanceBetween here there = Some d
                ∧ (d <= PROXIMITY_RADIUS_METERS)%Q) as Hfold.
  { induction l as [| other l IH]; intros acc.
    - simpl. split; [by left |]. intros [? | (?&?&?&Hin&_)]; [done |].
      by apply elem_of_nil in Hin.
    - cbn [fold_left]. rewrite IH. clear IH.
      destruct acc as [[peers distances] positions]. unfold f.
      destruct (String.eqb (playerId other) (playerId player)) eqn:Eself;
        cbn [orb].
      { apply String.eqb_eq in Eself. split.
        - intros [? | (o&t&d&Hin&?)]; [by left |]. right.
          exists o, t, d. split; [by right | done].
        - intros [? | (o&t&d&Hin&Hrest)]; [by left |]. right.
          exists o, t, d. split; [| done].
          apply elem_of_cons in Hin as [-> | ?]; [| done].
          destruct Hrest as (Hx&Hne&_). congruence. }
      destruct (position other) as [there |] eqn:Ethere; cycle 1.
      { simpl. split.
        - intros [? | (o&t&d&Hin&?)]; [by left |]. right.
          exists o, t, d. split; [by right | done].
        - intros [? | (o&t&d&Hin&Hrest)]; [by left |]. right.
          exists o, t, d. split; [| done].
          apply elem_of_cons in Hin as [-> | ?]; [| done].
          destruct Hrest as (_&_&?&_). congruence. }
      destruct (truthy (Some there)) eqn:Et; cbn [negb]; cycle 1.
      { split.
        - intros [? | (o&t&d&Hin&?)]; [by left |]. right.
          exists o, t, d. split; [by right | done].
        - intros [? | (o&t&d&Hin&Hrest)]; [by left |]. right.
          exists o, t, d. split; [| done].
          apply elem_of_cons in Hin as [-> | ?]; [| done].
          destruct Hrest as (_&_&Hpos&?&_). rewrite Ethere in Hpos.
          injection Hpos as <-. congruence. }
      destruct (distanceBetween here there) as [distance |] eqn:Ed; cycle 1.
      { split.
        - intros [? | (o&t&d&Hin&?)]; [by left |]. right.
          exists o, t, d. split; [by right | done].
        - intros [? | (o&t&d&Hin&Hrest)]; [by left |]. right.
          exists o, t, d. split; [| done].
          apply elem_of_cons in Hin as [-> | ?]; [| done].
          destruct Hrest as (_&_&Hpos&_&?&_). rewrite Ethere in Hpos.
          injection Hpos as <-. congruence. }
      destruct (Qle_bool distance PROXIMITY_RADIUS_METERS) eqn:Ele; cycle 1.
      { split.
        - intros [? | (o&t&d&Hin&?)]; [by left |]. right.
          exists o, t, d. split; [by right | done].
        - intros [? | (o&t&d&Hin&Hrest)]; [by left |]. right.
          exists o, t, d. split; [| done].
          apply elem_of_cons in Hin as [-> | ?]; [| done].
          destruct Hrest as (_&_&Hpos&_&Hd&Hle). rewrite Ethere in Hpos.
          injection Hpos as <-. rewrite Ed in Hd. injection Hd as <-.
          apply Qle_bool_iff in Hle. congruence. }
      cbn [fst]. rewrite elem_of_add. apply String.eqb_neq in Eself.
      apply Qle_bool_iff in Ele. split.
      + intros [[-> | ?] | (o&t&d&Hin&?)]; [| by left |].
        * right. exists other, there, distance. split; [by left | done].
        * right. exists o, t, d. split; [by right | done].
      + intros [? | (o&t&d&Hin&Hrest)]; [left; by right |].
        apply elem_of_cons in Hin as [-> | ?].
        * left. left. by destruct Hrest as (->&_).
        * right. exists o, t, d. done. }
  rewrite Hfold. simpl. rewrite elem_of_nil. split.
  - intros [[] | (o&t&d&Hin&Hx&Hne&Hpos&Ht&Hd&Hle)].
    exists o, here, t, d. done.
  - intros (o&h&t&d&Hin&Hx&Hne&[= <-]&_&Hpos&Ht&Hd&Hle). right.
    exists o, t, d. done.
Qed.

Lemma neighbours_same_place `{Platform} l l' p p' :
  Forall2 same_place l l' → same_place p p' →
  neighbours l p = neighbours l' p'.
Proof.
  intros Hl [Hid Hpos]. unfold neighbours. rewrite <- Hpos, <- Hid.
  destruct (position p) as [here |]; [| done].
  destruct (truthy (Some here)); [| done].
  generalize (@nil string, @nil (string * Q), @nil (string * json)).
  induction Hl as [| a b l l' [Ha Hb] Hl IH]; intros [[peers ds] qs]; [done |].
  cbn [fold_left]. rewrite <- Ha, <- Hb. apply IH.
Qed.

Lemma mutate_same_place c g (m : list (string * PlayerConnection)) :
  (∀ x, same_place x (g x)) →
  Forall2 same_place (JsMap.values m) (JsMap.values (mutate c g m)).
Proof.
  intros Hg. induction m as [| [k v] m IH]; [constructor |].
  cbn [mutate]. destruct (String.eqb (id v) c); rewrite !values_cons.
  - constructor; [apply Hg |]. clear. induction (JsMap.values m); by constructor.
  - constructor; [done | apply IH].
Qed.

Lemma Forall2_elem_r {A B} (R : A → B → Prop) l l' y :
  Forall2 R l l' → y ∈ l' → ∃ x, x ∈ l ∧ R x y.
Proof.
  induction 1 as [| a b l l' Hab Hl IH]; intros Hy.
  - by apply elem_of_nil in Hy.
  - apply elem_of_cons in Hy as [-> | Hy].
    + exists a. split; [by left | done].
    + destruct (IH Hy) as (x&?&?). exists x. split; [by right | done].
Qed.

Lemma exact_same `{Platform} a b :
  connectionsByPlayer b = connectionsByPlayer a →
  peerViewByPlayer b = peerViewByPlayer a →
  views_exact a → views_exact b.
Proof. intros Hc Hv Ha player x. rewrite Hc, Hv. apply Ha. Qed.

Lemma exact_mutate `{Platform} c g s :
  (∀ x, same_place x (g x)) →
  views_exact s →
  views_exact (set_connectionsByPlayer (mutate c g (connectionsByPlayer s)) s).
Proof.
  intros Hg Hs player x Hin. simpl in *.
  pose proof (mutate_same_place c g (connectionsByPlayer s) Hg) as Hall.
  destruct (Forall2_elem_r _ _ _ _ Hall Hin) as (player0&Hin0&Hsame).
  rewrite <- (neighbours_same_place _ _ _ _ Hall Hsame).
  destruct Hsame as [<- _]. by apply Hs.
Qed.

(** One observer's turn leaves its view equal to what was collected. *)
Lemma observe_exact `{Platform} players player s x :
  is_Some (JsMap.get (playerId player) (connectionsByPlayer s)) →
  x ∈ default [] (peerViewByPlayer (observe players player s).1
                    !! playerId player)
  ↔ x ∈ (neighbours players player).1.1.
Proof.
  intros [conn Hconn]. unfold observe.
  destruct (neighbours players player) as [[peers distances] positions].
  rewrite publishPeerDiff_spec, Hconn. cbn [fst].
  destruct (silent _ _ _ _) eqn:E; cbn [fst].
  - unfold silent in E. apply andb_true_iff in E as [E _].
    apply andb_true_iff in E as [E1 E2].
    rewrite forallb_elem in E1, E2. setoid_rewrite has_true in E1.
    setoid_rewrite has_true in E2. split; auto.
  - simpl. by rewrite lookup_insert_eq.
Qed.

Lemma pass_exact `{Platform} now s :
  views_ok s → proximityTimer s = true →
  views_exact (step now ProximityTimer s).1
  ∧ proximityTimer (step now ProximityTimer s).1 = false.
Proof.
  intros Hs Harmed.
  destruct (pass_spec now s Hs Harmed) as (_&Hconn&Hviews). split.
  - intros player x Hin. rewrite Hconn in *.
    destruct (Hviews player Hin) as [-> _].
    apply observe_exact. rewrite (player_registered s player Hs Hin).
    by eexists.
  - simpl. unfold proximityTimerFires. rewrite Harmed.
    rewrite recalculateProximities_observe.
    apply (fold_left_inv
             (λ r : State * list Output, proximityTimer r.1 = false)); [done |].
    intros [acc out] player _ Hacc. simpl in *.
    by destruct (observe_players (JsMap.values (connectionsByPlayer s))
                   player acc) as (_&_&_&_&->&_).
Qed.

Lemma handleDisconnect_idle c s :
  proximityTimer (handleDisconnect c s).1 = false →
  proximityTimer s = false
  ∧ connectionsByPlayer (handleDisconnect c s).1 = connectionsByPlayer s
  ∧ peerViewByPlayer (handleDisconnect c s).1 = peerViewByPlayer s.
Proof.
  unfold handleDisconnect.
  destruct (anonymousConnections s !! c); [done |].
  destruct (List.find _ _) as [[player connection] |]; [| done].
  cbn [fst]. intros Hidle. exfalso.
  assert (∀ x, proximityTimer (scheduleProximityRecalc x) = true) as Harmed
    by (intros x; unfold scheduleProximityRecalc;
        by destruct (proximityTimer x) eqn:E).
  by rewrite Harmed in Hidle.
Qed.

Lemma prune_idle now s :
  proximityTimer (pruneInactiveConnections now s).1 = false →
  proximityTimer s = false
  ∧ connectionsByPlayer (pruneInactiveConnections now s).1 = connectionsByPlayer s
  ∧ peerViewByPlayer (pruneInactiveConnections now s).1 = peerViewByPlayer s.
Proof.
  unfold pruneInactiveConnections.
  apply (fold_left_inv
           (λ r : State * list Output,
              proximityTimer r.1 = false →
              proximityTimer s = false
              ∧ connectionsByPlayer r.1 = connectionsByPlayer s
              ∧ peerViewByPlayer r.1 = peerViewByPlayer s)); [done |].
  intros [acc out] connection _ Hacc. cbn [fst] in *.
  destruct (bool_decide _); [| done].
  pose proof (handleDisconnect_idle (id connection) acc) as Hd.
  destruct (handleDisconnect (id connection) acc) as [acc1 out1].
  cbn [fst] in *. intros Hidle. destruct (Hd Hidle) as (H0&H1&H2).
  destruct (Hacc H0) as (?&?&?). split_and!; congruence.
Qed.

Lemma idle_step `{Platform} now input s :
  views_ok s → (proximityTimer s = false → views_exact s) →
  proximityTimer (step now input s).1 = false →
  views_exact (step now input s).1.
Proof.
  intros Hv Hinv. destruct input as [body | c | c data | c | |]; simpl.
  - destruct (handlePrepare_timers now body s) as [_ ->].
    destruct (same_players_handlePrepare now body s) as (Hc&_&Hw&_).
    intros Hidle. by apply (exact_same s); [| | apply Hinv].
  - intros Hidle. by apply (exact_same s); [| | apply Hinv].
  - unfold onMessage. destruct data as [| parsed]; [done |].
    destruct (decodeSocketMessage parsed) as [message |]; [| done].
    unfold handleSocketMessage.
    repeat (destruct (bool_decide _)).
    + unfold handleRegister.
      destruct (anonymousConnections s !! c) as [anon |]; [| done].
      match goal with
      | |- context [match ?a with Some _ => _ | None => _ end] =>
          destruct a as [[player token] |]
      end.
      * cbn [fst]. intros Hidle. by rewrite scheduleProximityRecalc_armed in Hidle.
      * intros Hidle. by apply (exact_same s); [| | apply Hinv].
    + unfold handleHeartbeat. destruct (lookupConnection c s); [| done].
      cbn [fst]. intros Hidle. apply exact_mutate; [done | by apply Hinv].
    + unfold handlePosition. destruct (lookupConnection c s); [| done].
      match goal with |- context [if ?b then _ else _] => destruct b end;
        cbn [fst]; intros Hidle.
      * apply exact_mutate; [done | by apply Hinv].
      * by rewrite scheduleProximityRecalc_armed in Hidle.
    + by rewrite handleSignalRelay_state.
    + done.
  - intros Hidle. destruct (handleDisconnect_idle c s Hidle) as (H0&H1&H2).
    by apply (exact_same s); [| | apply Hinv].
  - unfold proximityTimerFires. destruct (proximityTimer s) eqn:Harmed;
      [| intros _; by apply Hinv].
    intros _. destruct (pass_exact now s Hv Harmed) as [Hexact _].
    simpl in Hexact. unfold proximityTimerFires in Hexact.
    by rewrite Harmed in Hexact.
  - unfold cleanupTimerFires. destruct (cleanupTimer s); [| done].
    pose proof (prune_idle now (set_cleanupTimer false s)) as Hprune.
    destruct (pruneInactiveConnections now (set_cleanupTimer false s))
      as [s1 out]. cbn [fst] in *.
    assert (proximityTimer s1 = false → views_exact s1) as Hs1.
    { intros Hidle. destruct (Hprune Hidle) as (H0&H1&H2).
      by apply (exact_same s); [| | apply Hinv]. }
    destruct (0 <? _); [| done].
    unfold scheduleCleanup. destruct (cleanupTimer s1); [done |].
    intros Hidle. by apply (exact_same s1); [| | apply Hs1].
Qed.

(** With no recomputation pending, the views are exact. *)
Lemma idle_exact `{Platform} inputs :
  proximityTimer (run inputs initial).1 = false →
  views_exact (run inputs initial).1.
Proof.
  assert (∀ s0, views_ok s0 → (proximityTimer s0 = false → views_exact s0) →
            proximityTimer (run inputs s0).1 = false →
            views_exact (run inputs s0).1) as Hrun.
  { induction inputs as [| [now input] inputs IH]; intros s0 Hv Hinv;
      [done |].
    cbn [run].
    pose proof (idle_step now input s0 Hv Hinv) as Hstep.
    pose proof (views_ok_step now input s0 Hv) as Hv1.
    destruct (step now input s0) as [s1 out1].
    specialize (IH s1 Hv1 Hstep). by destruct (run inputs s1). }
  apply (Hrun initial); [apply views_ok_initial |].
  intros _ p y Hp. by apply elem_of_nil in Hp.
Qed.

(** X16. Whenever no recomputation is pending, the stored views are exact:
    every registered player's view holds precisely the other registered
    players that have a position within the proximity radius of its own. *)
Theorem views_exact_when_idle `{Platform} (inputs : list (Z * Input))
    (player : PlayerConnection) (x : string) :
  let s := (run inputs initial).1 in
  proximityTimer s = false →
  player ∈ JsMap.values (connectionsByPlayer s) →
  x ∈ default [] (peerViewByPlayer s !! playerId player) ↔
  in_reach (JsMap.values (connectionsByPlayer s)) player x.
Proof.
  intros s Hidle Hin. rewrite <- neighbours_peers.
  by apply (idle_exact inputs Hidle).
Qed.

(** After the first recomputation for two players five units apart. *)
Lemma views_exact_when_idle_witness :
  let s := (run (H := Scenario.platform)
                (take 9 Scenario.neighbour_leaves) initial).1 in
  "B" ∈ default [] (peerViewByPlayer s !! "A").
Proof.
  refine (proj2 (views_exact_when_idle (H := Scenario.platform)
                   (take 9 Scenario.neighbour_leaves)
                   {| id := "c1"; playerId := "A"; sessionToken := "ta";
                      socket := "c1"; lastSeen := 3; lastPositionAt := Some 3%Z;
                      position := Some (Scenario.vector 0 0 0) |} "B" _ _) _).
  - vm_compute. reflexivity.
  - vm_compute. apply list_elem_of_here.
  - exists {| id := "c2"; playerId := "B"; sessionToken := "tb";
              socket := "c2"; lastSeen := 3; lastPositionAt := Some 3%Z;
              position := Some (Scenario.vector 5 0 0) |},
      (Scenario.vector 0 0 0), (Scenario.vector 5 0 0), 5%Q.
    split_and!; try (vm_compute; reflexivity); try discriminate.
    vm_compute. apply list_elem_of_further, list_elem_of_here.
Defined.

Lemma distanceBetween_sym `{Platform} p q d :
  (∀ a b : Q, (a == b)%Q → (Math_sqrt a == Math_sqrt b)%Q) →
  distanceBetween p q = Some d →
  ∃ d', distanceBetween q p = Some d' ∧ (d' == d)%Q.
Proof.
  intros Hsqrt. unfold distanceBetween, coordinate_difference.
  destruct (ToNumber (prop (Some p) "x")) as [px |]; [| done].
  destruct (ToNumber (prop (Some q) "x")) as [qx |]; [| done].
  destruct (ToNumber (prop (Some p) "y")) as [py |]; [| done].
  destruct (ToNumber (prop (Some q) "y")) as [qy |]; [| done].
  destruct (ToNumber (prop (Some p) "z")) as [pz |]; [| done].
  destruct (ToNumber (prop (Some q) "z")) as [qz |]; [| done].
  intros [= <-]. eexists. split; [done |]. apply Hsqrt. ring.
Qed.

Lemma same_player (l : list PlayerConnection) a b :
  NoDup (playerId <$> l) → a ∈ l → b ∈ l → playerId a = playerId b → a = b.
Proof.
  induction l as [| x l IH]; intros Hnd Ha Hb Heq.
  - by apply elem_of_nil in Ha.
  - rewrite fmap_cons in Hnd. apply NoDup_cons in Hnd as [Hx Hnd].
    apply elem_of_cons in Ha as [-> | Ha]; apply elem_of_cons in Hb as [-> | Hb].
    + done.
    + exfalso. apply Hx. rewrite Heq. by apply list_elem_of_fmap_2.
    + exfalso. apply Hx. rewrite <- Heq. by apply list_elem_of_fmap_2.
    + by apply IH.
Qed.

Lemma in_reach_sym `{Platform} players a b :
  (∀ p q : Q, (p == q)%Q → (Math_sqrt p == Math_sqrt q)%Q) →
  NoDup (playerId <$> players) → a ∈ players → b ∈ players →
  in_reach players a (playerId b) → in_reach players b (playerId a).
Proof.
  intros Hsqrt Hnd Ha Hb (other&here&there&d&Hin&Hid&Hne&Hh&Hht&Ht&Htt&Hd&Hle).
  assert (other = b) as -> by (by apply (same_player players)).
  destruct (distanceBetween_sym here there d Hsqrt Hd) as (d'&Hd'&Heq).
  exists a, there, here, d'. split_and!; try done.
  by rewrite Heq.
Qed.

(** X17. Hearing is mutual. Provided the square root of the platform depends
    only on the value of its argument: whenever no recomputation is pending,
    one registered player is in the stored view of another exactly when the
    other is in its own. *)
Theorem views_are_mutual `{Platform} (inputs : list (Z * Input))
    (a b : PlayerConnection) :
  (∀ p q : Q, (p == q)%Q → (Math_sqrt p == Math_sqrt q)%Q) →
  let s := (run inputs initial).1 in
  proximityTimer s = false →
  a ∈ JsMap.values (connectionsByPlayer s) →
  b ∈ JsMap.values (connectionsByPlayer s) →
  playerId b ∈ default [] (peerViewByPlayer s !! playerId a) ↔
  playerId a ∈ default [] (peerViewByPlayer s !! playerId b).
Proof.
  intros Hsqrt s Hidle Ha Hb.
  pose proof (idle_exact inputs Hidle) as Hexact. fold s in Hexact.
  assert (views_ok s) as Hv by apply views_ok_run, views_ok_initial.
  assert (NoDup (playerId <$> JsMap.values (connectionsByPlayer s))) as Hnd.
  { rewrite players_of_keys by done. by destruct Hv. }
  rewrite (Hexact a _ Ha), (Hexact b _ Hb), !neighbours_peers.
  split; by apply in_reach_sym.
Qed.

Lemma views_are_mutual_witness :
  let s := (run (H := Scenario.canonical_platform)
                (take 9 Scenario.neighbour_leaves) initial).1 in
  "B" ∈ default [] (peerViewByPlayer s !! "A") ↔
  "A" ∈ default [] (peerViewByPlayer s !! "B").
Proof.
  refine (views_are_mutual (H := Scenario.canonical_platform)
            (take 9 Scenario.neighbour_leaves)
            {| id := "c1"; playerId := "A"; sessionToken := "ta";
               socket := "c1"; lastSeen := 3; lastPositionAt := Some 3%Z;
               position := Some (Scenario.vector 0 0 0) |}
            {| id := "c2"; playerId := "B"; sessionToken := "tb";
               socket := "c2"; lastSeen := 3; lastPositionAt := Some 3%Z;
               position := Some (Scenario.vector 5 0 0) |} _ _ _ _).
  - intros p q Hpq. simpl. by rewrite (Qred_complete p q Hpq).
  - vm_compute. reflexivity.
  - vm_compute. apply list_elem_of_here.
  - vm_compute. apply list_elem_of_further, list_elem_of_here.
Defined.

End WorldShardFacts.

(** ** Relay servers and admission *)

Module RelayFacts.
Import Js Relay RelaySpec NumFacts.
#[local] Open Scope nat_scope.

Lemma getIceServers_valid env :
  Forall (λ entry, isIceServerLike entry = true) (getIceServers env).
Proof.
  assert (Forall (λ entry, isIceServerLike entry = true) DEFAULT_ICE_SERVERS)
    as Hdefault by (repeat constructor).
  unfold getIceServers.
  destruct (ICE_SERVERS_JSON env) as [[raw [[| | | | parsed |] |]] |]; try done.
  destruct (negb (blank raw)); [| done].
  destruct (0 <? _); [| done].
  apply Forall_forall. intros entry Hin.
  apply list_elem_of_In, filter_In in Hin. tauto.
Qed.

Lemma getIceServers_nonempty env : getIceServers env ≠ [].
Proof.
  unfold getIceServers.
  destruct (ICE_SERVERS_JSON env) as [[raw [[| | | | parsed |] |]] |]; try done.
  destruct (negb (blank raw)); [| done].
  destruct (0 <? length _) eqn:E; [| done].
  intros Hnil. rewrite Hnil in E. done.
Qed.

Lemma clampTtl_bounds ms :
  (MIN_TTL_MS <= clampTtl ms)%Q ∧ (clampTtl ms <= MAX_TTL_MS)%Q.
Proof.
  unfold clampTtl. destruct ms as [ms |]; [| done]. split.
  - apply Q.min_glb; [apply Q.le_max_r | done].
  - apply Q.le_min_r.
Qed.

Lemma computeCacheMs_bounds payload envTtlSeconds now :
  (MIN_TTL_MS <= computeCacheMs payload envTtlSeconds now)%Q
  ∧ (computeCacheMs payload envTtlSeconds now <= MAX_TTL_MS)%Q.
Proof.
  assert ((MIN_TTL_MS <= DEFAULT_TURN_CACHE_MS)%Q
          ∧ (DEFAULT_TURN_CACHE_MS <= MAX_TTL_MS)%Q) as Hdefault by done.
  unfold computeCacheMs.
  destruct (ttl payload) as [t |]; [destruct (positive t) |];
    try apply clampTtl_bounds;
    (destruct (expiresAt payload) as [[text [ms |]] |];
       [destruct (negb (String.eqb text "")) | |];
       try apply clampTtl_bounds;
       (destruct envTtlSeconds as [e |]; [destruct (0 <? e)%Z |];
          try apply clampTtl_bounds; exact Hdefault)).
Qed.

(** The expiry of a fresh cache entry, made at a time value. *)
Lemma fresh_expiry now (cacheMs : Q) :
  time_value now →
  (MIN_TTL_MS <= cacheMs)%Q → (cacheMs <= MAX_TTL_MS)%Q →
  (inject_Z now + MIN_TTL_MS <= nearest (inject_Z now + cacheMs))%Q
  ∧ (nearest (inject_Z now + cacheMs) <= inject_Z now + MAX_TTL_MS)%Q.
Proof.
  unfold time_value, MIN_TTL_MS, MAX_TTL_MS. intros Hnow Hlo Hhi.
  destruct (nearest_between (inject_Z now + cacheMs) (now + 5000) (now + 3600000))
    as [H1 H2].
  - change (2 ^ 53)%Z with 9007199254740992%Z. lia.
  - change (2 ^ 53)%Z with 9007199254740992%Z. lia.
  - rewrite inject_Z_plus. change (inject_Z 5000) with 5000%Q. lra.
  - rewrite inject_Z_plus. change (inject_Z 3600000) with 3600000%Q. lra.
  - rewrite inject_Z_plus in H1, H2.
    change (inject_Z 5000) with 5000%Q in H1.
    change (inject_Z 3600000) with 3600000%Q in H2. done.
Qed.

(** The relay servers of an admission are the static list or the default:
    the third-party credentials are never asked for. *)
Lemma handleJoin_iceServers now token env body shard shard' response :
  handleJoin now token env body shard = (shard', Joined response) →
  join_iceServers response = getIceServers env.
Proof.
  unfold handleJoin. destruct (parseJoinRequest body) as [[player position] |];
    [| done].
  destruct (WorldShard.handlePrepare _ _ _) as [shard1 out].
  destruct (negb (ok out)); [done |]. by intros [= _ <-].
Qed.

(** C9 at its failing input. With the third-party credentials configured and
    the endpoint answering with a valid relay server, the resolver would
    return that server, yet the admission handler answers with the built-in
    default: it never calls the resolver. *)
Lemma join_ignores_turn_credentials :
  (resolveTurnIceServers Scenario.turn_env 0 None Scenario.turn_response).1
  = Some [Scenario.turn_server]
  ∧ (handleJoin 0 "token" Scenario.turn_env Scenario.join_body
                WorldShard.initial).2
    = Joined {| cellId := (0, 0, 0)%Z; sessionToken := "token";
                join_iceServers := DEFAULT_ICE_SERVERS |}.
Proof. split; vm_compute; reflexivity. Qed.

(** *** Further properties of the relay configuration *)

Lemma floor_axis (x : Q) (c : Z) :
  Qfloor (x / 64) = c ↔
  (64 * inject_Z c <= x)%Q ∧ (x < 64 * inject_Z (c + 1))%Q.
Proof.
  assert (x == 64 * (x / 64))%Q as Hx by (field).
  split.
  - intros <-. split.
    + rewrite Hx at 2. apply Qmult_le_l; [done | apply Qfloor_le].
    + rewrite Hx at 1. apply Qmult_lt_l; [done | apply Qlt_floor].
  - intros [Hlo Hhi]. apply Qfloor_unique.
    + apply (Qmult_le_l _ _ 64); [done |]. by rewrite <- Hx.
    + apply (Qmult_lt_l _ _ 64); [done |]. by rewrite <- Hx.
Qed.

Lemma cell_axis (x : Q) (c : Z) :
  is_double x → Qfloor (nearest (x / CELL_SIZE_METERS)) = c ↔ in_cell c x.
Proof.
  intros Hx. unfold CELL_SIZE_METERS, in_cell. rewrite (floor_div64 x Hx).
  destruct (underflows x); [split; congruence | apply floor_axis].
Qed.

(** X18. The cells are cubes of 64 m that tile space: a position whose
    coordinates are doubles belongs to the cell with given indices exactly
    when each coordinate lies in the half-open interval the index stands
    for.  The one exception is a negative coordinate no farther from zero
    than [2 ^ -1069]: its quotient by 64 rounds to [-0], which puts it in
    cell 0 and not in cell -1. *)
Theorem deriveCellId_cube (x y z : Q) (cx cy cz : Z) :
  is_double x → is_double y → is_double z →
  deriveCellId (x, y, z) = (cx, cy, cz) ↔
  in_cell cx x ∧ in_cell cy y ∧ in_cell cz z.
Proof.
  intros Hx Hy Hz. unfold deriveCellId.
  pose proof (cell_axis x cx Hx) as Ax. pose proof (cell_axis y cy Hy) as Ay.
  pose proof (cell_axis z cz Hz) as Az.
  split.
  - intros [= H1 H2 H3]. tauto.
  - intros (?&?&?). f_equal; [f_equal |]; tauto.
Qed.

(** A position in the cell next to the origin along [x], below it along [y],
    and a hair below zero along [z]. *)
Lemma deriveCellId_cube_witness :
  deriveCellId (100, -5, - 2 ^ (-1074))%Q = (1, -1, 0)%Z.
Proof.
  apply deriveCellId_cube; try (vm_compute; reflexivity).
  split_and!; unfold in_cell.
  - assert (underflows 100 = false) as -> by (vm_compute; reflexivity).
    split; vm_compute; discriminate || reflexivity.
  - assert (underflows (-5) = false) as -> by (vm_compute; reflexivity).
    split; vm_compute; discriminate || reflexivity.
  - assert (underflows (- 2 ^ (-1074)) = true) as -> by (vm_compute; reflexivity).
    reflexivity.
Defined.

Lemma isIceServerLike_urls value :
  isIceServerLike value = true →
  (∃ url, prop (Some value) "urls" = Some (JStr url))
  ∨ (∃ urls, prop (Some value) "urls" = Some (JArr urls)
             ∧ forallb is_string urls = true).
Proof.
  unfold isIceServerLike. destruct (negb (is_object (Some value))); [done |].
  destruct (prop (Some value) "urls") as [[| | | url | urls |] |]; try done.
  - intros _. left. by eexists.
  - destruct (forallb is_string urls) eqn:E; [| done].
    intros _. right. by eexists.
Qed.

(** X19. [getIceServers] always has something to offer: its result is never
    empty, every entry of it has [urls] that is a string or an array of
    strings, and an entry that is not one of the built-in defaults is an
    entry of the configured array. *)
Theorem getIceServers_usable (env : VoiceChatEnv) :
  getIceServers env ≠ []
  ∧ (∀ entry, entry ∈ getIceServers env →
       ((∃ url, prop (Some entry) "urls" = Some (JStr url))
        ∨ (∃ urls, prop (Some entry) "urls" = Some (JArr urls)
                   ∧ forallb is_string urls = true))
       ∧ (entry ∈ DEFAULT_ICE_SERVERS
          ∨ ∃ raw parsed, ICE_SERVERS_JSON env = Some (raw, Some (JArr parsed))
                          ∧ blank raw = false ∧ entry ∈ parsed)).
Proof.
  split; [apply getIceServers_nonempty |].
  intros entry Hin. split.
  - apply isIceServerLike_urls.
    pose proof (getIceServers_valid env) as Hall.
    rewrite Forall_forall in Hall. by apply Hall.
  - unfold getIceServers in Hin.
    destruct (ICE_SERVERS_JSON env) as [[raw [[| | | | parsed |] |]] |];
      try (by left).
    destruct (blank raw) eqn:Eb; [by left |]. simpl in Hin.
    destruct (0 <? _); [| by left].
    right. exists raw, parsed. split_and!; [done | done |].
    apply list_elem_of_In, filter_In in Hin as [Hin _].
    by apply list_elem_of_In.
Qed.


(** A call that fetches: the list is validated and the entry it leaves
    expires within the bounds. *)
Ltac fresh_entry E :=
  intros [= <- <-]; eexists; split_and!; try done; try congruence;
  right; split_and!;
  [ intros Hnil; by rewrite Hnil in E
  | apply Forall_forall; intros entry Hin;
    apply list_elem_of_In, filter_In in Hin; tauto
  | intros Hnow; cbn [cached_expiresAt];
    match goal with
    | |- context [computeCacheMs ?p ?e ?n] =>
        destruct (computeCacheMs_bounds p e n) as [Hlo Hhi]
    end;
    by apply fresh_expiry ].

(** What a successful call leaves in the cache. *)
Lemma resolved env now cached fetched servers cache' :
  resolveTurnIceServers env now cached fetched = (Some servers, cache') →
  ∃ c, cache' = Some c ∧ cached_iceServers c = servers
       ∧ (cached = Some c
          ∨ (servers ≠ []
             ∧ Forall (λ entry, isIceServerLike entry = true) servers
             ∧ (time_value now →
                (inject_Z now + MIN_TTL_MS <= cached_expiresAt c)%Q
                ∧ (cached_expiresAt c <= inject_Z now + MAX_TTL_MS)%Q)))
       ∧ TURN_TOKEN_ID env ≠ None ∧ TURN_API_TOKEN env ≠ None
       ∧ (∀ t, TURN_TOKEN_ID env = Some t → blank t = false)
       ∧ (∀ t, TURN_API_TOKEN env = Some t → blank t = false).
Proof.
  unfold resolveTurnIceServers.
  destruct (TURN_TOKEN_ID env) as [tokenId |]; [| done].
  destruct (TURN_API_TOKEN env) as [apiToken |]; [| done].
  destruct (blank tokenId || blank apiToken) eqn:Eb; [done |].
  apply orb_false_iff in Eb as [Eb1 Eb2].
  destruct cached as [c |].
  - destruct (negb (Qle_bool (cached_expiresAt c) (inject_Z now))) eqn:Ec.
    + intros [= <- <-]. exists c. split_and!; try done; try congruence.
      by left.
    + destruct fetched as [| | | payload]; try done.
      destruct (iceServers payload) as [[| | | | entries |] |]; try done.
      destruct (length (List.filter isIceServerLike entries) =? 0) eqn:E;
        [done |].
      fresh_entry E.
  - destruct fetched as [| | | payload]; try done.
    destruct (iceServers payload) as [[| | | | entries |] |]; try done.
    destruct (length (List.filter isIceServerLike entries) =? 0) eqn:E;
      [done |].
    fresh_entry E.
Qed.



Lemma resolve_failure env now cached fetched cache' :
  resolveTurnIceServers env now cached fetched = (None, cache') →
  cache' = cached.
Proof.
  unfold resolveTurnIceServers.
  destruct (TURN_TOKEN_ID env) as [tokenId |]; [| by intros [= <-]].
  destruct (TURN_API_TOKEN env) as [apiToken |]; [| by intros [= <-]].
  destruct (blank tokenId || blank apiToken); [by intros [= <-] |].
  destruct cached as [c |]; [destruct (negb _); [done |] |];
    (destruct fetched as [| | | payload]; try (by intros [= <-]);
     destruct (iceServers payload) as [[| | | | entries |] |];
       try (by intros [= <-]);
     destruct (length (List.filter isIceServerLike entries) =? 0);
       [by intros [= <-] | done]).
Qed.

(** X21. Over any series of calls, starting with an empty cache: a list the
    resolver returns is never empty and every entry of it passes
    [isIceServerLike], be it fetched or taken from the cache. *)
Theorem turn_lists_are_valid (calls : list (VoiceChatEnv * Z * Fetched))
    (servers : list json) :
  Some servers ∈ (resolveAll calls None).1 →
  servers ≠ [] ∧ Forall (λ entry, isIceServerLike entry = true) servers.
Proof.
  assert (∀ cached,
            (∀ c, cached = Some c →
                  cached_iceServers c ≠ []
                  ∧ Forall (λ entry, isIceServerLike entry = true)
                           (cached_iceServers c)) →
            Some servers ∈ (resolveAll calls cached).1 →
            servers ≠ [] ∧ Forall (λ entry, isIceServerLike entry = true) servers)
    as Hall.
  { induction calls as [| [[env now] fetched] calls IH]; intros cached Hok Hin.
    - by apply elem_of_nil in Hin.
    - cbn [resolveAll] in Hin.
      destruct (resolveTurnIceServers env now cached fetched)
        as [result cached1] eqn:Ecall.
      assert (∀ c, cached1 = Some c →
                   cached_iceServers c ≠ []
                   ∧ Forall (λ entry, isIceServerLike entry = true)
                            (cached_iceServers c)) as Hok1.
      { destruct result as [found |].
        - destruct (resolved _ _ _ _ _ _ Ecall) as (c&->&Hs&Hfresh&_).
          intros c' [= <-]. rewrite Hs.
          destruct Hfresh as [-> | (?&?&_)]; [| done].
          rewrite <- Hs. by apply Hok.
        - apply resolve_failure in Ecall as ->. done. }
      destruct (resolveAll calls cached1) as [results cached2] eqn:Erest.
      cbn [fst] in Hin. apply elem_of_cons in Hin as [<- | Hin].
      + destruct (resolved _ _ _ _ _ _ Ecall) as (c&Hc&Hs&_).
        rewrite <- Hs. by apply Hok1.
      + apply (IH cached1 Hok1). by rewrite Erest. }
  apply Hall. done.
Qed.

(** One call that fetches one relay server. *)
Lemma turn_lists_are_valid_witness :
  Forall (λ entry, isIceServerLike entry = true) [Scenario.turn_server].
Proof.
  refine (proj2 (turn_lists_are_valid
                   [(Scenario.turn_env, 0%Z, Scenario.turn_response)]
                   [Scenario.turn_server] _)).
  vm_compute. apply list_elem_of_here.
Defined.

End RelayFacts.

(** ** The client's connection *)

Module ClientFacts.
Import Js Client JsFacts.
#[local] Open Scope nat_scope.

Lemma handleServerMessage_registered parsed c :
  isRegistered (handleServerMessage parsed c).1
  = isRegistered c
    || match parsed with
       | Some message =>
           truthy parsed && is_object parsed
           && bool_decide (as_string (prop parsed "type") = Some "registered")
       | None => false
       end.
Proof.
  unfold handleServerMessage. destruct parsed as [message |];
    [| by rewrite orb_false_r].
  destruct (truthy (Some message)); [| by rewrite orb_false_r].
  destruct (is_object (Some message)); [| by rewrite orb_false_r].
  cbn [negb orb andb].
  destruct (as_string (prop (Some message) "type")) as [type |];
    [| by rewrite orb_false_r].
  destruct (decide (type = "registered")) as [-> | Hne].
  - rewrite !bool_decide_eq_true_2 by done. by rewrite orb_true_r.
  - rewrite (bool_decide_eq_false_2 (type = "registered")) by done.
    rewrite (bool_decide_eq_false_2 (Some type = Some "registered"))
      by congruence.
    rewrite orb_false_r. by repeat (destruct (bool_decide _)).
Qed.

Lemma handleServerMessage_identity parsed c :
  playerId (handleServerMessage parsed c).1 = playerId c
  ∧ sessionToken (handleServerMessage parsed c).1 = sessionToken c.
Proof.
  unfold handleServerMessage. destruct parsed as [message |]; [| done].
  destruct (negb _ || negb _); [done |].
  destruct (as_string _) as [type |]; [| done].
  by repeat (destruct (bool_decide _)).
Qed.

Lemma step_identity event c :
  playerId (step event c).1.1 = playerId c
  ∧ sessionToken (step event c).1.1 = sessionToken c.
Proof.
  destruct event as [data | open | open | open position | open targetId payload];
    cbn [step]; try done.
  destruct data as [| parsed]; cbn [onMessage]; [done |].
  pose proof (handleServerMessage_identity parsed c).
  by destruct (handleServerMessage parsed c).
Qed.

Lemma step_gate event c :
  (isRegistered c = true → isRegistered (step event c).1.1 = true)
  ∧ (isRegistered c = false →
     (∀ frame, frame ∈ (step event c).1.2 →
               frame = JObj [("type", JStr "heartbeat")]
               ∨ register true c = Some frame)
     ∧ (isRegistered (step event c).1.1 = true →
        ∃ message, event = Arrives (WorldShard.Text (Some message))
                   ∧ as_string (prop (Some message) "type") = Some "registered")).
Proof.
  destruct event as [data | open | open | open position | open targetId payload];
    cbn [step].
  - destruct data as [| parsed]; cbn [onMessage].
    + cbn [fst snd]. split; [done |]. intros Hc. split; [| congruence].
      intros frame Hin. by apply elem_of_nil in Hin.
    + pose proof (handleServerMessage_registered parsed c) as Hr.
      destruct (handleServerMessage parsed c) as [c1 handled]. cbn [fst snd] in *.
      split; [intros Hc; by rewrite Hr, Hc |].
      intros Hc. split; [intros frame Hin; by apply elem_of_nil in Hin |].
      rewrite Hr, Hc. cbn [orb]. destruct parsed as [message |]; [| done].
      intros Hreg. apply andb_true_iff in Hreg as [_ Hreg].
      apply bool_decide_eq_true in Hreg. by exists message.
  - split; [done |]. intros Hc. split; [| cbn [fst]; congruence].
    cbn [fst snd]. intros frame Hin. right.
    destruct open; cbn [register negb] in *.
    + apply list_elem_of_singleton in Hin. by subst.
    + by apply elem_of_nil in Hin.
  - split; [done |]. intros Hc. split; [| cbn [fst]; congruence].
    cbn [fst snd]. unfold sendHeartbeat. intros frame Hin. left.
    destruct open; [by apply list_elem_of_singleton in Hin |].
    by apply elem_of_nil in Hin.
  - split; [done |]. intros Hc. split; [| cbn [fst]; congruence].
    cbn [fst snd]. unfold sendPosition. rewrite Hc, orb_true_r.
    intros frame Hin. by apply elem_of_nil in Hin.
  - split; [done |]. intros Hc. split; [| cbn [fst]; congruence].
    cbn [fst snd]. unfold sendSignal. rewrite Hc, orb_true_r.
    intros frame Hin. by apply elem_of_nil in Hin.
Qed.

(** X22. The client holds back until it is registered. As long as no frame of
    type [registered] has arrived, the only frames it writes to the socket
    are heartbeats and the [register] frame with its player id and session
    token, however often [sendPosition] and [sendSignal] are called; it is
    registered only by a [registered] frame, and stays registered from then
    on. *)
Theorem client_waits_for_registration (events : list Event)
    (c : VoiceCellConnection) :
  let r := run events c in
  (isRegistered c = true → isRegistered r.1.1 = true)
  ∧ (isRegistered r.1.1 = false →
     ∀ frame, frame ∈ r.1.2 →
       frame = JObj [("type", JStr "heartbeat")]
       ∨ frame = JObj [("type", JStr "register");
                       ("playerId", JStr (playerId c));
                       ("sessionToken", JStr (sessionToken c))])
  ∧ (isRegistered c = false → isRegistered r.1.1 = true →
     ∃ message, Arrives (WorldShard.Text (Some message)) ∈ events
                ∧ as_string (prop (Some message) "type") = Some "registered").
Proof.
  revert c. induction events as [| event events IH]; intros c r.
  - subst r. cbn [run fst snd]. split_and!; [done | | congruence].
    intros _ frame Hin. by apply elem_of_nil in Hin.
  - subst r. cbn [run].
    destruct (step_gate event c) as [Hkeep Hgate].
    destruct (step_identity event c) as [Hp Hs].
    destruct (step event c) as [[c1 sent1] handled1]. cbn [fst snd] in *.
    destruct (IH c1) as (IH1&IH2&IH3).
    destruct (run events c1) as [[c2 sent2] handled2]. cbn [fst snd] in *.
    split_and!.
    + auto.
    + intros Hfinal frame Hin.
      destruct (isRegistered c) eqn:Ec.
      { rewrite IH1 in Hfinal by auto. done. }
      destruct (Hgate eq_refl) as [Hsent Hreg].
      apply elem_of_app in Hin as [Hin | Hin].
      * destruct (Hsent frame Hin) as [-> | Hr]; [by left | right].
        cbn [register negb] in Hr. congruence.
      * rewrite <- Hp, <- Hs. by apply IH2.
    + intros Hc Hfinal. destruct (Hgate Hc) as [_ Hreg].
      destruct (isRegistered c1) eqn:Ec1.
      * destruct (Hreg eq_refl) as (message&->&Ht). exists message.
        split; [by left | done].
      * destruct (IH3 eq_refl Hfinal) as (message&Hin&Ht). exists message.
        split; [by right | done].
Qed.

(** X23. The client understands the shard: every frame the shard writes, once
    stringified and parsed, is taken by [handleServerMessage] for what it
    is. A [registered] frame marks the connection registered; each of the
    others is handed to the handlers of its kind, with the fields the shard
    put in. *)
Theorem client_understands_shard (frame : WorldShard.Frame)
    (c : VoiceCellConnection) :
  handleServerMessage (Some (encode frame)) c
  = match frame with
    | WorldShard.RegisteredFrame _ =>
        ({| playerId := playerId c; sessionToken := sessionToken c;
            isRegistered := true |}, [])
    | WorldShard.ErrorFrame message =>
        (c, [ErrorHandled (Some (JStr message))])
    | WorldShard.SignalDeliveryFailedFrame targetId =>
        (c, [DeliveryFailureHandled targetId])
    | WorldShard.SignalFrame _ _ => (c, [SignalHandled (encode frame)])
    | WorldShard.PeersFrame _ _ _ _ _ _ => (c, [PeersHandled (encode frame)])
    end.
Proof.
  destruct frame as [message | player | targetId | from payload
                    | peers added removed distances positions total].
  - reflexivity.
  - reflexivity.
  - destruct targetId as [t |]; reflexivity.
  - destruct payload as [p |]; reflexivity.
  - destruct added, removed, distances, positions; reflexivity.
Qed.

End ClientFacts.

(** ** Admission, end to end *)

Module HandshakeFacts.
Import Js WorldShard WorldShardSpec JsFacts WorldShardFacts.
#[local] Open Scope nat_scope.

(** X24. The handshake, end to end. A well-formed [/join] is always admitted;
    the token it returns registers the player on a fresh socket, the client
    reads the answer as its registration, and the position it then sends is
    stored for the player and schedules a recomputation. *)
Theorem join_handshake `{Platform} (now later last : Z) (token c : string)
    (env : Relay.VoiceChatEnv) (body : option json) (player : string)
    (spawn : Q * Q * Q) (shard : State) (here : PeerManager.Vector3) :
  Relay.parseJoinRequest body = Some (player, spawn) →
  c ∉ registered_ids shard →
  let joined := Relay.handleJoin now token env body shard in
  let client := Client.new player token in
  ∃ frame moved,
    joined.2
    = Relay.Joined {| Relay.cellId := Relay.deriveCellId spawn;
                      Relay.sessionToken := token;
                      Relay.join_iceServers := Relay.getIceServers env |}
    ∧ Client.register true client = Some frame
    ∧ let accepted :=
        run [(later, Socket c); (later, Message c (Text (Some frame)))]
            joined.1 in
      accepted.2 = [Response 101; Send c (RegisteredFrame player)]
      ∧ let client1 :=
          (Client.onMessage (Text (Some (Client.encode (RegisteredFrame player))))
                            client).1 in
        Client.sendPosition true here client1 = [moved]
        ∧ let final := step last (Message c (Text (Some moved))) accepted.1 in
          final.2 = []
          ∧ position <$> JsMap.get player (connectionsByPlayer final.1)
            = Some (Some (Client.vector here))
          ∧ proximityTimer final.1 = true.
Proof.
  intros Hparse Hfresh joined client.
  eexists _, _. split_and!.
  - unfold joined, Relay.handleJoin. rewrite Hparse.
    destruct (handlePrepare_accepts now
                (JObj [("playerId", JStr player); ("sessionToken", JStr token)])
                player token shard eq_refl eq_refl eq_refl) as [Hok _].
    destruct (handlePrepare _ _ _) as [shard1 out]. simpl in Hok.
    rewrite Hok. done.
  - done.
  - set (shard1 := joined.1).
    assert (shard1
            = (handlePrepare now
                 (Some (JObj [("playerId", JStr player);
                              ("sessionToken", JStr token)])) shard).1) as Hs1.
    { unfold shard1, joined, Relay.handleJoin. rewrite Hparse.
      destruct (handlePrepare_accepts now
                  (JObj [("playerId", JStr player); ("sessionToken", JStr token)])
                  player token shard eq_refl eq_refl eq_refl) as [Hok _].
      destruct (handlePrepare _ _ _) as [shard1' out]. simpl in Hok.
      rewrite Hok. done. }
    destruct (handlePrepare_accepts now
                (JObj [("playerId", JStr player); ("sessionToken", JStr token)])
                player token shard eq_refl eq_refl eq_refl) as [_ Hpending].
    rewrite <- Hs1 in Hpending.
    destruct (same_players_handlePrepare now
                (Some (JObj [("playerId", JStr player);
                             ("sessionToken", JStr token)])) shard)
      as (Hconn&_). rewrite <- Hs1 in Hconn.
    clearbody shard1. clear Hs1.
    set (shard2 := (handleSocket later c shard1).1).
    set (registered :=
           {| id := c; playerId := player; sessionToken := token; socket := c;
              lastSeen := later; lastPositionAt := None; position := None |}).
    assert (∃ shard3,
              step later (Message c (Text (Some (JObj [("type", JStr "register");
                 ("playerId", JStr player); ("sessionToken", JStr token)]))))
                shard2
              = (shard3, [Send c (RegisteredFrame player)])
              ∧ connectionsByPlayer shard3
                = JsMap.set player registered (connectionsByPlayer shard)
              ∧ proximityTimer shard3 = true) as (shard3&Hstep&Hc3&Ht3).
    { assert (anonymousConnections shard2 !! c
              = Some {| anon_id := c; anon_socket := c; anon_lastSeen := later |}
              ∧ pendingSessionsByToken shard2 = pendingSessionsByToken shard1
              ∧ connectionsByPlayer shard2 = connectionsByPlayer shard1)
        as (Ha2&Hp2&Hc2).
      { unfold shard2. simpl. by rewrite lookup_insert_eq. }
      eexists. rewrite (register_frame later c player token _ shard2 eq_refl).
      rewrite Ha2, Hp2, Hpending. cbn [ps_playerId anon_socket].
      rewrite String.eqb_refl. split_and!; [done | |].
      - match goal with
        | |- context [scheduleProximityRecalc (scheduleCleanup ?s3)] =>
            destruct (same_players_trans _ _ _ (same_players_scheduleCleanup s3)
                        (same_players_scheduleProximityRecalc _)) as (->&_)
        end.
        simpl. by rewrite ?Hc2, ?Hconn.
      - apply scheduleProximityRecalc_armed. }
    cbn [run]. change (step later (Socket c) shard1)
      with (shard2, [Response 101]).
    cbn beta iota.
    change (Client.playerId client) with player.
    change (Client.sessionToken client) with token.
    rewrite Hstep. cbn [fst snd app].
    split; [done |]. split; [done |].
    assert (lookupConnection c shard3 = Some registered) as Hlook.
    { unfold lookupConnection. rewrite Hc3. by apply find_set_fresh. }
    rewrite step_position by done. unfold handlePosition. rewrite Hlook.
    simpl. split_and!; [done | |].
    + match goal with
      | |- context [scheduleProximityRecalc ?s4] =>
          destruct (same_players_scheduleProximityRecalc s4) as (->&_)
      end.
      simpl. rewrite Hc3, get_mutate_set by done. done.
    + apply scheduleProximityRecalc_armed.
Qed.

(** A first join into the empty shard of the origin's cell. *)
Lemma join_handshake_witness :
  (Relay.handleJoin 0 "t" Scenario.turn_env Scenario.join_body initial).2
  = Relay.Joined {| Relay.cellId := Relay.deriveCellId (0, 0, 0)%Q;
                    Relay.sessionToken := "t";
                    Relay.join_iceServers :=
                      Relay.getIceServers Scenario.turn_env |}.
Proof.
  destruct (join_handshake (H := Scenario.platform) 0 1 2 "t" "c1"
              Scenario.turn_env Scenario.join_body "A" (0, 0, 0)%Q initial
              {| PeerManager.x := 1; PeerManager.y := 2; PeerManager.z := 3 |})
    as (frame&moved&Hjoined&_).
  - vm_compute. reflexivity.
  - apply not_elem_of_nil.
  - exact Hjoined.
Defined.

End HandshakeFacts.
